(** * sm-dag-compiler: the PyTorch training step builder, the batch transform
      calibration specification, and the dependency-resolution core

    Shallow embedding of
    - [steps/builders/builder_training_step_pytorch.py]
      (class [PyTorchTrainingStepBuilder]),
    - [steps/specs/batch_transform_calibration_spec.py]
      ([BATCH_TRANSFORM_CALIBRATION_SPEC]),
    - [__init__.py] (the body of the package),
    together with models of the pipeline DAG, the specification registry and
    the dependency resolver, whose modules the files import but which are
    described only by the design document. *)

From stdpp Require Import base option list gmap strings pretty fin_maps.
From Stdlib Require Import ZArith Lia Ascii QArith Lqa.

Close Scope Q_scope.

Open Scope string_scope.
Open Scope list_scope.

(** ** Python values *)

(** The values that flow through configuration attributes, [inputs] and
    [outputs] dictionaries.  [PBytes b] is a [bytes] object.  [PObj t r] is
    an object of any other type that has none of the methods of [str] (a
    list, a dictionary, a property reference, ...): [t] is the name of its
    type and [r] is what [str] gives on it.  Objects of a class that brings
    its own [endswith] are not among these values. *)
Inductive pyval : Type :=
  | PNone
  | PBool (b : bool)
  | PInt (z : Z)
  | PStr (s : string)
  | PBytes (b : string)
  | PObj (type_name r : string).

Global Instance pyval_eq_dec : EqDecision pyval.
Proof. solve_decision. Defined.

(** [type(v).__name__] *)
Definition py_type_name (v : pyval) : string :=
  match v with
  | PNone => "NoneType"
  | PBool _ => "bool"
  | PInt _ => "int"
  | PStr _ => "str"
  | PBytes _ => "bytes"
  | PObj t _ => t
  end.

(** [repr] of a [bytes] object: the quote is the single quote, unless the
    bytes hold a single quote and no double quote; the quote and the
    backslash are escaped with a backslash, tab, newline and carriage return
    are written as backslash and [t], [n], [r], and any other byte outside
    the printable ASCII range as backslash, [x] and two hexadecimal
    digits. *)
Definition hex_digit (n : N) : ascii :=
  ascii_of_N (if (n <? 10)%N then 48 + n else 87 + n)%N.

Definition bytes_repr_byte (quote c : ascii) : string :=
  let n := N_of_ascii c in
  if decide (c = quote ∨ c = "092"%char)
  then String "092" (String c EmptyString)
  else if decide (n = 9%N) then String "092" "t"
  else if decide (n = 10%N) then String "092" "n"
  else if decide (n = 13%N) then String "092" "r"
  else if ((n <? 32) || (127 <=? n))%N
  then String "092"
         (String "x"
            (String (hex_digit (n / 16)) (String (hex_digit (n mod 16))
               EmptyString)))
  else String c EmptyString.

Fixpoint contains_byte (c : ascii) (b : string) : bool :=
  match b with
  | EmptyString => false
  | String c' b' => bool_decide (c' = c) || contains_byte c b'
  end.

Fixpoint bytes_repr_body (quote : ascii) (b : string) : string :=
  match b with
  | EmptyString => EmptyString
  | String c b' => bytes_repr_byte quote c +:+ bytes_repr_body quote b'
  end.

Definition bytes_repr (b : string) : string :=
  let quote : ascii :=
    if contains_byte "039" b && negb (contains_byte "034" b)
    then "034"%char else "039"%char in
  String "b"
    (String quote (bytes_repr_body quote b +:+ String quote EmptyString)).

(** [format(v)], as used by an f-string replacement field and by [%s]. *)
Definition py_format (v : pyval) : string :=
  match v with
  | PNone => "None"
  | PBool true => "True"
  | PBool false => "False"
  | PInt z => pretty z
  | PStr s => s
  | PBytes b => bytes_repr b
  | PObj _ r => r
  end.

(** [v in [None, ""]]: list membership compares with [==]. *)
Definition py_in_None_empty (v : pyval) : bool :=
  match v with
  | PNone => true
  | PStr s => bool_decide (s = "")
  | _ => false
  end.

(** ** Exceptions, logging and the builder monad *)

Inductive exn : Type :=
  | ValueError (msg : string)
  | AttributeError (msg : string)
  | TypeError (msg : string)
  | KeyError (msg : string)
  | SdkError (msg : string).

(** [str(e)] *)
Definition exn_str (e : exn) : string :=
  match e with
  | ValueError m | AttributeError m | TypeError m | KeyError m
  | SdkError m => m
  end.

Inductive result (A : Type) : Type :=
  | Raise (e : exn)
  | Return (a : A).
Arguments Raise {A} e.
Arguments Return {A} a.

Inductive level : Type := INFO | WARNING | ERROR.

(** A log record: the level and the message.  Arguments of a [%s]-style call
    that are strings, exceptions or plain values are substituted; how an
    argument that is a dictionary or a list is written is up to the inherited
    [log_info] (see [Collaborators]). *)
Definition LogRecord : Type := level * string.

(** [template % args] for templates whose only directive is [%s]. *)
Fixpoint pct (template : string) (args : list string) : string :=
  match template with
  | EmptyString => EmptyString
  | String c t =>
      match t with
      | String c' t' =>
          if decide (c = "%"%char ∧ c' = "s"%char)
          then match args with
               | a :: args' => a +:+ pct t' args'
               | [] => String c (String c' (pct t' []))
               end
          else String c (pct t args)
      | EmptyString => String c EmptyString
      end
  end.

(** [s.endswith('/')] and [s[:-1]] *)
Fixpoint endswith_slash (s : string) : bool :=
  match s with
  | EmptyString => false
  | String c EmptyString => bool_decide (c = "/"%char)
  | String _ s' => endswith_slash s'
  end.

Fixpoint drop_last (s : string) : string :=
  match s with
  | EmptyString => EmptyString
  | String _ EmptyString => EmptyString
  | String c s' => String c (drop_last s')
  end.

(** ** Step specifications (the declaration surface used by
       [batch_transform_calibration_spec.py]) *)

(** Modelled from the spec: the enumerations [DependencyType] and [NodeType]
    are declared in [core/base/specification_base.py] (absent).  The members
    are the ones the specification file uses and the ones the design document
    lists. *)
Inductive DependencyType : Type :=
  | PROCESSING_OUTPUT
  | MODEL_ARTIFACTS
  | CUSTOM_PROPERTY
  | HYPERPARAMETERS.

Inductive NodeType : Type := SOURCE | INTERNAL | SINK.

Record DependencySpec : Type := {
  dep_logical_name : string;
  dependency_type : DependencyType;
  required : bool;
  compatible_sources : list string;
  semantic_keywords : list string;
  dep_data_type : string;
  dep_description : string
}.

Record OutputSpec : Type := {
  out_logical_name : string;
  output_type : DependencyType;
  property_path : string;
  out_data_type : string;
  out_description : string
}.

(** Python dictionaries whose iteration order matters are association lists
    in insertion order with pairwise distinct keys. *)
Definition odict (V : Type) : Type := list (string * V).

(** [d[k] = v]: an existing key keeps its position, a new key goes last. *)
Fixpoint od_insert {V} (k : string) (v : V) (d : odict V) : odict V :=
  match d with
  | [] => [(k, v)]
  | (k', v') :: d' =>
      if decide (k' = k) then (k, v) :: d' else (k', v') :: od_insert k v d'
  end.

Definition od_keys {V} (d : odict V) : list string := d.*1.
Definition od_values {V} (d : odict V) : list V := d.*2.

(** Modelled from the spec: the class [StepSpecification] of
    [core/base/specification_base.py] is absent.  The design document makes
    the dependencies and the outputs ordered sets in which the logical name
    is unique, and the builder iterates [spec.dependencies.items()] and
    [spec.outputs.items()]; so the two collections are dictionaries in
    insertion order. *)
Record StepSpecification : Type := {
  step_type : string;
  node_type : NodeType;
  spec_dependencies : odict DependencySpec;
  spec_outputs : odict OutputSpec
}.

(** Modelled from the spec: the constructor of [StepSpecification] (absent)
    receives the two lists of the declaration and files every entry under its
    logical name. *)
Definition StepSpecification_init (st : string) (nt : NodeType)
    (deps : list DependencySpec) (outs : list OutputSpec) : StepSpecification :=
  {| step_type := st;
     node_type := nt;
     spec_dependencies :=
       foldl (λ d s, od_insert (dep_logical_name s) s d) [] deps;
     spec_outputs :=
       foldl (λ d s, od_insert (out_logical_name s) s d) [] outs |}.

(** The script contract gives the container path of every logical input and
    output name. *)
Record ScriptContract : Type := {
  expected_input_paths : gmap string string;
  expected_output_paths : gmap string string
}.

(** ** The builder object *)

(** [config.hyperparameters], when it is there and truthy: an object that
    has a [to_dict] method, which returns the dictionary given or raises; an
    object without one whose instance attributes ([vars]) are [d]; or an
    object that has neither [to_dict] nor a [__dict__] (a plain dictionary,
    a string, an instance of a class with [__slots__], ...), on which [vars]
    raises [TypeError]. *)
Inductive HyperParams : Type :=
  | HyperToDict (r : result (gmap string pyval))
  | HyperVars (d : gmap string pyval)
  | HyperNoDict.

(** [config.env], when it is there and truthy, by what [dict.update] does
    with it: a dictionary (or an iterable of key and value pairs) with the
    entries [d]; an object of the type named that cannot be iterated over
    (an integer, [True], ...), which is a [TypeError]; or any other value
    that [dict.update] rejects, with the exception it raises (a string is a
    [ValueError], a list of numbers a [TypeError], ...). *)
Inductive EnvValue : Type :=
  | EnvDict (d : gmap string string)
  | EnvNotIterable (type_name : string)
  | EnvRejected (e : exn).

(** The configuration object.  [attrs] are the attributes looked up by name
    ([hasattr]/[getattr]); [hyperparameters] and [env] are [None] when the
    attribute is missing or falsy. *)
Record Config : Type := {
  attrs : gmap string pyval;
  hyperparameters : option HyperParams;
  env : option EnvValue
}.

Record Builder : Type := {
  config : Config;
  spec : option StepSpecification;
  contract : option ScriptContract;
  role : pyval;
  session : pyval
}.

(** The state a method runs in: the builder itself and the log written so
    far. *)
Record World : Type := {
  w_self : Builder;
  w_log : list LogRecord
}.

Definition M (A : Type) : Type := World → result A * World.

Definition ret {A} (a : A) : M A := λ w, (Return a, w).
Definition bind {A B} (m : M A) (k : A → M B) : M B :=
  λ w, match m w with
       | (Return a, w') => k a w'
       | (Raise e, w') => (Raise e, w')
       end.
Definition raise {A} (e : exn) : M A := λ w, (Raise e, w).
Definition get_self : M Builder := λ w, (Return (w_self w), w).
Definition log (l : level) (msg : string) : M unit :=
  λ w, (Return (), {| w_self := w_self w; w_log := w_log w ++ [(l, msg)] |}).
Definition log_info := log INFO.
Definition log_warning := log WARNING.
Definition log_error := log ERROR.

(** [try: m except Exception as e: h e] *)
Definition try_except {A} (m : M A) (h : exn → M A) : M A :=
  λ w, match m w with
       | (Raise e, w') => h e w'
       | r => r
       end.

Global Instance M_ret : MRet M := @ret.
Global Instance M_bind : MBind M := λ A B k m, bind m k.

(** [self.config.<name>] *)
Definition getattr (name : string) : M pyval :=
  self ← get_self;
  match attrs (config self) !! name with
  | Some v => ret v
  | None =>
      raise (AttributeError
        ("'PyTorchTrainingConfig' object has no attribute '" ++ name ++ "'"))
  end.

(** ** [validate_configuration] *)

Definition required_attrs : list string :=
  [ "training_instance_type";
    "training_instance_count";
    "training_volume_size";
    "training_entry_point";
    "source_dir";
    "framework_version";
    "py_version" ].

(** [not hasattr(config, attr) or getattr(config, attr) in [None, ""]] *)
Definition attr_missing (c : Config) (attr : string) : bool :=
  match attrs c !! attr with
  | None => true
  | Some v => py_in_None_empty v
  end.

Fixpoint validate_loop (l : list string) : M unit :=
  match l with
  | [] => ret ()
  | attr :: rest =>
      self ← get_self;
      if attr_missing (config self) attr
      then raise (ValueError
             ("PyTorchTrainingConfig missing required attribute: " ++ attr))
      else validate_loop rest
  end.

Definition validate_configuration : M unit :=
  log_info "Validating PyTorchTrainingConfig..." ;;
  validate_loop required_attrs ;;
  log_info "Configuration validation relies on step specifications" ;;
  log_info "PyTorchTrainingConfig validation succeeded.".

(** ** SDK objects *)

Record TrainingInput : Type := { s3_data : pyval }.

Record PyTorch : Type := {
  entry_point : pyval;
  est_source_dir : pyval;
  est_framework_version : pyval;
  est_py_version : pyval;
  est_role : pyval;
  instance_type : pyval;
  instance_count : pyval;
  volume_size : pyval;
  base_job_name : string;
  est_hyperparameters : gmap string pyval;
  sagemaker_session : pyval;
  output_path : pyval;
  environment : gmap string string
}.

Record TrainingStep : Type := {
  ts_name : string;
  ts_estimator : PyTorch;
  ts_inputs : gmap string TrainingInput;
  ts_depends_on : list string;
  ts_cache_config : pyval;
  _spec : option StepSpecification
}.

(** [setattr(training_step, '_spec', spec)] *)
Definition setattr_spec (training_step : TrainingStep)
    (sp : option StepSpecification) : TrainingStep :=
  {| ts_name := ts_name training_step;
     ts_estimator := ts_estimator training_step;
     ts_inputs := ts_inputs training_step;
     ts_depends_on := ts_depends_on training_step;
     ts_cache_config := ts_cache_config training_step;
     _spec := sp |}.

(** The keyword arguments [create_step] reads; [None] is a missing key. *)
Record Kwargs : Type := {
  kw_inputs : option (gmap string pyval);
  kw_input_path : option pyval;
  kw_output_path : option pyval;
  kw_dependencies : option (list string);
  kw_enable_caching : option bool
}.

(** What the builder inherits from [StepBuilderBase] and calls in the SDK;
    neither is part of the two files.  The SDK constructors may refuse their
    arguments; [extract_inputs_from_dependencies] and the inherited
    [_get_environment_variables] may fail.  [str_dict] and [str_list] are
    what the inherited [log_info] writes for a dictionary and for a list
    given as an argument of a [%s]-style call. *)
Record Collaborators : Type := {
  _generate_job_name : Builder → string;
  _get_step_name : Builder → string;
  super_get_environment_variables : Builder → result (gmap string string);
  _get_cache_config : Builder → bool → pyval;
  extract_inputs_from_dependencies :
    Builder → list string → result (gmap string pyval);
  PyTorch_init : PyTorch → option exn;
  TrainingStep_init : TrainingStep → option exn;
  str_dict : gmap string string → string;
  str_list : list string → string
}.

Section PyTorchTrainingStepBuilder.

Variable base : Collaborators.

(** Running a collaborator that may raise. *)
Definition lift {A} (r : result A) : M A := λ w, (r, w).

Definition construct {A} (check : A → option exn) (a : A) : M A :=
  match check a with
  | Some e => raise e
  | None => ret a
  end.

(** *** [_get_environment_variables] *)
Definition _get_environment_variables : M (gmap string string) :=
  self ← get_self;
  env_vars ← lift (super_get_environment_variables base self);
  env_vars ←
    match env (config self) with
    | Some (EnvDict e) => mret (e ∪ env_vars)
    | Some (EnvNotIterable t) =>
        raise (TypeError ("'" +:+ t +:+ "' object is not iterable"))
    | Some (EnvRejected e) => raise e
    | None => mret env_vars
    end;
  log_info (pct "Training environment variables: %s"
              [str_dict base env_vars]);;
  mret env_vars.

(** *** [_create_estimator] *)
Definition _create_estimator : M PyTorch :=
  self ← get_self;
  hyperparameters ←
    match hyperparameters (config self) with
    | Some (HyperToDict r) =>
        d ← lift r;
        mret (d ∪ (∅ : gmap string pyval))
    | Some (HyperVars d) =>
        mret (filter (λ kv, String.prefix "_" kv.1 = false) d ∪ ∅)
    | Some HyperNoDict =>
        raise (TypeError "vars() argument must have __dict__ attribute")
    | None => mret ∅
    end;
  a_entry_point ← getattr "training_entry_point";
  a_source_dir ← getattr "source_dir";
  a_framework_version ← getattr "framework_version";
  a_py_version ← getattr "py_version";
  a_instance_type ← getattr "training_instance_type";
  a_instance_count ← getattr "training_instance_count";
  a_volume_size ← getattr "training_volume_size";
  environment ← _get_environment_variables;
  construct (PyTorch_init base)
    {| entry_point := a_entry_point;
       est_source_dir := a_source_dir;
       est_framework_version := a_framework_version;
       est_py_version := a_py_version;
       est_role := role self;
       instance_type := a_instance_type;
       instance_count := a_instance_count;
       volume_size := a_volume_size;
       base_job_name := _generate_job_name base self;
       est_hyperparameters := hyperparameters;
       sagemaker_session := session self;
       output_path := PNone;
       environment := environment |}.

(** *** [_create_data_channel_from_source] *)
Definition _create_data_channel_from_source (base_path : pyval)
    : gmap string TrainingInput :=
  {[ "data" := {| s3_data := base_path |} ]}.

(** *** [_get_inputs] *)

(** The body of the loop over [self.spec.dependencies.items()], with the two
    locals [training_inputs] and [matched_inputs] it updates. *)
Fixpoint _get_inputs_loop (ct : ScriptContract) (inputs : gmap string pyval)
    (deps : list (string * DependencySpec))
    (training_inputs : gmap string TrainingInput)
    (matched_inputs : gset string) : M (gmap string TrainingInput) :=
  match deps with
  | [] => mret training_inputs
  | (_, dependency_spec) :: rest =>
      let logical_name := dep_logical_name dependency_spec in
      if decide (logical_name ∈ matched_inputs) then
        _get_inputs_loop ct inputs rest training_inputs matched_inputs
      else if negb (required dependency_spec)
              && bool_decide (inputs !! logical_name = None) then
        _get_inputs_loop ct inputs rest training_inputs matched_inputs
      else if required dependency_spec
              && bool_decide (inputs !! logical_name = None) then
        raise (ValueError
          ("Required input '" +:+ logical_name +:+ "' not provided"))
      else
        match expected_input_paths ct !! logical_name with
        | None =>
            raise (ValueError
              ("No container path found for input: " +:+ logical_name))
        | Some container_path =>
            if decide (logical_name = "input_path") then
              match inputs !! logical_name with
              | None => raise (KeyError logical_name)
              | Some base_path =>
                  let data_channel :=
                    _create_data_channel_from_source base_path in
                  log_info (pct "Created data channel from %s: %s"
                              [logical_name; py_format base_path]);;
                  _get_inputs_loop ct inputs rest
                    (data_channel ∪ training_inputs)
                    ({[ logical_name ]} ∪ matched_inputs)
              end
            else
              _get_inputs_loop ct inputs rest training_inputs matched_inputs
        end
  end.

Definition _get_inputs (inputs : gmap string pyval)
    : M (gmap string TrainingInput) :=
  self ← get_self;
  match spec self with
  | None => raise (ValueError "Step specification is required")
  | Some sp =>
      match contract self with
      | None =>
          raise (ValueError "Script contract is required for input mapping")
      | Some ct => _get_inputs_loop ct inputs (spec_dependencies sp) ∅ ∅
      end
  end.

(** *** [_get_outputs] *)

(** The loop over [output_logical_names] with its [break]: the value filed
    under the first name that is a key of [outputs]. *)
Fixpoint first_provided (outputs : gmap string pyval)
    (output_logical_names : list string) : option (string * pyval) :=
  match output_logical_names with
  | [] => None
  | logical_name :: rest =>
      match outputs !! logical_name with
      | Some v => Some (logical_name, v)
      | None => first_provided outputs rest
      end
  end.

Definition _get_outputs (outputs : gmap string pyval) : M string :=
  self ← get_self;
  match spec self with
  | None => raise (ValueError "Step specification is required")
  | Some sp =>
      match contract self with
      | None =>
          raise (ValueError "Script contract is required for output mapping")
      | Some ct =>
          let output_logical_names :=
            map (λ kv, out_logical_name kv.2) (spec_outputs sp) in
          primary_output_path ←
            match first_provided outputs output_logical_names with
            | Some (logical_name, v) =>
                log_info ("Using provided output path from '" +:+ logical_name
                          +:+ "': " +:+ py_format v);;
                mret v
            | None => mret PNone
            end;
          primary_output_path ←
            match primary_output_path with
            | PNone =>
                loc ← getattr "pipeline_s3_loc";
                let p := py_format loc +:+ "/pytorch_training/" in
                log_info ("Using generated base output path: " +:+ p);;
                mret (PStr p)
            | v => mret v
            end;
          match primary_output_path with
          | PStr p =>
              let p := if endswith_slash p then drop_last p else p in
              let base_job_name := _generate_job_name base self in
              log_info ("SageMaker will organize outputs using base job name: "
                        +:+ base_job_name);;
              log_info ("Full job name will be: " +:+ base_job_name
                        +:+ "-[timestamp]");;
              log_info ("Output path structure will be: " +:+ p +:+ "/"
                        +:+ base_job_name +:+ "-[timestamp]/");;
              log_info ("  - Model artifacts will be in: " +:+ p +:+ "/"
                        +:+ base_job_name
                        +:+ "-[timestamp]/output/model.tar.gz");;
              log_info ("  - Evaluation results will be in: " +:+ p +:+ "/"
                        +:+ base_job_name
                        +:+ "-[timestamp]/output/output.tar.gz");;
              mret p
          | PBytes _ =>
              raise (TypeError
                "endswith first arg must be bytes or a tuple of bytes, not str")
          | v =>
              raise (AttributeError
                ("'" +:+ py_type_name v
                 +:+ "' object has no attribute 'endswith'"))
          end
      end
  end.

(** *** [create_step] *)
Definition create_step (kwargs : Kwargs) : M TrainingStep :=
  let inputs_raw := default ∅ (kw_inputs kwargs) in
  let input_path := default PNone (kw_input_path kwargs) in
  let output_path := default PNone (kw_output_path kwargs) in
  let dependencies := default [] (kw_dependencies kwargs) in
  let enable_caching := default true (kw_enable_caching kwargs) in
  log_info "Creating PyTorch TrainingStep...";;
  self ← get_self;
  let step_name := _get_step_name base self in
  let inputs : gmap string pyval := ∅ in
  inputs ←
    match dependencies with
    | [] => mret inputs
    | _ =>
        try_except
          (extracted_inputs ←
             lift (extract_inputs_from_dependencies base self dependencies);
           mret (extracted_inputs ∪ inputs))
          (λ e,
             log_warning (pct "Failed to extract inputs from dependencies: %s"
                            [exn_str e]);;
             mret inputs)
    end;
  let inputs := inputs_raw ∪ inputs in
  let inputs :=
    match input_path with
    | PNone => inputs
    | _ => <[ "input_path" := input_path ]> inputs
    end in
  training_inputs ← _get_inputs inputs;
  if decide (size training_inputs = 0) then
    raise (ValueError "No training inputs available. Provide input_path or ensure dependencies supply necessary outputs.")
  else
    log_info (pct "Final training inputs: %s"
                [str_list base (map_to_list training_inputs).*1]);;
    output_path ← _get_outputs ∅;
    estimator ← _create_estimator;
    try_except
      (training_step ←
         construct (TrainingStep_init base)
           {| ts_name := step_name;
              ts_estimator := estimator;
              ts_inputs := training_inputs;
              ts_depends_on := dependencies;
              ts_cache_config := _get_cache_config base self enable_caching;
              _spec := None |};
       let training_step := setattr_spec training_step (spec self) in
       log_info (pct "Created TrainingStep with name: %s"
                   [ts_name training_step]);;
       mret training_step)
      (λ e,
         log_error (pct "Error creating PyTorch TrainingStep: %s" [exn_str e]);;
         raise (ValueError
           ("Failed to create PyTorchTrainingStep: " +:+ exn_str e))).

End PyTorchTrainingStepBuilder.

(** ** Auxiliary notions used by the statements *)

(** A computation that leaves the builder object as it found it. *)
Definition preserves_self {A} (m : M A) : Prop :=
  ∀ w, w_self (m w).2 = w_self w.

Definition missing_attr_error (attr : string) : exn :=
  ValueError ("PyTorchTrainingConfig missing required attribute: " +:+ attr).

Definition required_error (logical_name : string) : exn :=
  ValueError ("Required input '" +:+ logical_name +:+ "' not provided").

Definition data_channel (v : pyval) : gmap string TrainingInput :=
  {[ "data" := {| s3_data := v |} ]}.

(** The two states the locals of the loop can be in: nothing handled yet, or
    [input_path] handled and its channel created. *)
Definition loop_state (inputs : gmap string pyval)
    (training_inputs : gmap string TrainingInput)
    (matched_inputs : gset string) : Prop :=
  (training_inputs = ∅ ∧ matched_inputs = ∅)
  ∨ ∃ v, inputs !! "input_path" = Some v
         ∧ training_inputs = data_channel v
         ∧ matched_inputs = {[ "input_path" ]}.

(** A dependency the loop gets past: it is not both required and absent, and
    when it is present the contract has a container path for it. *)
Definition passes (ct : ScriptContract) (inputs : gmap string pyval)
    (d : DependencySpec) : Prop :=
  (inputs !! dep_logical_name d = None → required d = false)
  ∧ (is_Some (inputs !! dep_logical_name d) →
     is_Some (expected_input_paths ct !! dep_logical_name d)).

(** Some dependency of the list has the logical name [input_path]. *)
Definition has_input_path (deps : list (string * DependencySpec)) : Prop :=
  ∃ k d, (k, d) ∈ deps ∧ dep_logical_name d = "input_path".

(** One iteration, as an equation. *)
Definition add_log (w : World) (r : LogRecord) : World :=
  {| w_self := w_self w; w_log := w_log w ++ [r] |}.

(** [occurs n s]: the string [n] occurs in [s]. *)
Fixpoint occurs (n s : string) : bool :=
  String.prefix n s
  || match s with
     | EmptyString => false
     | String _ s' => occurs n s'
     end.

(** The builder with another list of dependencies in its specification. *)
Definition with_dependencies (deps : odict DependencySpec) (w : World)
    : World :=
  {| w_self :=
       {| config := config (w_self w);
          spec :=
            (λ sp, {| step_type := step_type sp;
                      node_type := node_type sp;
                      spec_dependencies := deps;
                      spec_outputs := spec_outputs sp |}) <$> spec (w_self w);
          contract := contract (w_self w);
          role := role (w_self w);
          session := session (w_self w) |};
     w_log := w_log w |}.

(** ** Fixtures: a training specification, its contract and a builder *)

Module Fixtures.

Definition input_path_dep : DependencySpec :=
  {| dep_logical_name := "input_path";
     dependency_type := PROCESSING_OUTPUT;
     required := true;
     compatible_sources := ["TabularPreprocessing"];
     semantic_keywords := ["data"; "input"; "training"];
     dep_data_type := "S3Uri";
     dep_description := "Training data" |}.

Definition checkpoint_dep : DependencySpec :=
  {| dep_logical_name := "checkpoint";
     dependency_type := MODEL_ARTIFACTS;
     required := false;
     compatible_sources := [];
     semantic_keywords := ["checkpoint"];
     dep_data_type := "S3Uri";
     dep_description := "Warm-start checkpoint" |}.

Definition hyperparameters_dep : DependencySpec :=
  {| dep_logical_name := "hyperparameters_s3_uri";
     dependency_type := HYPERPARAMETERS;
     required := true;
     compatible_sources := [];
     semantic_keywords := ["hyperparameters"];
     dep_data_type := "S3Uri";
     dep_description := "Hyperparameters file" |}.

Definition model_output : OutputSpec :=
  {| out_logical_name := "model_output";
     output_type := MODEL_ARTIFACTS;
     property_path := "properties.ModelArtifacts.S3ModelArtifacts";
     out_data_type := "S3Uri";
     out_description := "Model artifacts" |}.

Definition training_spec (deps : list DependencySpec) : StepSpecification :=
  StepSpecification_init "PyTorchTraining" INTERNAL deps [model_output].

Definition training_contract : ScriptContract :=
  {| expected_input_paths := {[ "input_path" := "/opt/ml/input/data" ]};
     expected_output_paths := {[ "model_output" := "/opt/ml/model" ]} |}.

Definition empty_contract : ScriptContract :=
  {| expected_input_paths := ∅; expected_output_paths := ∅ |}.

Definition training_config : Config :=
  {| attrs :=
       list_to_map
         [ ("training_instance_type", PStr "ml.g5.xlarge");
           ("training_instance_count", PInt 1);
           ("training_volume_size", PInt 30);
           ("training_entry_point", PStr "train.py");
           ("source_dir", PStr "dockers/pytorch");
           ("framework_version", PStr "1.12.0");
           ("py_version", PStr "py38");
           ("pipeline_s3_loc", PStr "s3://bucket/pipeline") ];
     hyperparameters := None;
     env := None |}.

Definition builder (deps : list DependencySpec) (ct : ScriptContract)
    : Builder :=
  {| config := training_config;
     spec := Some (training_spec deps);
     contract := Some ct;
     role := PStr "arn:aws:iam::123456789012:role/train";
     session := PObj "Session" "<Session>" |}.

Definition world (deps : list DependencySpec) (ct : ScriptContract) : World :=
  {| w_self := builder deps ct; w_log := [] |}.

(** Collaborators whose extraction of inputs from dependencies fails. *)
Definition failing_base : Collaborators :=
  {| _generate_job_name := λ _, "pytorch-training";
     _get_step_name := λ _, "PyTorchTraining";
     super_get_environment_variables := λ _, Return ∅;
     _get_cache_config := λ _ b, PBool b;
     extract_inputs_from_dependencies :=
       λ _ _, Raise (ValueError "no specification for step");
     PyTorch_init := λ _, None;
     TrainingStep_init := λ _, None;
     str_dict := λ _, "{...}";
     str_list := λ l, "[" +:+ String.concat ", " l +:+ "]" |}.

End Fixtures.

(** The claim that [_get_inputs] names every required dependency that the
    mapping lacks, read literally. *)
Definition names_every_absent_required : Prop :=
  ∀ (w : World) (inputs : gmap string pyval) sp k d,
    spec (w_self w) = Some sp →
    (k, d) ∈ spec_dependencies sp →
    required d = true →
    inputs !! dep_logical_name d = None →
    ∃ msg, (_get_inputs inputs w).1 = Raise (ValueError msg)
           ∧ occurs (dep_logical_name d) msg = true.

(** [r] is [p] with exactly one trailing ['/'] removed, if it has one. *)
Definition without_trailing_slash (p r : string) : Prop :=
  p = r +:+ "/" ∨ (r = p ∧ ∀ q, p ≠ q +:+ "/").

(** [n] is the first of [names] that is a key of [outputs], and [v] the
    destination filed under it. *)
Definition first_present (outputs : gmap string pyval) (names : list string)
    (n : string) (v : pyval) : Prop :=
  ∃ pre post, names = pre ++ n :: post
              ∧ (∀ m, m ∈ pre → outputs !! m = None)
              ∧ outputs !! n = Some v.

Definition output_logical_names (sp : StepSpecification) : list string :=
  map (λ kv, out_logical_name kv.2) (spec_outputs sp).

(** The claim that [_get_outputs] returns the destination of the first
    specification output present in the mapping, read literally. *)
Definition returns_first_present_destination (base : Collaborators) : Prop :=
  ∀ (w : World) (outputs : gmap string pyval) sp ct n v,
    spec (w_self w) = Some sp →
    contract (w_self w) = Some ct →
    first_present outputs (output_logical_names sp) n v →
    ∃ p r, v = PStr p
           ∧ (_get_outputs base outputs w).1 = Return r
           ∧ without_trailing_slash p r.

(** A computation whose result depends on the builder only, not on the log,
    which leaves the builder as it found it and only adds to the log. *)
Definition self_only {A} (m : M A) : Prop :=
  ∀ w, w_self (m w).2 = w_self w
       ∧ (∃ l, w_log (m w).2 = w_log w ++ l)
       ∧ ∀ w', w_self w' = w_self w → (m w').1 = (m w).1.

(** The builder's collaborators, with an extraction of inputs that finds
    nothing. *)
Definition with_empty_extraction (base : Collaborators) : Collaborators :=
  {| _generate_job_name := _generate_job_name base;
     _get_step_name := _get_step_name base;
     super_get_environment_variables := super_get_environment_variables base;
     _get_cache_config := _get_cache_config base;
     extract_inputs_from_dependencies := λ _ _, Return ∅;
     PyTorch_init := PyTorch_init base;
     TrainingStep_init := TrainingStep_init base;
     str_dict := str_dict base;
     str_list := str_list base |}.

Definition with_output_path (o : option pyval) (kwargs : Kwargs) : Kwargs :=
  {| kw_inputs := kw_inputs kwargs;
     kw_input_path := kw_input_path kwargs;
     kw_output_path := o;
     kw_dependencies := kw_dependencies kwargs;
     kw_enable_caching := kw_enable_caching kwargs |}.

(** The mapping [create_step] hands to [_get_inputs], when the extraction of
    inputs from the dependencies yields [extracted]. *)
Definition step_inputs (kwargs : Kwargs) (extracted : gmap string pyval)
    : gmap string pyval :=
  let inputs := default ∅ (kw_inputs kwargs) ∪ extracted in
  let input_path := default PNone (kw_input_path kwargs) in
  match input_path with
  | PNone => inputs
  | _ => <[ "input_path" := input_path ]> inputs
  end.

(** What the extraction contributes: its result, or nothing when there are no
    dependencies or when it fails. *)
Definition extracted_or_nothing (base : Collaborators) (self : Builder)
    (kwargs : Kwargs) : gmap string pyval :=
  match default [] (kw_dependencies kwargs) with
  | [] => ∅
  | dependencies =>
      match extract_inputs_from_dependencies base self dependencies with
      | Return extracted => extracted
      | Raise _ => ∅
      end
  end.

(** The arguments [create_step] gives to the [TrainingStep] constructor. *)
Definition step_arguments (base : Collaborators) (self : Builder)
    (kwargs : Kwargs) (estimator : PyTorch)
    (training_inputs : gmap string TrainingInput) : TrainingStep :=
  {| ts_name := _get_step_name base self;
     ts_estimator := estimator;
     ts_inputs := training_inputs;
     ts_depends_on := default [] (kw_dependencies kwargs);
     ts_cache_config :=
       _get_cache_config base self (default true (kw_enable_caching kwargs));
     _spec := None |}.

(** The claim that no failure of [create_step] is swallowed, read literally
    for the extraction of inputs: when it fails, the call fails. *)
Definition extraction_failure_surfaces : Prop :=
  ∀ (base : Collaborators) (kwargs : Kwargs) (w : World) dependencies e,
    kw_dependencies kwargs = Some dependencies →
    dependencies ≠ [] →
    extract_inputs_from_dependencies base (w_self w) dependencies = Raise e →
    ∃ e', (create_step base kwargs w).1 = Raise e'.

(** The result of [create_step], stage by stage, each stage run on the
    builder as it is on entry. *)
Definition create_step_outcome (base : Collaborators) (kwargs : Kwargs)
    (w : World) : result TrainingStep :=
  let self := w_self w in
  let inputs := step_inputs kwargs (extracted_or_nothing base self kwargs) in
  match (_get_inputs inputs w).1 with
  | Raise e => Raise e
  | Return training_inputs =>
      if decide (size training_inputs = 0) then
        Raise (ValueError "No training inputs available. Provide input_path or ensure dependencies supply necessary outputs.")
      else
        match (_get_outputs base ∅ w).1 with
        | Raise e => Raise e
        | Return _ =>
            match (_create_estimator base w).1 with
            | Raise e => Raise e
            | Return estimator =>
                let args :=
                  step_arguments base self kwargs estimator training_inputs in
                match TrainingStep_init base args with
                | Some e =>
                    Raise (ValueError
                      ("Failed to create PyTorchTrainingStep: "
                       +:+ exn_str e))
                | None => Return (setattr_spec args (spec self))
                end
            end
        end
  end.

Module StepFixtures.

(** A call with one dependency and a direct [input_path]. *)
Definition kwargs : Kwargs :=
  {| kw_inputs := None;
     kw_input_path := Some (PStr "s3://bucket/data");
     kw_output_path := Some (PStr "s3://bucket/elsewhere");
     kw_dependencies := Some ["preprocess"];
     kw_enable_caching := None |}.

(** A call with one dependency and nothing else. *)
Definition bare_kwargs : Kwargs :=
  {| kw_inputs := None;
     kw_input_path := None;
     kw_output_path := None;
     kw_dependencies := Some ["preprocess"];
     kw_enable_caching := None |}.

Definition w : World :=
  Fixtures.world [Fixtures.input_path_dep] Fixtures.training_contract.

Definition estimator : PyTorch :=
  {| entry_point := PStr "train.py";
     est_source_dir := PStr "dockers/pytorch";
     est_framework_version := PStr "1.12.0";
     est_py_version := PStr "py38";
     est_role := PStr "arn:aws:iam::123456789012:role/train";
     instance_type := PStr "ml.g5.xlarge";
     instance_count := PInt 1;
     volume_size := PInt 30;
     base_job_name := "pytorch-training";
     est_hyperparameters := ∅;
     sagemaker_session := PObj "Session" "<Session>";
     output_path := PNone;
     environment := ∅ |}.

Definition step : TrainingStep :=
  {| ts_name := "PyTorchTraining";
     ts_estimator := estimator;
     ts_inputs := {[ "data" := {| s3_data := PStr "s3://bucket/data" |} ]};
     ts_depends_on := ["preprocess"];
     ts_cache_config := PBool true;
     _spec := Some (Fixtures.training_spec [Fixtures.input_path_dep]) |}.

End StepFixtures.

(** A builder whose configuration has hyperparameters and an environment. *)
Module HyperFixtures.

(** The instance attributes of a hyperparameters object without
    [to_dict]. *)
Definition attributes : gmap string pyval :=
  {[ "lr" := PStr "0.001"; "_secret" := PStr "token" ]}.

Definition world_with (h : HyperParams) : World :=
  {| w_self :=
       {| config :=
            {| attrs := attrs Fixtures.training_config;
               hyperparameters := Some h;
               env := Some (EnvDict {[ "MODE" := "train" ]}) |};
          spec := Some (Fixtures.training_spec [Fixtures.input_path_dep]);
          contract := Some Fixtures.training_contract;
          role := PStr "arn:aws:iam::123456789012:role/train";
          session := PObj "Session" "<Session>" |};
     w_log := [] |}.

Definition w : World := world_with (HyperVars attributes).

(** The hyperparameters are a plain dictionary. *)
Definition plain_dict : World := world_with HyperNoDict.

Definition estimator : PyTorch :=
  {| entry_point := PStr "train.py";
     est_source_dir := PStr "dockers/pytorch";
     est_framework_version := PStr "1.12.0";
     est_py_version := PStr "py38";
     est_role := PStr "arn:aws:iam::123456789012:role/train";
     instance_type := PStr "ml.g5.xlarge";
     instance_count := PInt 1;
     volume_size := PInt 30;
     base_job_name := "pytorch-training";
     est_hyperparameters := {[ "lr" := PStr "0.001" ]};
     sagemaker_session := PObj "Session" "<Session>";
     output_path := PNone;
     environment := {[ "MODE" := "train" ]} |}.

End HyperFixtures.

(** ** [BATCH_TRANSFORM_CALIBRATION_SPEC] *)

(** [get_spec_step_type] comes from [steps/registry/step_names.py], which is
    not part of the files at hand; the specification is given for any such
    function. *)
Definition BATCH_TRANSFORM_CALIBRATION_SPEC
    (get_spec_step_type : string → string) : StepSpecification :=
  StepSpecification_init
    (get_spec_step_type "BatchTransform-Calibration")
    INTERNAL
    [ {| dep_logical_name := "model_name";
         dependency_type := CUSTOM_PROPERTY;
         required := true;
         compatible_sources := ["PytorchModel"; "XgboostModel"];
         semantic_keywords := ["model"; "name"; "model_name"; "ModelName"];
         dep_data_type := "String";
         dep_description := "SageMaker model name from a model step" |};
      {| dep_logical_name := "processed_data";
         dependency_type := PROCESSING_OUTPUT;
         required := true;
         compatible_sources := ["TabularPreprocessing-Calibration"];
         semantic_keywords :=
           ["calibration"; "data"; "features"; "preprocessed"; "tabular";
            "input_data"; "model_input_data"];
         dep_data_type := "S3Uri";
         dep_description :=
           "Processed calibration data for batch transform from preprocessing step" |} ]
    [ {| out_logical_name := "transform_output";
         output_type := CUSTOM_PROPERTY;
         property_path := "properties.TransformOutput.S3OutputPath";
         out_data_type := "S3Uri";
         out_description := "S3 location of the batch transform output" |} ].

(** ** The specification registry *)

Inductive RegistryError : Type :=
  | DuplicateSpecificationError (step_type : string)
  | UnknownStepTypeError (step_type : string).

(** Modelled from the spec: the specification registry (section 4.2 of the
    design document; its module is absent): a lookup table from step type to
    specification, with [register] refusing a step type that is taken and
    [get] refusing one that is unknown. *)
Definition register (st : string) (specification : StepSpecification)
    (reg : gmap string StepSpecification)
    : RegistryError + gmap string StepSpecification :=
  match reg !! st with
  | Some _ => inl (DuplicateSpecificationError st)
  | None => inr (<[ st := specification ]> reg)
  end.

Definition get (st : string) (reg : gmap string StepSpecification)
    : RegistryError + StepSpecification :=
  match reg !! st with
  | Some specification => inr specification
  | None => inl (UnknownStepTypeError st)
  end.

(** The registries that can arise: specifications are made by the
    constructor and entered by [register]. *)
Inductive registry : gmap string StepSpecification → Prop :=
  | registry_empty : registry ∅
  | registry_register reg reg' st st' nt deps outs :
      registry reg →
      register st (StepSpecification_init st' nt deps outs) reg = inr reg' →
      registry reg'.

(** The invariants of the data model: within a specification the logical
    names of the dependencies are pairwise distinct, and so are those of the
    outputs.  (That every dependency has a required flag, a set of
    compatible sources, a list of semantic keywords and a data type is the
    record type [DependencySpec].) *)
Definition distinct_logical_names (s : StepSpecification) : Prop :=
  NoDup (map dep_logical_name (od_values (spec_dependencies s)))
  ∧ NoDup (map out_logical_name (od_values (spec_outputs s))).

(** A dictionary keyed by the name of its values, without repeated keys. *)
Definition keyed_by {V} (name : V → string) (d : odict V) : Prop :=
  NoDup (od_keys d) ∧ ∀ k v, (k, v) ∈ d → name v = k.

(** ** The pipeline DAG *)

Inductive GraphError : Type :=
  | UnknownNode (id : string)
  | CycleDetected.

(** Modelled from the spec: the pipeline DAG (section 4.1 of the design
    document; its module is absent).  The step identifiers are kept in the
    order of insertion, each with the reference to its specification; an edge
    is a pair (producer, consumer). *)
Record PipelineDAG : Type := {
  nodes : list string;
  node_spec : gmap string string;
  edges : list (string * string)
}.

Definition empty_dag : PipelineDAG :=
  {| nodes := []; node_spec := ∅; edges := [] |}.

(** Modelled from the spec: [add_node(id, spec_ref)].  The identifiers form a
    set: adding one that is there keeps its place. *)
Definition add_node (id spec_ref : string) (g : PipelineDAG) : PipelineDAG :=
  {| nodes := if decide (id ∈ nodes g) then nodes g else nodes g ++ [id];
     node_spec := <[ id := spec_ref ]> (node_spec g);
     edges := edges g |}.

Definition without (v : string) (l : list string) : list string :=
  filter (λ x, x ≠ v) l.

(** Modelled from the spec: the reachability check of [add_edge].  A search
    from [u] for [t] along the edges, through nodes of [avail] only, each of
    which is taken off [avail] when the search goes through it. *)
Fixpoint reaches (fuel : nat) (E : list (string * string))
    (avail : list string) (u t : string) : bool :=
  match fuel with
  | 0 => false
  | S fuel' =>
      existsb
        (λ e, bool_decide (e.1 = u)
              && (bool_decide (e.2 = t)
                  || (bool_decide (e.2 ∈ avail)
                      && reaches fuel' E (without e.2 avail) e.2 t)))
        E
  end.

(** Modelled from the spec: [add_edge(producer_id, consumer_id)] fails with
    [GraphError] if an endpoint is unknown or if the edge would close a
    cycle, that is, if the producer is the consumer or can be reached from
    it.  The result is the outcome and the DAG after the call. *)
Definition add_edge (producer_id consumer_id : string) (g : PipelineDAG)
    : option GraphError * PipelineDAG :=
  if decide (producer_id ∉ nodes g) then (Some (UnknownNode producer_id), g)
  else if decide (consumer_id ∉ nodes g) then
    (Some (UnknownNode consumer_id), g)
  else if bool_decide (producer_id = consumer_id)
          || reaches (S (length (nodes g))) (edges g) (nodes g)
               consumer_id producer_id then
    (Some CycleDetected, g)
  else
    (None,
     {| nodes := nodes g;
        node_spec := node_spec g;
        edges := edges g ++ [(producer_id, consumer_id)] |}).

(** [v] has no remaining dependency: no edge into [v] comes from a node that
    is still in [remaining]. *)
Definition ready (E : list (string * string)) (remaining : list string)
    (v : string) : bool :=
  forallb (λ e, negb (bool_decide (e.2 = v) && bool_decide (e.1 ∈ remaining)))
    E.

(** Modelled from the spec: [topological_order].  Each round emits the
    earliest inserted node among those with no remaining dependency; when
    nodes remain and none is free, the graph has a cycle. *)
Fixpoint topo_loop (fuel : nat) (E : list (string * string))
    (remaining : list string) : GraphError + list string :=
  match remaining, fuel with
  | [], _ => inr []
  | _, 0 => inl CycleDetected
  | _, S fuel' =>
      match List.find (ready E remaining) remaining with
      | None => inl CycleDetected
      | Some v =>
          match topo_loop fuel' E (without v remaining) with
          | inr order => inr (v :: order)
          | inl err => inl err
          end
      end
  end.

Definition topological_order (g : PipelineDAG) : GraphError + list string :=
  topo_loop (length (nodes g)) (edges g) (nodes g).

(** A path of one edge or more. *)
Inductive path (E : list (string * string)) : string → string → Prop :=
  | path_edge u v : (u, v) ∈ E → path E u v
  | path_step u m v : (u, m) ∈ E → path E m v → path E u v.

Definition acyclic (E : list (string * string)) : Prop := ∀ v, ¬ path E v v.
Definition cyclic (E : list (string * string)) : Prop := ∃ v, path E v v.

(** The invariant of the data model on nodes and edges: the identifiers are
    distinct and the endpoints of every edge are nodes. *)
Definition dag_wf (g : PipelineDAG) : Prop :=
  NoDup (nodes g)
  ∧ ∀ u v, (u, v) ∈ edges g → u ∈ nodes g ∧ v ∈ nodes g.

(** [u] comes before [v] in [l]. *)
Definition precedes (l : list string) (u v : string) : Prop :=
  ∃ i j, l !! i = Some u ∧ l !! j = Some v ∧ i < j.

(** Ties are broken by insertion order: where [order] emits [v], every node
    inserted before [v] and not emitted yet still waits for a producer that
    is not emitted yet. *)
Definition insertion_order_ties (inserted : list string)
    (E : list (string * string)) (order : list string) : Prop :=
  ∀ emitted v later before u after,
    order = emitted ++ v :: later →
    inserted = before ++ u :: after →
    v ∈ after →
    u ∉ emitted →
    ∃ p, (p, u) ∈ E ∧ p ∈ inserted ∧ p ∉ emitted.

(** A path whose inner nodes are all in [A]. *)
Inductive path_through (E : list (string * string)) (A : list string)
    : string → string → Prop :=
  | through_edge u v : (u, v) ∈ E → path_through E A u v
  | through_step u m v :
      (u, m) ∈ E → m ∈ A → path_through E A m v → path_through E A u v.

(** The DAG of the third end-to-end scenario: nodes [A], [B], [C] and the
    edges [A → B → C], built by the operations. *)
Definition scenario_dag : PipelineDAG :=
  let g := add_node "C" "StepC" (add_node "B" "StepB"
             (add_node "A" "StepA" empty_dag)) in
  let g := (add_edge "A" "B" g).2 in
  (add_edge "B" "C" g).2.

(** ** The dependency resolver *)

(** [s.lower()] on ASCII letters. *)
Definition lower_ascii (c : ascii) : ascii :=
  let n := nat_of_ascii c in
  if (65 <=? n)%nat && (n <=? 90)%nat then ascii_of_nat (n + 32) else c.

Fixpoint lower (s : string) : string :=
  match s with
  | EmptyString => EmptyString
  | String c s' => String (lower_ascii c) (lower s')
  end.

(** A candidate for a dependency: an output of a producer step, with the
    position of the producer in the topological order. *)
Record Candidate : Type := {
  cand_producer : string;
  cand_rank : nat;
  cand_step_type : string;
  cand_output : OutputSpec
}.

Inductive ResolveError : Type :=
  | ResolveGraphError (e : GraphError)
  | ResolveRegistryError (e : RegistryError)
  | UnresolvedDependencyError (unresolved : list (string * string * string)).

(** The weights of the three signals and the confidence floor are tuning
    constants of the resolver. *)
Record Weights : Type := {
  type_weight : Q;
  source_weight : Q;
  keyword_weight : Q;
  confidence_floor : Q
}.

Section Resolver.

Variable weights : Weights.

(** The keyword appears, case-insensitively, in the logical name or the
    description of the output. *)
Definition keyword_appears (kw : string) (o : OutputSpec) : bool :=
  occurs (lower kw) (lower (out_logical_name o))
  || occurs (lower kw) (lower (out_description o)).

Definition keyword_fraction (dep : DependencySpec) (o : OutputSpec) : Q :=
  match semantic_keywords dep with
  | [] => 0%Q
  | kws =>
      (inject_Z
         (Z.of_nat (length (List.filter (λ kw, keyword_appears kw o) kws)))
       / inject_Z (Z.of_nat (length kws)))%Q
  end.

(** Modelled from the spec: the score of a candidate (section 4.3, step 2). *)
Definition score (dep : DependencySpec) (c : Candidate) : Q :=
  ((if decide (out_data_type (cand_output c) = dep_data_type dep)
    then type_weight weights else 0)
   + (if bool_decide (compatible_sources dep = [])
         || bool_decide (cand_step_type c ∈ compatible_sources dep)
      then source_weight weights else 0)
   + keyword_weight weights * keyword_fraction dep (cand_output c))%Q.

(** Modelled from the spec: the order of preference among candidates
    (section 4.3, step 3): the higher score; at equal score the earlier
    producer in topological order; then the output logical name that is
    smaller in lexicographic order. *)
Definition at_least_as_good (dep : DependencySpec) (a b : Candidate) : bool :=
  match (score dep a ?= score dep b)%Q with
  | Gt => true
  | Lt => false
  | Eq =>
      match (cand_rank a ?= cand_rank b)%nat with
      | Lt => true
      | Gt => false
      | Eq =>
          String.leb (out_logical_name (cand_output a))
            (out_logical_name (cand_output b))
      end
  end.

Definition select_best (dep : DependencySpec) (cands : list Candidate)
    : option Candidate :=
  foldl (λ best c,
           match best with
           | None => Some c
           | Some b => if at_least_as_good dep b c then Some b else Some c
           end)
    None cands.

(** Modelled from the spec: the candidates of a dependency of [consumer]
    (section 4.3, step 1): the outputs of every step with a direct or
    transitive edge into the consumer. *)
Definition candidates (g : PipelineDAG) (specs : gmap string StepSpecification)
    (order : list string) (consumer : string) : list Candidate :=
  flat_map
    (λ rp : nat * string,
       let (rank, producer) := rp in
       if reaches (S (length (nodes g))) (edges g) (nodes g) producer consumer
       then match specs !! producer with
            | Some sp =>
                map (λ o, {| cand_producer := producer;
                             cand_rank := rank;
                             cand_step_type := step_type sp;
                             cand_output := o |})
                  (od_values (spec_outputs sp))
            | None => []
            end
       else [])
    (imap (λ i p, (i, p)) order).

(** Modelled from the spec: section 4.3, steps 3 and 4 for one dependency,
    among the candidates given: the best of them, if it reaches the
    confidence floor. *)
Definition resolve_among (dep : DependencySpec) (cands : list Candidate)
    : option Candidate :=
  match select_best dep cands with
  | Some best =>
      if Qle_bool (confidence_floor weights) (score dep best)
      then Some best else None
  | None => None
  end.

Definition resolve_dependency (g : PipelineDAG)
    (specs : gmap string StepSpecification) (order : list string)
    (consumer : string) (dep : DependencySpec) : option Candidate :=
  resolve_among dep (candidates g specs order consumer).

(** What the binding plan records of a candidate: the producer step and the
    logical name of the output. *)
Definition binding (c : Candidate) : string * string :=
  (cand_producer c, out_logical_name (cand_output c)).

(** The binding plan maps (step, dependency logical name) to
    (producer step, output logical name); the second component collects the
    required dependencies that could not be resolved. *)
Definition resolve_one (g : PipelineDAG)
    (specs : gmap string StepSpecification) (order : list string)
    (consumer : string)
    (acc : gmap (string * string) (string * string)
           * list (string * string * string))
    (dep : DependencySpec)
    : gmap (string * string) (string * string)
      * list (string * string * string) :=
  match resolve_dependency g specs order consumer dep with
  | Some best =>
      (<[ (consumer, dep_logical_name dep) := binding best ]> acc.1, acc.2)
  | None =>
      if required dep
      then (acc.1,
            acc.2 ++ [(consumer, dep_logical_name dep,
                       "no candidate above the confidence floor")])
      else acc
  end.

Definition resolve_step (g : PipelineDAG)
    (specs : gmap string StepSpecification) (order : list string)
    (acc : gmap (string * string) (string * string)
           * list (string * string * string))
    (consumer : string)
    : gmap (string * string) (string * string)
      * list (string * string * string) :=
  match specs !! consumer with
  | None => acc
  | Some sp =>
      foldl (resolve_one g specs order consumer) acc
        (od_values (spec_dependencies sp))
  end.

(** The specification of every node, through the registry. *)
Fixpoint node_specifications (g : PipelineDAG)
    (reg : gmap string StepSpecification) (ids : list string)
    : RegistryError + gmap string StepSpecification :=
  match ids with
  | [] => inr ∅
  | id :: ids' =>
      match get (default "" (node_spec g !! id)) reg with
      | inl e => inl e
      | inr sp =>
          match node_specifications g reg ids' with
          | inl e => inl e
          | inr specs => inr (<[ id := sp ]> specs)
          end
      end
  end.

(** Modelled from the spec: [resolve(dag, registry) -> BindingPlan]
    (section 4.3; the resolver module is absent). *)
Definition resolve (g : PipelineDAG) (reg : gmap string StepSpecification)
    : ResolveError + gmap (string * string) (string * string) :=
  match topological_order g with
  | inl e => inl (ResolveGraphError e)
  | inr order =>
      match node_specifications g reg (nodes g) with
      | inl e => inl (ResolveRegistryError e)
      | inr specs =>
          let (plan, unresolved) :=
            foldl (resolve_step g specs order) (∅, []) order in
          match unresolved with
          | [] => inr plan
          | _ => inl (UnresolvedDependencyError unresolved)
          end
      end
  end.

(** [chosen] is preferred to [c], or as good: [c] has a lower score, or the
    same score and a later producer, or the same score and producer rank and
    a logical name that is not smaller. *)
Definition preferred (dep : DependencySpec) (chosen c : Candidate) : Prop :=
  (score dep c < score dep chosen)%Q
  ∨ ((score dep c == score dep chosen)%Q
     ∧ ((cand_rank chosen < cand_rank c)%nat
        ∨ (cand_rank chosen = cand_rank c
           ∧ String.le (out_logical_name (cand_output chosen))
               (out_logical_name (cand_output c))))).

(** Why an entry of the binding plan is there. *)
Definition justified (g : PipelineDAG) (specs : gmap string StepSpecification)
    (order : list string)
    (plan : gmap (string * string) (string * string)) : Prop :=
  ∀ consumer dname producer oname,
    plan !! (consumer, dname) = Some (producer, oname) →
    ∃ sp dep chosen,
      specs !! consumer = Some sp
      ∧ dep ∈ od_values (spec_dependencies sp)
      ∧ dep_logical_name dep = dname
      ∧ chosen ∈ candidates g specs order consumer
      ∧ cand_producer chosen = producer
      ∧ out_logical_name (cand_output chosen) = oname
      ∧ order !! cand_rank chosen = Some producer
      ∧ (confidence_floor weights <= score dep chosen)%Q
      ∧ (∀ c, c ∈ candidates g specs order consumer → preferred dep chosen c)
      ∧ (∀ c, c ∈ candidates g specs order consumer →
              (∀ c', c' ∈ candidates g specs order consumer →
                     preferred dep c c') →
              cand_rank c = cand_rank chosen
              ∧ out_logical_name (cand_output c) = oname).

(** [chosen] wins among [cands]: it is one of them, it reaches the
    confidence floor, and it is preferred to every one of them. *)
Definition wins (dep : DependencySpec) (cands : list Candidate)
    (chosen : Candidate) : Prop :=
  chosen ∈ cands
  ∧ (confidence_floor weights <= score dep chosen)%Q
  ∧ ∀ c, c ∈ cands → preferred dep chosen c.

(** The plan leaves nothing out: for every dependency of every step, a
    candidate that wins is the one the plan binds; and where the plan binds
    nothing, the dependency is optional and no candidate reaches the
    confidence floor. *)
Definition complete (g : PipelineDAG) (specs : gmap string StepSpecification)
    (order : list string)
    (plan : gmap (string * string) (string * string)) : Prop :=
  ∀ consumer sp dep,
    consumer ∈ nodes g →
    specs !! consumer = Some sp →
    dep ∈ od_values (spec_dependencies sp) →
    (∀ chosen,
       wins dep (candidates g specs order consumer) chosen →
       plan !! (consumer, dep_logical_name dep) = Some (binding chosen))
    ∧ (plan !! (consumer, dep_logical_name dep) = None →
       required dep = false
       ∧ ∀ c, c ∈ candidates g specs order consumer →
              (score dep c < confidence_floor weights)%Q).

(** What is bound does not depend on the order in which the candidates are
    met: any rearrangement of them gives the same producer and output. *)
Definition order_independent (g : PipelineDAG)
    (specs : gmap string StepSpecification) (order : list string) : Prop :=
  ∀ consumer dep cands',
    cands' ≡ₚ candidates g specs order consumer →
    binding <$> resolve_among dep cands'
    = binding <$> resolve_dependency g specs order consumer dep.

(** What the plan holds for a dependency once its step has been gone
    through: the candidate resolved, or what was there before, with the
    dependency among the unresolved ones if it is required. *)
Definition settled (g : PipelineDAG) (specs : gmap string StepSpecification)
    (order : list string) (consumer : string) (dep : DependencySpec)
    (before after : gmap (string * string) (string * string)
                    * list (string * string * string)) : Prop :=
  match resolve_dependency g specs order consumer dep with
  | Some best =>
      after.1 !! (consumer, dep_logical_name dep) = Some (binding best)
  | None =>
      after.1 !! (consumer, dep_logical_name dep)
      = before.1 !! (consumer, dep_logical_name dep)
      ∧ (required dep = true → after.2 ≠ [])
  end.

End Resolver.

Module ResolverFixtures.

Definition weights : Weights :=
  {| type_weight := 4 # 10;
     source_weight := 3 # 10;
     keyword_weight := 3 # 10;
     confidence_floor := 5 # 10 |}.

Definition data_output (name : string) : OutputSpec :=
  {| out_logical_name := name;
     output_type := PROCESSING_OUTPUT;
     property_path := "properties.ProcessingOutputConfig.Outputs";
     out_data_type := "S3Uri";
     out_description := "Processed data" |}.

Definition training_data : DependencySpec :=
  {| dep_logical_name := "training_data";
     dependency_type := PROCESSING_OUTPUT;
     required := true;
     compatible_sources := [];
     semantic_keywords := ["data"];
     dep_data_type := "S3Uri";
     dep_description := "Training data" |}.

(** Step types: a source with one output, a source with two outputs of equal
    standing, and a consumer. *)
Definition registry : gmap string StepSpecification :=
  list_to_map
    [ ("Source", StepSpecification_init "Source" SOURCE []
                   [data_output "data"]);
      ("TwoOutputs", StepSpecification_init "TwoOutputs" SOURCE []
                       [data_output "data_b"; data_output "data_a"]);
      ("Training", StepSpecification_init "Training" SINK
                     [training_data] []) ].

(** The first end-to-end scenario: [A → B]. *)
Definition scenario1 : PipelineDAG :=
  let g := add_node "B" "Training" (add_node "A" "Source" empty_dag) in
  (add_edge "A" "B" g).2.

(** Two producers of equal standing, [A2] inserted before [A1]. *)
Definition two_producers : PipelineDAG :=
  let g := add_node "B" "Training"
             (add_node "A1" "Source" (add_node "A2" "Source" empty_dag)) in
  (add_edge "A2" "B" (add_edge "A1" "B" g).2).2.

(** One producer with two outputs of equal standing. *)
Definition two_outputs : PipelineDAG :=
  let g := add_node "B" "Training" (add_node "A" "TwoOutputs" empty_dag) in
  (add_edge "A" "B" g).2.

End ResolverFixtures.

(** ** Further notions used by the statements *)

(** The attribute is there and is neither [None] nor the empty string. *)
Definition attr_given (c : Config) (attr : string) : Prop :=
  ∃ v, attrs c !! attr = Some v ∧ v ≠ PNone ∧ v ≠ PStr "".

(** [k] starts with an underscore. *)
Definition private_name (k : string) : Prop := ∃ rest, k = String "_" rest.

(** The estimator [_create_estimator] hands to the SDK, given the
    hyperparameters and the environment it has put together, when the
    attributes it reads are there. *)
Definition expected_estimator (base : Collaborators) (self : Builder)
    (hyperparameters : gmap string pyval) (environment : gmap string string)
    : option PyTorch :=
  let a := attrs (config self) in
  a_entry_point ← a !! "training_entry_point";
  a_source_dir ← a !! "source_dir";
  a_framework_version ← a !! "framework_version";
  a_py_version ← a !! "py_version";
  a_instance_type ← a !! "training_instance_type";
  a_instance_count ← a !! "training_instance_count";
  a_volume_size ← a !! "training_volume_size";
  Some
    {| entry_point := a_entry_point;
       est_source_dir := a_source_dir;
       est_framework_version := a_framework_version;
       est_py_version := a_py_version;
       est_role := role self;
       instance_type := a_instance_type;
       instance_count := a_instance_count;
       volume_size := a_volume_size;
       base_job_name := _generate_job_name base self;
       est_hyperparameters := hyperparameters;
       sagemaker_session := session self;
       output_path := PNone;
       environment := environment |}.

(** The builder's collaborators, with another extraction of inputs. *)
Definition with_extraction
    (f : Builder → list string → result (gmap string pyval))
    (base : Collaborators) : Collaborators :=
  {| _generate_job_name := _generate_job_name base;
     _get_step_name := _get_step_name base;
     super_get_environment_variables := super_get_environment_variables base;
     _get_cache_config := _get_cache_config base;
     extract_inputs_from_dependencies := f;
     PyTorch_init := PyTorch_init base;
     TrainingStep_init := TrainingStep_init base;
     str_dict := str_dict base;
     str_list := str_list base |}.

(** ** The S3 helpers of the builder *)

(** What [_normalize_s3_uri] and [_validate_s3_uri] may be given: a pipeline
    variable (an object with an [expr] attribute; [expr] is [str(uri.expr)]),
    a dictionary, a string, or an object of another type, of which only the
    name of the type is used. *)
Inductive uri_arg : Type :=
  | UriPipelineVariable (expr : string)
  | UriDict (d : gmap string pyval)
  | UriStr (s : string)
  | UriOther (type_name : string).

(** [S3PathHandler] is imported from [s3_utils], which is not part of the
    files at hand: [normalize] may raise, [is_valid] is a test on strings. *)
Record S3PathHandler : Type := {
  S3_normalize : uri_arg → string → result string;
  S3_is_valid : string → bool
}.

(** [hasattr(uri, 'expr')] *)
Definition has_expr (uri : uri_arg) : bool :=
  match uri with UriPipelineVariable _ => true | _ => false end.

(** [isinstance(uri, dict) and 'Get' in uri] *)
Definition is_get_reference (uri : uri_arg) : bool :=
  match uri with
  | UriDict d => bool_decide (is_Some (d !! "Get"))
  | _ => false
  end.

(** [type(uri).__name__] *)
Definition type_name_of (uri : uri_arg) : string :=
  match uri with
  | UriPipelineVariable _ => "PipelineVariable"
  | UriDict _ => "dict"
  | UriStr _ => "str"
  | UriOther t => t
  end.

Section S3.

Variable handler : S3PathHandler.

(** *** [_normalize_s3_uri] ([description] defaults to ["S3 URI"]) *)
Definition _normalize_s3_uri (uri : uri_arg) (description : string)
    : M uri_arg :=
  let uri :=
    match uri with
    | UriPipelineVariable expr => UriStr expr
    | _ => uri
    end in
  if is_get_reference uri then
    log_info "Found Pipeline step reference during normalization: %s";;
    mret uri
  else
    normalized ← lift (S3_normalize handler uri description);
    mret (UriStr normalized).

(** *** [_validate_s3_uri] ([description] defaults to ["data"]) *)
Definition _validate_s3_uri (uri : uri_arg) (description : string) : M bool :=
  if has_expr uri then mret true
  else if is_get_reference uri then
    log_info "Found Pipeline step reference: %s";;
    mret true
  else
    match uri with
    | UriStr s =>
        let valid := S3_is_valid handler s in
        (if negb valid
         then log_warning (pct "Invalid %s URI format: %s" [description; s])
         else mret ());;
        mret valid
    | _ =>
        log_warning (pct "Invalid %s URI: type %s"
                       [description; type_name_of uri]);;
        mret false
    end.

End S3.

(** ** The package module [sm_dag_compiler/__init__.py] *)

Module Package.

(** What a global name of the module is bound to: something imported from
    another module, a stand-in that raises [ImportError] with a message when
    it is called or instantiated, a function the module defines, a module
    ([import warnings]), or a list or dictionary the module assigns. *)
Inductive binding : Type :=
  | Imported (origin name : string)
  | ImportErrorStub (message : string)
  | Function (name : string)
  | ModuleObject (name : string)
  | Data (type_name : string).

(** An exception that comes out of an [import] statement or of
    [warnings.warn]: an [ImportError] (or an instance of a subclass of it,
    such as [ModuleNotFoundError]) with its text, or an exception of another
    type, which [except ImportError] does not catch. *)
Inductive failure : Type :=
  | ImportError (message : string)
  | OtherError (type_name message : string).

(** A module the package imports from: executing it raises an exception, or
    it is there with the names it exports (and the text of the
    [ImportError] for a name it does not have). *)
Inductive module_state : Type :=
  | Unavailable (e : failure)
  | Available (exports : list string) (missing : string → string).

(** [from origin import n1 as a1, n2 as a2, ...]: the names are bound one
    after the other; the first that is missing raises [ImportError], with
    the earlier ones bound already. *)
Fixpoint bind_names (exports : list string) (missing : string → string)
    (origin : string) (names : list (string * string))
    (ns : gmap string binding) : option failure * gmap string binding :=
  match names with
  | [] => (None, ns)
  | (n, as_name) :: rest =>
      if decide (n ∈ exports)
      then bind_names exports missing origin rest
             (<[ as_name := Imported origin n ]> ns)
      else (Some (ImportError (missing n)), ns)
  end.

Definition import_from (m : module_state) (origin : string)
    (names : list (string * string)) (ns : gmap string binding)
    : option failure * gmap string binding :=
  match m with
  | Unavailable e => (Some e, ns)
  | Available exports missing => bind_names exports missing origin names ns
  end.

(** The statements of a [try] block, up to the first exception. *)
Fixpoint import_all (m : module_state) (origin : string)
    (statements : list (list (string * string)))
    (ns : gmap string binding) : option failure * gmap string binding :=
  match statements with
  | [] => (None, ns)
  | names :: rest =>
      match import_from m origin names ns with
      | (Some e, ns') => (Some e, ns')
      | (None, ns') => import_all m origin rest ns'
      end
  end.

Definition core_missing : string :=
  "Core AutoPipe dependencies not available. Please install with: pip install autopipe[all]".
Definition dag_missing : string :=
  "DAG functionality not available. Please install with: pip install autopipe[all]".
Definition enhanced_dag_missing : string :=
  "Enhanced DAG functionality not available. Please install with: pip install autopipe[all]".

Definition same (n : string) : string * string := (n, n).

(** The module after its body has run: the globals its statements have
    bound and the warnings issued; or the exception that ends the import of
    the package: one of [.__version__], or one of [.core.compiler] or
    [.api.dag] that is not an [ImportError], or the [UserWarning] that
    [warnings.warn] raises when the warning filters turn warnings into
    errors ([warnings_as_errors]).  The attributes that the import system
    itself sets on the package for its sub-packages are not recorded. *)
Definition init (warnings_as_errors : bool)
    (version core dag : module_state)
    : failure + gmap string binding * list string :=
  match import_from version ".__version__"
          [ same "__version__"; same "__title__"; same "__description__";
            same "__author__" ] ∅ with
  | (Some e, _) => inl e
  | (None, ns) =>
      let core_block : failure + gmap string binding * list string :=
        match import_all core ".core.compiler"
                [ [ same "compile_dag_to_pipeline";
                    same "PipelineDAGCompiler" ];
                  [ ("compile_dag_to_pipeline", "compile_dag") ];
                  [ same "DynamicPipelineTemplate" ] ] ns with
        | (None, ns) => inr (ns, [])
        | (Some (ImportError e), ns) =>
            let ns := <[ "warnings" := ModuleObject "warnings" ]> ns in
            let text := "Some AutoPipe features may not be available: " +:+ e in
            if warnings_as_errors then inl (OtherError "UserWarning" text)
            else
              inr (<[ "PipelineDAGCompiler" :=
                        ImportErrorStub core_missing ]>
                     (<[ "compile_dag_to_pipeline" :=
                           ImportErrorStub core_missing ]>
                        (<[ "compile_dag" := ImportErrorStub core_missing ]>
                           ns)),
                   [ text ])
        | (Some e, _) => inl e
        end in
      match core_block with
      | inl e => inl e
      | inr (ns, warnings) =>
          let dag_block : failure + gmap string binding :=
            match import_all dag ".api.dag"
                    [ [ same "PipelineDAG"; same "EnhancedPipelineDAG" ] ]
                    ns with
            | (None, ns) => inr ns
            | (Some (ImportError _), ns) =>
                inr (<[ "EnhancedPipelineDAG" :=
                          ImportErrorStub enhanced_dag_missing ]>
                       (<[ "PipelineDAG" := ImportErrorStub dag_missing ]>
                          ns))
            | (Some e, _) => inl e
            end in
          match dag_block with
          | inl e => inl e
          | inr ns =>
              inr (<[ "__package_info__" := Data "dict" ]>
                     (<[ "__all__" := Data "list" ]>
                        (<[ "create_pipeline_from_dag" :=
                              Function "create_pipeline_from_dag" ]> ns)),
                   warnings)
          end
      end
  end.

(** [__all__] *)
Definition all : list string :=
  [ "__version__"; "__title__"; "__description__"; "__author__";
    "compile_dag"; "compile_dag_to_pipeline"; "create_pipeline_from_dag";
    "PipelineDAGCompiler"; "PipelineDAG"; "EnhancedPipelineDAG";
    "DynamicPipelineTemplate" ].

(** The outcome of calling a global with positional and keyword arguments:
    the name is not defined ([NameError]), [ImportError] with a message,
    [TypeError], or a call that goes to the object imported, with the
    arguments it is given. *)
Inductive call_outcome : Type :=
  | Undefined (name : string)
  | RaisesImportError (message : string)
  | RaisesTypeError
  | Calls (origin name : string) (args : list pyval)
      (kwargs : gmap string pyval).

(** Calling what a name is bound to.  The stand-ins take [*args, **kwargs]
    and raise; a module, a list and a dictionary are not callable. *)
Definition call_binding (b : binding) (args : list pyval)
    (kwargs : gmap string pyval) : call_outcome :=
  match b with
  | Imported origin n => Calls origin n args kwargs
  | ImportErrorStub message => RaisesImportError message
  | Function f => Calls "" f args kwargs
  | ModuleObject _ | Data _ => RaisesTypeError
  end.

Definition call_global (ns : gmap string binding) (n : string)
    (args : list pyval) (kwargs : gmap string pyval) : call_outcome :=
  match ns !! n with
  | None => Undefined n
  | Some b => call_binding b args kwargs
  end.

(** The arguments of a call, bound to the parameters
    [(dag, pipeline_name=None, **kwargs)]: the values of [dag] and
    [pipeline_name] and the remaining keyword arguments; [None] when the
    call is a [TypeError] ([dag] missing, a parameter given twice, more than
    two positional arguments). *)
Definition bind_arguments (args : list pyval) (kwargs : gmap string pyval)
    : option (pyval * pyval * gmap string pyval) :=
  match args with
  | [] =>
      match kwargs !! "dag" with
      | Some dag =>
          Some (dag, default PNone (kwargs !! "pipeline_name"),
                delete "pipeline_name" (delete "dag" kwargs))
      | None => None
      end
  | [dag] =>
      match kwargs !! "dag" with
      | Some _ => None
      | None =>
          Some (dag, default PNone (kwargs !! "pipeline_name"),
                delete "pipeline_name" kwargs)
      end
  | [dag; pipeline_name] =>
      match kwargs !! "dag", kwargs !! "pipeline_name" with
      | None, None => Some (dag, pipeline_name, kwargs)
      | _, _ => None
      end
  | _ => None
  end.

(** [create_pipeline_from_dag]: the global [compile_dag_to_pipeline] is
    looked up when the function is called. *)
Definition create_pipeline_from_dag (ns : gmap string binding)
    (args : list pyval) (kwargs : gmap string pyval) : call_outcome :=
  match bind_arguments args kwargs with
  | None => RaisesTypeError
  | Some (dag, pipeline_name, kwargs) =>
      call_global ns "compile_dag_to_pipeline" [dag]
        (<[ "pipeline_name" := pipeline_name ]> kwargs)
  end.

(** Calling the global [name]; [create_pipeline_from_dag] is the one
    function the module defines. *)
Definition call (ns : gmap string binding) (name : string)
    (args : list pyval) (kwargs : gmap string pyval) : call_outcome :=
  match ns !! name with
  | Some (Function _) => create_pipeline_from_dag ns args kwargs
  | _ => call_global ns name args kwargs
  end.

(** The module exports every one of [names]. *)
Definition exports_all (m : module_state) (names : list string) : Prop :=
  match m with
  | Unavailable _ => False
  | Available exports _ => ∀ n, n ∈ names → n ∈ exports
  end.

(** Executing the module raises an exception that is not an
    [ImportError]. *)
Definition raises_other (m : module_state) : Prop :=
  ∃ type_name message, m = Unavailable (OtherError type_name message).

End Package.

(** The names the package takes from [.core.compiler] and from [.api.dag]. *)
Definition core_api : list string :=
  [ "compile_dag_to_pipeline"; "PipelineDAGCompiler";
    "DynamicPipelineTemplate" ].
Definition dag_api : list string := [ "PipelineDAG"; "EnhancedPipelineDAG" ].

Module PackageFixtures.

Definition version : Package.module_state :=
  Package.Available
    [ "__version__"; "__title__"; "__description__"; "__author__" ]
    (λ n, "cannot import name " +:+ n).

(** A core module that lacks [DynamicPipelineTemplate] only. *)
Definition core : Package.module_state :=
  Package.Available [ "compile_dag_to_pipeline"; "PipelineDAGCompiler" ]
    (λ n, "cannot import name " +:+ n).

Definition dag : Package.module_state :=
  Package.Available [ "PipelineDAG"; "EnhancedPipelineDAG" ]
    (λ n, "cannot import name " +:+ n).

End PackageFixtures.

(** * Properties *)

(** ** Running the monad *)

Lemma bind_run {A B} (m : M A) (k : A → M B) (w : World) :
  (m ≫= k) w =
  match m w with
  | (Return a, w') => k a w'
  | (Raise e, w') => (Raise e, w')
  end.
Proof. reflexivity. Qed.

Lemma preserves_ret {A} (a : A) : preserves_self (mret a : M A).
Proof. by intros w. Qed.

Lemma preserves_raise {A} (e : exn) : preserves_self (raise e : M A).
Proof. by intros w. Qed.

Lemma preserves_log l msg : preserves_self (log l msg).
Proof. by intros w. Qed.

Lemma preserves_get_self : preserves_self get_self.
Proof. by intros w. Qed.

Lemma preserves_bind {A B} (m : M A) (k : A → M B) :
  preserves_self m → (∀ a, preserves_self (k a)) → preserves_self (m ≫= k).
Proof.
  intros Hm Hk w. rewrite bind_run. specialize (Hm w).
  destruct (m w) as [[e|a] w']; simpl in *; [done|].
  by rewrite Hk.
Qed.

(** ** [validate_configuration] *)

Lemma validate_loop_run (l : list string) (w : World) :
  validate_loop l w =
  match List.find (attr_missing (config (w_self w))) l with
  | Some attr => (Raise (missing_attr_error attr), w)
  | None => (Return (), w)
  end.
Proof.
  induction l as [|attr rest IH]; [done|].
  cbn [validate_loop List.find]. rewrite bind_run. cbn [get_self].
  destruct (attr_missing (config (w_self w)) attr); [done|]. apply IH.
Qed.

Lemma attr_missing_iff (c : Config) (attr : string) :
  attr_missing c attr = true ↔
  attrs c !! attr = None ∨ attrs c !! attr = Some PNone
  ∨ attrs c !! attr = Some (PStr "").
Proof.
  unfold attr_missing. destruct (attrs c !! attr) as [v|]; [|by split; auto].
  destruct v as [| | |s| |]; simpl;
    try (split; [done | by intros [?|[?|?]]]).
  - split; auto.
  - rewrite bool_decide_eq_true.
    split; [intros ->; auto | intros [?|[?|?]]; by simplify_eq].
Qed.

Lemma find_some_iff {A} (f : A → bool) (l : list A) :
  (∃ x, List.find f l = Some x) ↔ ∃ x, x ∈ l ∧ f x = true.
Proof.
  split.
  - intros [x Hx]. apply find_some in Hx as [Hin Hf].
    exists x. by rewrite list_elem_of_In.
  - intros (x & Hin & Hf). destruct (List.find f l) eqn:E; [eauto|].
    apply list_elem_of_In in Hin.
    pose proof (find_none _ _ E _ Hin). congruence.
Qed.

(** C2. [validate_configuration] raises [ValueError] exactly when one of the
    seven attributes [training_instance_type], [training_instance_count],
    [training_volume_size], [training_entry_point], [source_dir],
    [framework_version], [py_version] is missing from the configuration, is
    [None] or is the empty string; otherwise it returns normally; in both
    cases the builder, and with it the configuration, is left as it was. *)
Theorem validate_configuration_raises_iff (w : World) :
  let c := config (w_self w) in
  let invalid :=
    ∃ attr,
      attr ∈ [ "training_instance_type"; "training_instance_count";
               "training_volume_size"; "training_entry_point"; "source_dir";
               "framework_version"; "py_version" ]
      ∧ (attrs c !! attr = None ∨ attrs c !! attr = Some PNone
         ∨ attrs c !! attr = Some (PStr "")) in
  ((∃ msg, (validate_configuration w).1 = Raise (ValueError msg)) ↔ invalid)
  ∧ ((validate_configuration w).1 = Return () ↔ ¬ invalid)
  ∧ w_self (validate_configuration w).2 = w_self w
  ∧ config (w_self (validate_configuration w).2) = c.
Proof.
  intros c invalid.
  assert (Hinv : invalid ↔
            ∃ attr, List.find (attr_missing c) required_attrs = Some attr).
  { rewrite find_some_iff. unfold invalid, required_attrs.
    by setoid_rewrite attr_missing_iff. }
  unfold validate_configuration.
  rewrite bind_run. cbn [log_info log]. rewrite bind_run, validate_loop_run.
  cbn [w_self]. fold c.
  destruct (List.find (attr_missing c) required_attrs) as [attr|] eqn:E.
  - cbn. split_and!; [| |done|done].
    + split; [intros _; apply Hinv; eauto | intros _; eexists; reflexivity].
    + split; [done | intros Hn; destruct Hn; apply Hinv; eauto].
  - cbn. split_and!; [| |done|done].
    + split; [by intros [? ?] | intros [? ?]%Hinv; done].
    + split; [intros _ [? ?]%Hinv; done | done].
Qed.

(** ** [_get_inputs] *)

Section get_inputs.

Lemma loop_state_matched inputs ti mi n :
  loop_state inputs ti mi → n ∈ mi → is_Some (inputs !! n).
Proof.
  intros [[_ ->]|(v & Hv & _ & ->)] Hn; [set_solver|].
  apply elem_of_singleton in Hn as ->. eauto.
Qed.

Lemma loop_state_update inputs ti mi v :
  loop_state inputs ti mi → inputs !! "input_path" = Some v →
  loop_state inputs (_create_data_channel_from_source v ∪ ti)
    ({[ "input_path" ]} ∪ mi).
Proof.
  intros Hst Hv. right. exists v. split; [done|].
  destruct Hst as [[-> ->]|(v' & Hv' & -> & ->)].
  - split; [apply (right_id_L ∅ (∪)) | set_solver].
  - simplify_eq. split; [apply (idemp_L (∪)) | set_solver].
Qed.

(** One iteration of the loop, case by case. *)
Ltac loop_step :=
  cbn [_get_inputs_loop];
  repeat first
    [ case_decide
    | case_bool_decide
    | match goal with
      | |- context [required ?d] => destruct (required d) eqn:?
      | |- context [expected_input_paths ?c !! ?n] =>
          destruct (expected_input_paths c !! n) eqn:?
      | |- context [match ?i !! ?n with _ => _ end] =>
          destruct (i !! n) eqn:?
      end
    | progress cbn [negb andb] ].

(** A required dependency that is absent from the mapping makes the loop
    raise [ValueError], whatever comes before it. *)
Lemma loop_required_absent ct inputs deps ti mi w :
  loop_state inputs ti mi →
  (∃ k d, (k, d) ∈ deps ∧ required d = true
          ∧ inputs !! dep_logical_name d = None) →
  ∃ msg, (_get_inputs_loop ct inputs deps ti mi w).1 = Raise (ValueError msg).
Proof.
  revert ti mi w. induction deps as [|[k0 d0] rest IH];
    intros ti mi w Hst (k & d & Hin & Hreq & Habs).
  { by apply elem_of_nil in Hin. }
  assert (Hrest : (k, d) = (k0, d0) ∨
            ∃ k d, (k, d) ∈ rest ∧ required d = true
                   ∧ inputs !! dep_logical_name d = None).
  { apply elem_of_cons in Hin as [?|?]; [by left | right; eauto]. }
  loop_step; try done; try (by eexists).
  all: try (rewrite bind_run; cbn [log_info log]).
  all: destruct Hrest as [?|Hrest]; simplify_eq.
  all: try congruence.
  all: try match goal with
           | H : _ ∈ ?m, Hs : loop_state _ _ ?m |- _ =>
               apply (loop_state_matched _ _ _ _ Hs) in H as [? ?]; congruence
           end.
  all: eapply IH; [|done]; try done.
  all: match goal with
       | H : dep_logical_name _ = "input_path" |- _ => rewrite H in *
       end; by apply loop_state_update.
Qed.

(** The first required dependency that is absent is the one the error names,
    as long as the loop gets past everything before it. *)
Lemma loop_first_required_absent ct inputs pre k d post ti mi w :
  loop_state inputs ti mi →
  Forall (λ kd, passes ct inputs kd.2) pre →
  required d = true →
  inputs !! dep_logical_name d = None →
  (_get_inputs_loop ct inputs (pre ++ (k, d) :: post) ti mi w).1
  = Raise (required_error (dep_logical_name d)).
Proof.
  intros Hst Hpre Hreq Habs. revert ti mi w Hst.
  induction Hpre as [|[k0 d0] pre [Hp1 Hp2] _ IH]; intros ti mi w Hst.
  - cbn [app]. loop_step; try done; try congruence.
    match goal with
    | H : _ ∈ ?m, Hs : loop_state _ _ ?m |- _ =>
        apply (loop_state_matched _ _ _ _ Hs) in H as [? ?]; congruence
    end.
  - cbn [app snd] in *. loop_step; try done.
    all: try (specialize (Hp1 ltac:(done)); congruence).
    all: try (destruct Hp2 as [? ?];
              [by (eauto || apply not_eq_None_Some) | congruence]).
    all: try (rewrite bind_run; cbn [log_info log]).
    all: apply IH; try done.
    all: match goal with
         | H : dep_logical_name _ = "input_path" |- _ => rewrite H in *
         end; by apply loop_state_update.
Qed.

(** An optional dependency that is absent does not change the run. *)
Lemma loop_skip_optional ct inputs pre k d post ti mi w :
  required d = false →
  inputs !! dep_logical_name d = None →
  _get_inputs_loop ct inputs (pre ++ (k, d) :: post) ti mi w
  = _get_inputs_loop ct inputs (pre ++ post) ti mi w.
Proof.
  intros Hreq Habs. revert ti mi w.
  induction pre as [|[k0 d0] pre IH]; intros ti mi w.
  - cbn [app]. cbn [_get_inputs_loop]. case_decide; [done|].
    rewrite Hreq, Habs. by rewrite bool_decide_eq_true_2.
  - cbn [app]. loop_step; try done.
    all: rewrite !bind_run; cbn [log_info log]; apply IH.
Qed.

(** The loop raises nothing but [ValueError]. *)
Lemma loop_raises_ValueError ct inputs deps ti mi w e :
  (_get_inputs_loop ct inputs deps ti mi w).1 = Raise e →
  ∃ msg, e = ValueError msg.
Proof.
  revert ti mi w. induction deps as [|[k0 d0] rest IH]; intros ti mi w.
  { done. }
  loop_step; try done; try apply IH.
  all: try (intros [= <-]; by eexists).
  all: rewrite bind_run; cbn [log_info log]; apply IH.
Qed.

(** The loop only ever appends to the log. *)
Lemma loop_preserves_self ct inputs deps ti mi :
  preserves_self (_get_inputs_loop ct inputs deps ti mi).
Proof.
  revert ti mi. induction deps as [|[k0 d0] rest IH]; intros ti mi w.
  { done. }
  loop_step; try done; try apply IH.
  all: rewrite bind_run; cbn [log_info log]; by rewrite IH.
Qed.

Lemma data_channel_nonempty v : data_channel v ≠ ∅.
Proof.
  intros H. apply (f_equal (λ m, m !! "data")) in H.
  unfold data_channel in H. by rewrite lookup_singleton_eq in H.
Qed.

(** One iteration, as an equation. *)
Lemma loop_cons ct inputs k d rest ti mi w :
  let n := dep_logical_name d in
  _get_inputs_loop ct inputs ((k, d) :: rest) ti mi w =
  if decide (n ∈ mi) then _get_inputs_loop ct inputs rest ti mi w
  else match inputs !! n with
       | None =>
           if required d then (Raise (required_error n), w)
           else _get_inputs_loop ct inputs rest ti mi w
       | Some v =>
           match expected_input_paths ct !! n with
           | None =>
               (Raise (ValueError
                  ("No container path found for input: " +:+ n)), w)
           | Some _ =>
               if decide (n = "input_path")
               then _get_inputs_loop ct inputs rest
                      (_create_data_channel_from_source v ∪ ti)
                      ({[ n ]} ∪ mi)
                      (add_log w
                         (INFO, pct "Created data channel from %s: %s"
                                  [n; py_format v]))
               else _get_inputs_loop ct inputs rest ti mi w
           end
       end.
Proof. intros n. subst n. loop_step; done. Qed.

(** What the loop returns: the channel made from [inputs["input_path"]] when
    that was created before or is created now, and nothing else. *)
Lemma loop_returns ct inputs deps ti mi w r :
  loop_state inputs ti mi →
  (_get_inputs_loop ct inputs deps ti mi w).1 = Return r →
  (ti ≠ ∅ → r = ti)
  ∧ (ti = ∅ →
     (r = ∅ ∧ ¬ (has_input_path deps ∧ is_Some (inputs !! "input_path")))
     ∨ (∃ v, inputs !! "input_path" = Some v ∧ r = data_channel v
             ∧ has_input_path deps)).
Proof.
  revert ti mi w. induction deps as [|[k0 d0] rest IH]; intros ti mi w Hst.
  { intros [= <-]. split; [done|]. intros ->. left. split; [done|].
    intros [(k & d & Hin & _) _]. by apply elem_of_nil in Hin. }
  assert (Hcons : has_input_path ((k0, d0) :: rest) →
            has_input_path rest ∨ dep_logical_name d0 = "input_path").
  { intros (k & d & Hin & Hn).
    apply elem_of_cons in Hin as [?|?]; [simplify_eq; auto|].
    left. by exists k, d. }
  assert (Hmono : has_input_path rest → has_input_path ((k0, d0) :: rest)).
  { intros (k & d & Hin & Hn). exists k, d. split; [by right | done]. }
  assert (Hhead : dep_logical_name d0 = "input_path" →
            has_input_path ((k0, d0) :: rest)).
  { intros Hn. exists k0, d0. split; [by left | done]. }
  (* the iterations that leave the locals alone *)
  assert (Hskip :
    (dep_logical_name d0 = "input_path" →
     ti = ∅ → inputs !! "input_path" = None) →
    (_get_inputs_loop ct inputs rest ti mi w).1 = Return r →
    (ti ≠ ∅ → r = ti)
    ∧ (ti = ∅ →
       (r = ∅ ∧ ¬ (has_input_path ((k0, d0) :: rest)
                    ∧ is_Some (inputs !! "input_path")))
       ∨ (∃ v, inputs !! "input_path" = Some v ∧ r = data_channel v
               ∧ has_input_path ((k0, d0) :: rest)))).
  { intros Hnone Hr. destruct (IH _ _ _ Hst Hr) as [IH1 IH2].
    split; [done|]. intros Hti.
    destruct (IH2 Hti) as [[-> Hno]|(v & Hv & -> & Hhas)];
      [left; split; [done|] | right; exists v; by auto].
    intros [[Hhas|Hn]%Hcons [x Hx]]; [apply Hno; by eauto|].
    rewrite (Hnone Hn Hti) in Hx. done. }
  rewrite loop_cons. cbn zeta.
  destruct (decide (dep_logical_name d0 ∈ mi)) as [Hmi|Hmi].
  { apply Hskip. intros _ ->.
    destruct Hst as [[_ ->]|(v' & ? & Hti & _)]; [set_solver|].
    symmetry in Hti. by apply data_channel_nonempty in Hti. }
  destruct (inputs !! dep_logical_name d0) as [v|] eqn:Hv.
  2:{ destruct (required d0); [done|]. apply Hskip. intros Hn _.
      by rewrite <- Hn. }
  destruct (expected_input_paths ct !! dep_logical_name d0); [|done].
  destruct (decide (dep_logical_name d0 = "input_path")) as [Hn|Hn].
  2:{ apply Hskip. by intros ?. }
  rewrite Hn in *. intros Hr.
  pose proof (loop_state_update _ _ _ v Hst Hv) as Hst'.
  destruct (IH _ _ _ Hst' Hr) as [IH1 _].
  assert (_create_data_channel_from_source v ∪ ti = data_channel v) as Hu.
  { destruct Hst as [[-> _]|(v' & ? & -> & _)];
      [apply (right_id_L ∅ (∪)) | simplify_eq; apply (idemp_L (∪))]. }
  rewrite Hu in IH1. specialize (IH1 (data_channel_nonempty _)). subst r.
  split.
  - intros Hne. destruct Hst as [[-> _]|(v' & ? & -> & _)];
      [done | by simplify_eq].
  - intros _. right. exists v. by auto.
Qed.

Lemma _get_inputs_run inputs w :
  _get_inputs inputs w =
  match spec (w_self w) with
  | None => (Raise (ValueError "Step specification is required"), w)
  | Some sp =>
      match contract (w_self w) with
      | None =>
          (Raise (ValueError "Script contract is required for input mapping"),
           w)
      | Some ct => _get_inputs_loop ct inputs (spec_dependencies sp) ∅ ∅ w
      end
  end.
Proof.
  unfold _get_inputs. rewrite bind_run. cbn [get_self].
  destruct (spec (w_self w)); [|done]. by destruct (contract (w_self w)).
Qed.

Lemma loop_state_init inputs : loop_state inputs ∅ ∅.
Proof. by left. Qed.

End get_inputs.


(** C9. When [_get_inputs] returns normally, the result is empty or is the
    single channel [{"data": TrainingInput(s3_data=inputs["input_path"])}];
    it is that channel exactly when the specification has a dependency with
    logical name [input_path] and the mapping has that key, so what is filed
    under any other logical name never reaches the returned dictionary. *)
Theorem _get_inputs_returns_data_channel
    (inputs : gmap string pyval) (w : World) (r : gmap string TrainingInput) :
  (_get_inputs inputs w).1 = Return r →
  (r = ∅
   ∨ ∃ v, inputs !! "input_path" = Some v
          ∧ r = {[ "data" := {| s3_data := v |} ]})
  ∧ (r ≠ ∅ ↔
     (∃ sp, spec (w_self w) = Some sp
            ∧ has_input_path (spec_dependencies sp))
     ∧ is_Some (inputs !! "input_path")).
Proof.
  rewrite _get_inputs_run.
  destruct (spec (w_self w)) as [sp|]; [|done].
  destruct (contract (w_self w)) as [ct|]; [|done].
  intros Hr.
  destruct (loop_returns _ _ _ _ _ _ _ (loop_state_init inputs) Hr)
    as [_ H].
  destruct (H eq_refl) as [[-> Hno]|(v & Hv & -> & Hhas)].
  - split; [by left|]. split; [done|].
    intros [(sp' & [= <-] & Hhas) Hsome]. destruct Hno. by split.
  - split; [right; by exists v|]. split.
    + intros _. split; [by exists sp | by exists v].
    + intros _. apply data_channel_nonempty.
Qed.

Lemma _get_inputs_returns_data_channel_witness :
  let inputs : gmap string pyval :=
    {[ "input_path" := PStr "s3://bucket/data";
       "validation" := PStr "s3://bucket/val" ]} in
  let w := Fixtures.world [Fixtures.input_path_dep; Fixtures.checkpoint_dep]
             Fixtures.training_contract in
  let r : gmap string TrainingInput :=
    {[ "data" := {| s3_data := PStr "s3://bucket/data" |} ]} in
  (r = ∅
   ∨ ∃ v, inputs !! "input_path" = Some v
          ∧ r = {[ "data" := {| s3_data := v |} ]})
  ∧ (r ≠ ∅ ↔
     (∃ sp, spec (w_self w) = Some sp
            ∧ has_input_path (spec_dependencies sp))
     ∧ is_Some (inputs !! "input_path")).
Proof.
  intros inputs w r.
  apply (_get_inputs_returns_data_channel inputs w r).
  vm_compute. reflexivity.
Defined.

(** The loop never looks at the builder, so it runs alike in two worlds with
    the same log. *)
Lemma loop_self_irrelevant ct inputs deps ti mi w w' :
  w_log w = w_log w' →
  (_get_inputs_loop ct inputs deps ti mi w).1
  = (_get_inputs_loop ct inputs deps ti mi w').1
  ∧ w_log (_get_inputs_loop ct inputs deps ti mi w).2
    = w_log (_get_inputs_loop ct inputs deps ti mi w').2.
Proof.
  revert ti mi w w'. induction deps as [|[k d] rest IH]; intros ti mi w w' Hlog.
  { done. }
  rewrite !loop_cons. cbn zeta.
  destruct (decide (dep_logical_name d ∈ mi)); [by apply IH|].
  destruct (inputs !! dep_logical_name d).
  2:{ destruct (required d); [done | by apply IH]. }
  destruct (expected_input_paths ct !! dep_logical_name d); [|done].
  destruct (decide (dep_logical_name d = "input_path")); [|by apply IH].
  apply IH. unfold add_log. cbn [w_log]. by rewrite Hlog.
Qed.

(** C3 (amended). Let the builder have a specification.
    - If a required dependency is absent from the mapping, [_get_inputs]
      raises [ValueError].
    - The error is [Required input '<logical name>' not provided] for the
      first required dependency that is absent, provided the builder has a
      contract and every dependency before it is not both required and
      absent and, when present, has a container path in the contract.
    - An optional dependency that is absent is skipped: the call yields the
      same result and the same log as with that dependency struck from the
      specification. *)
Theorem _get_inputs_required_optional
    (inputs : gmap string pyval) (w : World) (sp : StepSpecification) :
  spec (w_self w) = Some sp →
  (∀ k d,
     (k, d) ∈ spec_dependencies sp →
     required d = true →
     inputs !! dep_logical_name d = None →
     ∃ msg, (_get_inputs inputs w).1 = Raise (ValueError msg))
  ∧ (∀ ct pre k d post,
       contract (w_self w) = Some ct →
       spec_dependencies sp = pre ++ (k, d) :: post →
       Forall (λ kd, passes ct inputs kd.2) pre →
       required d = true →
       inputs !! dep_logical_name d = None →
       (_get_inputs inputs w).1
       = Raise (ValueError
           ("Required input '" +:+ dep_logical_name d +:+ "' not provided")))
  ∧ (∀ pre k d post,
       spec_dependencies sp = pre ++ (k, d) :: post →
       required d = false →
       inputs !! dep_logical_name d = None →
       (_get_inputs inputs w).1
       = (_get_inputs inputs (with_dependencies (pre ++ post) w)).1
       ∧ w_log (_get_inputs inputs w).2
         = w_log (_get_inputs inputs (with_dependencies (pre ++ post) w)).2).
Proof.
  intros Hsp. split_and!.
  - intros k d Hin Hreq Habs. rewrite _get_inputs_run, Hsp.
    destruct (contract (w_self w)) as [ct|]; [|by eexists].
    apply loop_required_absent; [apply loop_state_init | by eauto].
  - intros ct pre k d post Hct Hdeps Hpre Hreq Habs.
    rewrite _get_inputs_run, Hsp, Hct, Hdeps.
    by apply loop_first_required_absent; [apply loop_state_init|..].
  - intros pre k d post Hdeps Hreq Habs.
    rewrite !_get_inputs_run. cbn [with_dependencies w_self spec contract].
    rewrite Hsp. cbn [fmap option_fmap option_map spec_dependencies].
    destruct (contract (w_self w)) as [ct|]; [|done].
    rewrite Hdeps, loop_skip_optional by done.
    by apply loop_self_irrelevant.
Qed.

Lemma _get_inputs_required_optional_witness :
  let inputs : gmap string pyval :=
    {[ "input_path" := PStr "s3://bucket/data" ]} in
  let deps := [ Fixtures.input_path_dep; Fixtures.checkpoint_dep;
                Fixtures.hyperparameters_dep ] in
  let w := Fixtures.world deps Fixtures.training_contract in
  (_get_inputs inputs w).1
  = Raise (ValueError "Required input 'hyperparameters_s3_uri' not provided")
  ∧ (_get_inputs inputs w).1
    = (_get_inputs inputs
         (Fixtures.world [Fixtures.input_path_dep;
                          Fixtures.hyperparameters_dep]
            Fixtures.training_contract)).1.
Proof.
  intros inputs deps w.
  destruct (_get_inputs_required_optional inputs w
              (Fixtures.training_spec deps) eq_refl) as (_ & Hb & Hc).
  split.
  - apply (Hb Fixtures.training_contract
             [ ("input_path", Fixtures.input_path_dep);
               ("checkpoint", Fixtures.checkpoint_dep) ]
             "hyperparameters_s3_uri" Fixtures.hyperparameters_dep []);
      [reflexivity | reflexivity | | reflexivity | reflexivity].
    repeat apply Forall_cons_2; [| |apply Forall_nil_2]; split.
    + intros H. vm_compute in H. discriminate.
    + intros _. by eexists.
    + reflexivity.
    + intros [v H]. vm_compute in H. discriminate.
  - apply (Hc [("input_path", Fixtures.input_path_dep)]
             "checkpoint" Fixtures.checkpoint_dep
             [("hyperparameters_s3_uri", Fixtures.hyperparameters_dep)]);
      reflexivity.
Defined.

(** C3 as stated does not hold: with a contract that has no container path
    for [input_path], the error names [input_path], which is in the mapping,
    and not the required [hyperparameters_s3_uri], which is not. *)
Lemma _get_inputs_names_present_input :
  let inputs : gmap string pyval :=
    {[ "input_path" := PStr "s3://bucket/data" ]} in
  let w := Fixtures.world [Fixtures.input_path_dep;
                           Fixtures.hyperparameters_dep]
             Fixtures.empty_contract in
  (_get_inputs inputs w).1
  = Raise (ValueError "No container path found for input: input_path")
  ∧ required Fixtures.hyperparameters_dep = true
  ∧ inputs !! "hyperparameters_s3_uri" = None
  ∧ ¬ names_every_absent_required.
Proof.
  intros inputs w.
  assert (Hrun : (_get_inputs inputs w).1
    = Raise (ValueError "No container path found for input: input_path")).
  { vm_compute. reflexivity. }
  split_and!; [done | done | done |].
  intros Hclaim.
  destruct (Hclaim w inputs
              (Fixtures.training_spec [Fixtures.input_path_dep;
                                       Fixtures.hyperparameters_dep])
              "hyperparameters_s3_uri" Fixtures.hyperparameters_dep)
    as (msg & Hmsg & Hocc);
    [reflexivity | apply list_elem_of_In; right; left; reflexivity
    | reflexivity | reflexivity |].
  rewrite Hrun in Hmsg. injection Hmsg as <-.
  vm_compute in Hocc. discriminate.
Qed.

(** ** [_get_outputs] *)

Lemma app_slash_cons q : ∃ c s, q +:+ "/" = String c s.
Proof. destruct q; [by exists "/"%char, "" | by eexists _, _]. Qed.

Lemma endswith_slash_app q : endswith_slash (q +:+ "/") = true.
Proof.
  induction q as [|c q IH]; [done|].
  change (String c q +:+ "/") with (String c (q +:+ "/")).
  destruct (app_slash_cons q) as (c' & s & E). rewrite E in *. exact IH.
Qed.

Lemma drop_last_app q : drop_last (q +:+ "/") = q.
Proof.
  induction q as [|c q IH]; [done|].
  change (String c q +:+ "/") with (String c (q +:+ "/")).
  destruct (app_slash_cons q) as (c' & s & E). rewrite E in *.
  cbn [drop_last]. cbn [drop_last] in IH. by rewrite IH.
Qed.

Lemma endswith_slash_true p :
  endswith_slash p = true → p = drop_last p +:+ "/".
Proof.
  induction p as [|c p IH]; [done|].
  cbn [endswith_slash drop_last]. destruct p as [|c' p'].
  - rewrite bool_decide_eq_true. by intros ->.
  - intros H.
    change (String c (drop_last (String c' p')) +:+ "/")
      with (String c (drop_last (String c' p') +:+ "/")).
    by rewrite <- IH.
Qed.

Lemma endswith_slash_false p q :
  endswith_slash p = false → p ≠ q +:+ "/".
Proof.
  intros H ->. by rewrite endswith_slash_app in H.
Qed.

Lemma strip_without_trailing_slash p :
  without_trailing_slash p (if endswith_slash p then drop_last p else p).
Proof.
  destruct (endswith_slash p) eqn:E.
  - left. by apply endswith_slash_true.
  - right. split; [done|]. intros q. by apply endswith_slash_false.
Qed.

Lemma first_provided_None outputs names :
  first_provided outputs names = None ↔ ∀ m, m ∈ names → outputs !! m = None.
Proof.
  induction names as [|n names IH]; cbn [first_provided].
  - split; [intros _ m Hm; by apply elem_of_nil in Hm | done].
  - destruct (outputs !! n) eqn:E.
    + split; [done|]. intros H. specialize (H n (list_elem_of_here _ _)).
      congruence.
    + rewrite IH. split.
      * intros H m [->|Hm]%elem_of_cons; auto.
      * intros H m Hm. apply H. by right.
Qed.

Lemma first_provided_Some outputs names n v :
  first_provided outputs names = Some (n, v) ↔ first_present outputs names n v.
Proof.
  induction names as [|n0 names IH]; cbn [first_provided].
  - split; [done|]. intros (pre & post & H & _). by destruct pre.
  - destruct (outputs !! n0) as [v0|] eqn:E.
    + split.
      * intros [= -> ->]. exists [], names. split_and!; [done| |done].
        intros m Hm. by apply elem_of_nil in Hm.
      * intros ([|m pre] & post & H & Hpre & Hn); simplify_eq/=.
        { done. }
        specialize (Hpre m (list_elem_of_here _ _)). congruence.
    + rewrite IH. split.
      * intros (pre & post & -> & Hpre & Hn). exists (n0 :: pre), post.
        split_and!; [done| |done].
        intros m [->|Hm]%elem_of_cons; auto.
      * intros ([|m pre] & post & H & Hpre & Hn); simplify_eq/=.
        exists pre, post. split_and!; [done| |done].
        intros m' Hm'. apply Hpre. by right.
Qed.

Section get_outputs.

Variable base : Collaborators.

Ltac run :=
  repeat (progress unfold getattr, mbind, M_bind, bind, mret, M_ret, ret,
            raise, log_info, log, get_self);
  cbn [fst snd w_self].

(** What [_get_outputs] returns, by cases on what the mapping provides. *)
Lemma _get_outputs_result outputs w sp ct :
  spec (w_self w) = Some sp →
  contract (w_self w) = Some ct →
  let strip p := if endswith_slash p then drop_last p else p in
  let generated :=
    match attrs (config (w_self w)) !! "pipeline_s3_loc" with
    | Some loc => Return (strip (py_format loc +:+ "/pytorch_training/"))
    | None =>
        Raise (AttributeError
          "'PyTorchTrainingConfig' object has no attribute 'pipeline_s3_loc'")
    end in
  (_get_outputs base outputs w).1 =
  match first_provided outputs (output_logical_names sp) with
  | Some (_, PStr p) => Return (strip p)
  | Some (_, PNone) | None => generated
  | Some (_, PBytes _) =>
      Raise (TypeError
        "endswith first arg must be bytes or a tuple of bytes, not str")
  | Some (_, v) =>
      Raise (AttributeError
        ("'" +:+ py_type_name v +:+ "' object has no attribute 'endswith'"))
  end.
Proof.
  intros Hsp Hct strip generated. subst generated.
  unfold _get_outputs. run. rewrite Hsp, Hct. fold (output_logical_names sp).
  destruct (first_provided outputs (output_logical_names sp))
    as [[n [| | |p| |]]|]; run; try done.
  all: by destruct (attrs (config (w_self w)) !! "pipeline_s3_loc").
Qed.

Lemma append_cons c s t : String c s +:+ t = String c (s +:+ t).
Proof. reflexivity. Qed.

Lemma append_assoc s t u : (s +:+ t) +:+ u = s +:+ (t +:+ u).
Proof.
  induction s as [|c s IH]; [done|]. by rewrite !append_cons, IH.
Qed.

Lemma strip_generated s :
  (if endswith_slash (s +:+ "/pytorch_training/")
   then drop_last (s +:+ "/pytorch_training/")
   else s +:+ "/pytorch_training/")
  = s +:+ "/pytorch_training".
Proof.
  change "/pytorch_training/" with ("/pytorch_training" +:+ "/").
  rewrite <- append_assoc.
  by rewrite endswith_slash_app, drop_last_app.
Qed.

(** C10 (amended). Let the builder have a specification and a contract.
    - If the first specification output logical name that is a key of the
      mapping has a string destination, [_get_outputs] returns that
      destination with exactly one trailing ['/'] removed, if it has one.
    - If no specification output logical name is a key of the mapping, or the
      first that is has destination [None], it returns the generated default
      [f"{config.pipeline_s3_loc}/pytorch_training/"], again with one
      trailing ['/'] removed.
    - Hence [_get_outputs({})] is [config.pipeline_s3_loc] followed by
      ["/pytorch_training"] when [pipeline_s3_loc] is a string. *)
Theorem _get_outputs_destination_or_default
    (outputs : gmap string pyval) (w : World)
    (sp : StepSpecification) (ct : ScriptContract) :
  spec (w_self w) = Some sp →
  contract (w_self w) = Some ct →
  (∀ n p,
     first_present outputs (output_logical_names sp) n (PStr p) →
     ∃ r, (_get_outputs base outputs w).1 = Return r
          ∧ without_trailing_slash p r)
  ∧ (∀ loc,
       attrs (config (w_self w)) !! "pipeline_s3_loc" = Some loc →
       (∀ m, m ∈ output_logical_names sp → outputs !! m = None)
       ∨ (∃ n, first_present outputs (output_logical_names sp) n PNone) →
       ∃ r, (_get_outputs base outputs w).1 = Return r
            ∧ without_trailing_slash
                (py_format loc +:+ "/pytorch_training/") r)
  ∧ (∀ s,
       attrs (config (w_self w)) !! "pipeline_s3_loc" = Some (PStr s) →
       (_get_outputs base ∅ w).1 = Return (s +:+ "/pytorch_training")).
Proof.
  intros Hsp Hct. split_and!.
  - intros n p Hfirst%first_provided_Some.
    rewrite (_get_outputs_result _ _ _ _ Hsp Hct), Hfirst.
    eexists. split; [done|]. apply strip_without_trailing_slash.
  - intros loc Hloc Hnone.
    rewrite (_get_outputs_result _ _ _ _ Hsp Hct), Hloc.
    assert (first_provided outputs (output_logical_names sp) = None
            ∨ ∃ n, first_provided outputs (output_logical_names sp)
                   = Some (n, PNone)) as [->| [n ->]].
    { destruct Hnone as [H%first_provided_None|[n H%first_provided_Some]];
        eauto. }
    all: eexists; split; [done|]; apply strip_without_trailing_slash.
  - intros s Hloc.
    rewrite (_get_outputs_result _ _ _ _ Hsp Hct), Hloc.
    assert (first_provided ∅ (output_logical_names sp) = None) as ->.
    { apply first_provided_None. intros m _. apply lookup_empty. }
    cbn [py_format]. by rewrite strip_generated.
Qed.

End get_outputs.

Lemma _get_outputs_destination_or_default_witness :
  let w := Fixtures.world [Fixtures.input_path_dep]
             Fixtures.training_contract in
  (∃ r, (_get_outputs Fixtures.failing_base
           {[ "model_output" := PStr "s3://bucket/out/" ]} w).1 = Return r
        ∧ without_trailing_slash "s3://bucket/out/" r)
  ∧ (_get_outputs Fixtures.failing_base ∅ w).1
    = Return "s3://bucket/pipeline/pytorch_training".
Proof.
  intros w.
  destruct (_get_outputs_destination_or_default Fixtures.failing_base
              {[ "model_output" := PStr "s3://bucket/out/" ]} w
              (Fixtures.training_spec [Fixtures.input_path_dep])
              Fixtures.training_contract eq_refl eq_refl) as (Ha & _ & _).
  destruct (_get_outputs_destination_or_default Fixtures.failing_base
              ∅ w
              (Fixtures.training_spec [Fixtures.input_path_dep])
              Fixtures.training_contract eq_refl eq_refl) as (_ & _ & Hc).
  split.
  - apply (Ha "model_output"). exists [], [].
    split_and!; [reflexivity | | reflexivity].
    intros m Hm. by apply elem_of_nil in Hm.
  - apply (Hc "s3://bucket/pipeline"). reflexivity.
Defined.

(** C10 as stated does not hold: with [model_output] in the mapping and
    [None] as its destination, [_get_outputs] returns the generated default,
    not the destination supplied. *)
Lemma _get_outputs_None_destination :
  let w := Fixtures.world [Fixtures.input_path_dep]
             Fixtures.training_contract in
  (_get_outputs Fixtures.failing_base {[ "model_output" := PNone ]} w).1
  = Return "s3://bucket/pipeline/pytorch_training"
  ∧ ¬ returns_first_present_destination Fixtures.failing_base.
Proof.
  intros w. split; [vm_compute; reflexivity|].
  intros Hclaim.
  destruct (Hclaim w {[ "model_output" := PNone ]}
              (Fixtures.training_spec [Fixtures.input_path_dep])
              Fixtures.training_contract "model_output" PNone)
    as (p & r & Hv & _); [reflexivity | reflexivity | | discriminate].
  exists [], []. split_and!; [reflexivity | | reflexivity].
  intros m Hm. by apply elem_of_nil in Hm.
Qed.

(** ** Results that depend on the builder only *)

Lemma self_only_ret {A} (a : A) : self_only (mret a : M A).
Proof. intros w. split_and!; [done| |done]. exists []. by rewrite app_nil_r. Qed.

Lemma self_only_raise {A} (e : exn) : self_only (raise e : M A).
Proof. intros w. split_and!; [done| |done]. exists []. by rewrite app_nil_r. Qed.

Lemma self_only_log l msg : self_only (log l msg).
Proof. intros w. split_and!; [done| |done]. by eexists. Qed.

Lemma self_only_log_info msg : self_only (log_info msg).
Proof. apply self_only_log. Qed.

Lemma self_only_get_self : self_only get_self.
Proof.
  intros w. split_and!; [done| |].
  - exists []. by rewrite app_nil_r.
  - intros w' Hw'. cbn [get_self fst]. by rewrite Hw'.
Qed.

Lemma self_only_lift {A} (r : result A) : self_only (lift r).
Proof. intros w. split_and!; [done| |done]. exists []. by rewrite app_nil_r. Qed.

Lemma self_only_construct {A} (check : A → option exn) (a : A) :
  self_only (construct check a).
Proof.
  unfold construct.
  destruct (check a); [apply self_only_raise | apply self_only_ret].
Qed.

Lemma self_only_bind {A B} (m : M A) (k : A → M B) :
  self_only m → (∀ a, self_only (k a)) → self_only (m ≫= k).
Proof.
  intros Hm Hk w. rewrite bind_run. destruct (Hm w) as (H1 & [l Hl] & H2).
  split_and!.
  - destruct (m w) as [[e|a] w1]; cbn [fst snd] in *; [done|].
    destruct (Hk a w1) as [H3 _]. by rewrite H3.
  - destruct (m w) as [[e|a] w1]; cbn [fst snd] in *; [by eauto|].
    destruct (Hk a w1) as (_ & [l' Hl'] & _). exists (l ++ l').
    by rewrite Hl', Hl, (assoc_L (++)).
  - intros w' Hw'. rewrite bind_run. specialize (H2 w' Hw').
    destruct (Hm w') as [H1' _].
    destruct (m w) as [[e|a] w1], (m w') as [[e'|a'] w1'];
      cbn [fst snd] in *; simplify_eq; [done|].
    destruct (Hk a w1) as (_ & _ & H4). apply H4. congruence.
Qed.

Lemma self_only_try_except {A} (m : M A) (h : exn → M A) :
  self_only m → (∀ e, self_only (h e)) → self_only (try_except m h).
Proof.
  intros Hm Hh w. unfold try_except.
  destruct (Hm w) as (H1 & [l Hl] & H2). split_and!.
  - destruct (m w) as [[e|a] w1]; cbn [fst snd] in *; [|done].
    destruct (Hh e w1) as [H3 _]. by rewrite H3.
  - destruct (m w) as [[e|a] w1]; cbn [fst snd] in *; [|by eauto].
    destruct (Hh e w1) as (_ & [l' Hl'] & _). exists (l ++ l').
    by rewrite Hl', Hl, (assoc_L (++)).
  - intros w' Hw'. specialize (H2 w' Hw').
    destruct (Hm w') as [H1' _].
    destruct (m w) as [[e|a] w1], (m w') as [[e'|a'] w1'];
      cbn [fst snd] in *; simplify_eq; [|done].
    destruct (Hh e w1) as (_ & _ & H4). apply H4. congruence.
Qed.

Ltac self_only_with tac :=
  repeat first
    [ apply self_only_ret | apply self_only_raise | apply self_only_log
    | apply self_only_log_info
    | apply self_only_get_self | apply self_only_lift
    | apply self_only_construct
    | tac
    | apply self_only_bind; [|intros ?]
    | apply self_only_try_except; [|intros ?]
    | match goal with
      | |- self_only (match ?x with _ => _ end) => destruct x
      | |- self_only (if ?x then _ else _) => destruct x
      end ].

Ltac self_only := self_only_with fail.

Lemma self_only_getattr name : self_only (getattr name).
Proof. unfold getattr. self_only. Qed.

Lemma self_only_get_inputs_loop ct inputs deps ti mi :
  self_only (_get_inputs_loop ct inputs deps ti mi).
Proof.
  revert ti mi. induction deps as [|[k d] rest IH]; intros ti mi.
  { apply self_only_ret. }
  cbn [_get_inputs_loop]. self_only_with ltac:(apply IH).
Qed.

Lemma self_only_get_inputs inputs : self_only (_get_inputs inputs).
Proof.
  unfold _get_inputs. self_only_with ltac:(apply self_only_get_inputs_loop).
Qed.

Section create_step.

Variable base : Collaborators.

Lemma self_only_get_environment_variables :
  self_only (_get_environment_variables base).
Proof. unfold _get_environment_variables. self_only. Qed.

Lemma self_only_create_estimator : self_only (_create_estimator base).
Proof.
  unfold _create_estimator.
  self_only_with ltac:(first [ apply self_only_getattr
                             | apply self_only_get_environment_variables ]).
Qed.

Lemma self_only_get_outputs outputs : self_only (_get_outputs base outputs).
Proof.
  unfold _get_outputs. self_only_with ltac:(apply self_only_getattr).
Qed.

(** The estimator never gets an output path. *)
Lemma _create_estimator_output_path w est :
  (_create_estimator base w).1 = Return est → output_path est = PNone.
Proof.
  unfold _create_estimator, construct.
  repeat (rewrite bind_run;
          match goal with
          | |- context [match ?m ?w with _ => _ end] =>
              destruct (m w) as [[?|?] ?]; [done|]
          end).
  match goal with
  | |- context [PyTorch_init base ?x] => destruct (PyTorch_init base x)
  end; [done|].
  by intros [= <-].
Qed.

Lemma bind_result {A B} (m : M A) (k : A → M B) (w w0 : World) :
  self_only m →
  w_self w = w_self w0 →
  ((m ≫= k) w).1
  = match (m w0).1 with
    | Raise e => Raise e
    | Return a => (k a (m w).2).1
    end
  ∧ w_self (m w).2 = w_self w0.
Proof.
  intros Hm Hw. destruct (Hm w0) as (_ & _ & H2). destruct (Hm w) as [H1 _].
  rewrite bind_run, <- (H2 w Hw). split; [|congruence].
  by destruct (m w) as [[e|a] w1].
Qed.

(** The mapping handed to [_get_inputs], and the world it is handed in. *)
Lemma create_step_extraction (kwargs : Kwargs) (w : World) :
  let self := w_self w in
  let dependencies := default [] (kw_dependencies kwargs) in
  let inputs : gmap string pyval := ∅ in
  let m : M (gmap string pyval) :=
    match dependencies with
    | [] => mret inputs
    | _ =>
        try_except
          (extracted_inputs ←
             lift (extract_inputs_from_dependencies base self dependencies);
           mret (extracted_inputs ∪ inputs))
          (λ e,
             log_warning (pct "Failed to extract inputs from dependencies: %s"
                            [exn_str e]);;
             mret inputs)
    end in
  (m w).1 = Return (extracted_or_nothing base self kwargs)
  ∧ w_self (m w).2 = self.
Proof.
  intros self dependencies inputs m. subst m.
  unfold extracted_or_nothing. fold dependencies. fold self.
  destruct dependencies as [|d ds]; [done|].
  unfold try_except. rewrite bind_run. unfold lift.
  destruct (extract_inputs_from_dependencies base self (d :: ds)) as [e|ex].
  - done.
  - split; [|done]. cbn [fst]. unfold inputs. by rewrite (right_id_L ∅ (∪)).
Qed.

Lemma create_step_result (kwargs : Kwargs) (w : World) :
  (create_step base kwargs w).1 = create_step_outcome base kwargs w.
Proof.
  unfold create_step, create_step_outcome. cbn zeta.
  rewrite bind_run. cbn [log_info log].
  set (w1 := {| w_self := w_self w; w_log := _ |}).
  rewrite bind_run. cbn [get_self w_self].
  rewrite bind_run.
  destruct (create_step_extraction kwargs w1) as [Hex Hself].
  cbn zeta in Hex, Hself. change (w_self w1) with (w_self w) in *.
  match goal with
  | |- context [let (_, _) := ?m w1 in _] => destruct (m w1) as [r w2]
  end.
  cbn [fst snd] in Hex, Hself. subst r.
  cbv beta iota.
  match goal with
  | |- ((_get_inputs ?x ≫= _) _).1 = _ =>
      change x
        with (step_inputs kwargs (extracted_or_nothing base (w_self w) kwargs))
  end.
  match goal with
  | |- ((?m ≫= ?k) _).1 = _ =>
      destruct (bind_result m k w2 w (self_only_get_inputs _) Hself)
        as [-> Hs3]
  end.
  destruct (_get_inputs _ w).1 as [e|training_inputs]; [done|].
  destruct (decide (size training_inputs = 0)); [done|].
  rewrite bind_run. cbn [log_info log].
  match goal with
  | |- ((?m ≫= ?k) ?w').1 = _ =>
      destruct (bind_result m k w' w (self_only_get_outputs _) Hs3)
        as [-> Hs4]
  end.
  destruct (_get_outputs base ∅ w).1 as [e|p]; [done|].
  match goal with
  | |- ((?m ≫= ?k) ?w').1 = _ =>
      destruct (bind_result m k w' w self_only_create_estimator Hs4)
        as [-> Hs5]
  end.
  destruct (_create_estimator base w).1 as [e|estimator]; [done|].
  unfold try_except, construct. rewrite bind_run.
  fold (step_arguments base (w_self w) kwargs estimator training_inputs).
  destruct (TrainingStep_init base _) as [e|]; [done|].
  done.
Qed.

Lemma ret_run {A} (a : A) (w : World) : (mret a : M A) w = (Return a, w).
Proof. reflexivity. Qed.

Lemma create_step_warns (kwargs : Kwargs) (w : World) d ds e :
  default [] (kw_dependencies kwargs) = d :: ds →
  extract_inputs_from_dependencies base (w_self w) (d :: ds) = Raise e →
  (WARNING, pct "Failed to extract inputs from dependencies: %s" [exn_str e])
  ∈ w_log (create_step base kwargs w).2.
Proof.
  intros Hdeps Hex. unfold create_step. cbn zeta.
  rewrite bind_run. cbn [log_info log].
  rewrite bind_run. cbn [get_self w_self].
  rewrite Hdeps. rewrite bind_run.
  unfold try_except at 1. rewrite bind_run. unfold lift at 1. rewrite Hex.
  rewrite bind_run. cbn [log_warning log w_self w_log].
  rewrite ret_run. cbv beta iota.
  match goal with
  | |- _ ∈ w_log (?k ?w2).2 =>
      assert (self_only k) as Hk
  end.
  { self_only_with ltac:(first [ apply self_only_get_inputs
                               | apply self_only_get_outputs
                               | apply self_only_create_estimator ]). }
  match goal with
  | |- _ ∈ w_log (?k ?w2).2 => destruct (Hk w2) as (_ & [l ->] & _)
  end.
  cbn [w_log]. apply elem_of_app. left. apply elem_of_app. right.
  apply list_elem_of_here.
Qed.

End create_step.

(** C8. The [output_path] keyword argument has no effect on [create_step]:
    two calls that differ in it alone run alike (same result, same log).  The
    estimator is constructed with [output_path=None], and a step that is
    returned is made of the step name, that estimator, the training inputs,
    the dependencies, the cache configuration and the specification: the
    path computed by [_get_outputs({})] is in none of them. *)
Theorem create_step_ignores_output_path
    (base : Collaborators) (kwargs : Kwargs) (w : World) (o1 o2 : option pyval) :
  create_step base (with_output_path o1 kwargs) w
  = create_step base (with_output_path o2 kwargs) w
  ∧ (∀ w' est,
       (_create_estimator base w').1 = Return est → output_path est = PNone)
  ∧ (∀ ts,
       (create_step base kwargs w).1 = Return ts →
       ∃ est ti,
         (_create_estimator base w).1 = Return est
         ∧ (_get_inputs
              (step_inputs kwargs
                 (extracted_or_nothing base (w_self w) kwargs)) w).1
           = Return ti
         ∧ ts = setattr_spec
                  (step_arguments base (w_self w) kwargs est ti)
                  (spec (w_self w))
         ∧ output_path (ts_estimator ts) = PNone).
Proof.
  split_and!.
  - reflexivity.
  - apply _create_estimator_output_path.
  - intros ts. rewrite create_step_result. unfold create_step_outcome.
    cbn zeta.
    destruct (_get_inputs _ w).1 as [e|ti]; [done|].
    destruct (decide (size ti = 0)); [done|].
    destruct (_get_outputs base ∅ w).1 as [e|p]; [done|].
    destruct (_create_estimator base w).1 as [e|est] eqn:Hest; [done|].
    destruct (TrainingStep_init base _) as [e|]; [done|].
    intros [= <-]. exists est, ti. split_and!; try done.
    cbn [setattr_spec step_arguments ts_estimator].
    by apply (_create_estimator_output_path base w).
Qed.

(** C1 (amended). In [create_step] one failure is caught and replaced by a
    fallback: when [extract_inputs_from_dependencies] raises, a warning is
    logged and the call goes on as if nothing had been extracted.  Every
    other failure reaches the caller: an error of [_get_inputs], of
    [_get_outputs] or of [_create_estimator] is raised unchanged, an empty
    set of training inputs raises [ValueError], and an error of the
    [TrainingStep] constructor is raised as [ValueError] with its message. *)
Theorem create_step_failures
    (base : Collaborators) (kwargs : Kwargs) (w : World) :
  let self := w_self w in
  let inputs := step_inputs kwargs (extracted_or_nothing base self kwargs) in
  let result := (create_step base kwargs w).1 in
  (∀ d ds e,
     default [] (kw_dependencies kwargs) = d :: ds →
     extract_inputs_from_dependencies base self (d :: ds) = Raise e →
     (WARNING,
      pct "Failed to extract inputs from dependencies: %s" [exn_str e])
     ∈ w_log (create_step base kwargs w).2
     ∧ result = (create_step (with_empty_extraction base) kwargs w).1)
  ∧ (∀ e, (_get_inputs inputs w).1 = Raise e → result = Raise e)
  ∧ (∀ ti,
       (_get_inputs inputs w).1 = Return ti →
       (size ti = 0 →
        result = Raise (ValueError "No training inputs available. Provide input_path or ensure dependencies supply necessary outputs."))
       ∧ (size ti ≠ 0 →
          (∀ e, (_get_outputs base ∅ w).1 = Raise e → result = Raise e)
          ∧ (∀ p,
               (_get_outputs base ∅ w).1 = Return p →
               (∀ e, (_create_estimator base w).1 = Raise e →
                     result = Raise e)
               ∧ (∀ est e,
                    (_create_estimator base w).1 = Return est →
                    TrainingStep_init base
                      (step_arguments base self kwargs est ti) = Some e →
                    result
                    = Raise (ValueError
                        ("Failed to create PyTorchTrainingStep: "
                         +:+ exn_str e)))))).
Proof.
  intros self inputs result. subst result.
  rewrite create_step_result. unfold create_step_outcome. cbn zeta.
  fold self. fold inputs. split_and!.
  - intros d ds e Hdeps Hex. split; [by apply (create_step_warns _ _ _ d ds)|].
    rewrite create_step_result. unfold create_step_outcome. cbn zeta.
    fold self.
    assert (extracted_or_nothing (with_empty_extraction base) self kwargs
            = extracted_or_nothing base self kwargs) as ->.
    { unfold extracted_or_nothing. rewrite Hdeps, Hex. done. }
    reflexivity.
  - by intros e ->.
  - intros ti ->. split.
    + intros Hsize. by rewrite decide_True.
    + intros Hsize. rewrite decide_False by done. split.
      * by intros e ->.
      * intros p ->. split; [by intros e ->|].
        by intros est e -> ->.
Qed.

Lemma create_step_ignores_output_path_witness :
  create_step Fixtures.failing_base
    (with_output_path (Some (PStr "s3://a")) StepFixtures.kwargs)
    StepFixtures.w
  = create_step Fixtures.failing_base
      (with_output_path None StepFixtures.kwargs) StepFixtures.w
  ∧ output_path (ts_estimator StepFixtures.step) = PNone.
Proof.
  destruct (create_step_ignores_output_path Fixtures.failing_base
              StepFixtures.kwargs StepFixtures.w
              (Some (PStr "s3://a")) None) as (H1 & _ & H3).
  split; [exact H1|].
  destruct (H3 StepFixtures.step) as (est & ti & _ & _ & _ & H).
  - vm_compute. reflexivity.
  - exact H.
Defined.

Lemma create_step_failures_witness :
  ((WARNING,
    "Failed to extract inputs from dependencies: no specification for step")
   ∈ w_log (create_step Fixtures.failing_base StepFixtures.kwargs
              StepFixtures.w).2
   ∧ (create_step Fixtures.failing_base StepFixtures.kwargs StepFixtures.w).1
     = (create_step (with_empty_extraction Fixtures.failing_base)
          StepFixtures.kwargs StepFixtures.w).1)
  ∧ (create_step Fixtures.failing_base StepFixtures.bare_kwargs
       StepFixtures.w).1
    = Raise (ValueError "Required input 'input_path' not provided").
Proof.
  split.
  - destruct (create_step_failures Fixtures.failing_base StepFixtures.kwargs
                StepFixtures.w) as (H & _).
    apply (H "preprocess" [] (ValueError "no specification for step"));
      reflexivity.
  - destruct (create_step_failures Fixtures.failing_base
                StepFixtures.bare_kwargs StepFixtures.w) as (_ & H & _).
    apply H. vm_compute. reflexivity.
Defined.

(** C1 as stated does not hold: the extraction of inputs from the
    dependencies fails, a warning is logged, and [create_step] returns a
    step built from the direct [input_path]. *)
Lemma create_step_swallows_extraction_failure :
  extract_inputs_from_dependencies Fixtures.failing_base
    (w_self StepFixtures.w) ["preprocess"]
  = Raise (ValueError "no specification for step")
  ∧ (create_step Fixtures.failing_base StepFixtures.kwargs StepFixtures.w).1
    = Return StepFixtures.step
  ∧ (WARNING,
     "Failed to extract inputs from dependencies: no specification for step")
    ∈ w_log (create_step Fixtures.failing_base StepFixtures.kwargs
               StepFixtures.w).2
  ∧ ¬ extraction_failure_surfaces.
Proof.
  assert (Hrun : (create_step Fixtures.failing_base StepFixtures.kwargs
                    StepFixtures.w).1 = Return StepFixtures.step).
  { vm_compute. reflexivity. }
  split_and!; [reflexivity | exact Hrun | |].
  - apply list_elem_of_In. vm_compute. auto.
  - intros Hclaim.
    destruct (Hclaim Fixtures.failing_base StepFixtures.kwargs StepFixtures.w
                ["preprocess"] (ValueError "no specification for step"))
      as [e' He']; [reflexivity | discriminate | reflexivity |].
    rewrite Hrun in He'. discriminate.
Qed.

(** ** Step specifications and the registry *)

Lemma od_insert_elem_of {V} k v (d : odict V) k' v' :
  (k', v') ∈ od_insert k v d → (k', v') = (k, v) ∨ (k', v') ∈ d.
Proof.
  induction d as [|[k0 v0] d IH]; cbn [od_insert].
  - intros ->%list_elem_of_singleton. by left.
  - destruct (decide (k0 = k)) as [->|Hk].
    + intros [->|Hin]%elem_of_cons; [by left|]. right. by right.
    + intros [->|Hin]%elem_of_cons; [right; by left|].
      destruct (IH Hin) as [?|?]; [by left|]. right. by right.
Qed.

Lemma od_insert_keys {V} k v (d : odict V) :
  od_keys (od_insert k v d)
  = if decide (k ∈ od_keys d) then od_keys d else od_keys d ++ [k].
Proof.
  unfold od_keys. induction d as [|[k0 v0] d IH]; cbn [od_insert fmap list_fmap].
  - rewrite decide_False; [done|]. apply not_elem_of_nil.
  - destruct (decide (k0 = k)) as [->|Hk].
    + cbn [fmap list_fmap fst].
      rewrite decide_True; [done|]. by left.
    + cbn [fmap list_fmap fst]. rewrite IH.
      destruct (decide (k ∈ d.*1)) as [Hin|Hin].
      * rewrite decide_True; [done|]. by right.
      * rewrite decide_False; [done|].
        intros [?|?]%elem_of_cons; [congruence|done].
Qed.

Lemma keyed_by_insert {V} (name : V → string) (d : odict V) (v : V) :
  keyed_by name d → keyed_by name (od_insert (name v) v d).
Proof.
  intros [Hnd Hname]. split.
  - rewrite od_insert_keys. case_decide as Hin; [done|].
    apply NoDup_app. split_and!; [done| |apply NoDup_singleton].
    intros x Hx ->%list_elem_of_singleton. done.
  - intros k' v' [[= -> ->]|Hin]%od_insert_elem_of; [done|]. by apply Hname.
Qed.

Lemma keyed_by_foldl {V} (name : V → string) (l : list V) (d : odict V) :
  keyed_by name d →
  keyed_by name (foldl (λ d s, od_insert (name s) s d) d l).
Proof.
  revert d. induction l as [|v l IH]; intros d Hd; [done|].
  cbn [foldl]. apply IH. by apply keyed_by_insert.
Qed.

Lemma keyed_by_names {V} (name : V → string) (d : odict V) :
  keyed_by name d → NoDup (map name (od_values d)).
Proof.
  intros [Hnd Hname].
  assert (map name (od_values d) = od_keys d) as ->; [|done].
  unfold od_values, od_keys. clear Hnd.
  induction d as [|[k v] d IH]; [done|].
  cbn [fmap list_fmap map fst snd].
  rewrite (Hname k v) by by left. f_equal.
  apply IH. intros k' v' Hin. apply Hname. by right.
Qed.

(** What the constructor makes has pairwise distinct logical names. *)
Lemma StepSpecification_init_distinct st nt deps outs :
  distinct_logical_names (StepSpecification_init st nt deps outs).
Proof.
  split; cbn [StepSpecification_init spec_dependencies spec_outputs].
  - apply keyed_by_names, keyed_by_foldl. split; [apply NoDup_nil_2|].
    intros k v Hin. by apply elem_of_nil in Hin.
  - apply keyed_by_names, keyed_by_foldl. split; [apply NoDup_nil_2|].
    intros k v Hin. by apply elem_of_nil in Hin.
Qed.

Lemma registry_distinct reg st s :
  registry reg → reg !! st = Some s → distinct_logical_names s.
Proof.
  intros Hreg. revert st s.
  induction Hreg as [|reg reg' st0 st' nt deps outs _ IH Hr]; intros st s.
  - by rewrite lookup_empty.
  - unfold register in Hr. destruct (reg !! st0) eqn:E; [done|].
    injection Hr as <-.
    destruct (decide (st0 = st)) as [->|Hne].
    + rewrite lookup_insert_eq. intros [= <-].
      apply StepSpecification_init_distinct.
    + rewrite lookup_insert_ne by done. apply IH.
Qed.

(** C7. Every registered step specification has pairwise distinct dependency
    logical names and pairwise distinct output logical names (the required
    flag, the compatible sources, the semantic keywords and the data type of
    a dependency are fields of its record).  [BATCH_TRANSFORM_CALIBRATION_SPEC]
    declares exactly two dependencies, both required: [model_name] of type
    [String] and [processed_data] of type [S3Uri], with distinct logical
    names; and exactly one output, [transform_output] of type [S3Uri], with
    the access path [properties.TransformOutput.S3OutputPath]. *)
Theorem registered_specifications_invariants
    (get_spec_step_type : string → string) :
  (∀ reg st s,
     registry reg → get st reg = inr s → distinct_logical_names s)
  ∧ (let S := BATCH_TRANSFORM_CALIBRATION_SPEC get_spec_step_type in
     (∃ d1 d2,
        od_values (spec_dependencies S) = [d1; d2]
        ∧ dep_logical_name d1 = "model_name"
        ∧ required d1 = true
        ∧ dep_data_type d1 = "String"
        ∧ compatible_sources d1 = ["PytorchModel"; "XgboostModel"]
        ∧ semantic_keywords d1 = ["model"; "name"; "model_name"; "ModelName"]
        ∧ dep_logical_name d2 = "processed_data"
        ∧ required d2 = true
        ∧ dep_data_type d2 = "S3Uri"
        ∧ compatible_sources d2 = ["TabularPreprocessing-Calibration"]
        ∧ dep_logical_name d1 ≠ dep_logical_name d2)
     ∧ (∃ o,
          od_values (spec_outputs S) = [o]
          ∧ out_logical_name o = "transform_output"
          ∧ out_data_type o = "S3Uri"
          ∧ property_path o = "properties.TransformOutput.S3OutputPath")
     ∧ distinct_logical_names S
     ∧ ∀ reg reg',
         registry reg →
         register (step_type S) S reg = inr reg' →
         registry reg' ∧ get (step_type S) reg' = inr S).
Proof.
  split.
  - intros reg st s Hreg Hget. unfold get in Hget.
    destruct (reg !! st) as [s'|] eqn:E; [|done]. injection Hget as ->.
    by apply (registry_distinct reg st).
  - cbn zeta. split_and!.
    + eexists _, _. split; [reflexivity|]. by split_and!.
    + eexists. split; [reflexivity|]. by split_and!.
    + apply StepSpecification_init_distinct.
    + intros reg reg' Hreg Hr. split.
      * by eapply registry_register.
      * unfold register in Hr.
        destruct (reg !! step_type _) eqn:E; [done|]. injection Hr as <-.
        unfold get. by rewrite lookup_insert_eq.
Qed.

Lemma registered_specifications_invariants_witness :
  let S := BATCH_TRANSFORM_CALIBRATION_SPEC (λ s, s) in
  distinct_logical_names S
  ∧ get "BatchTransform-Calibration" {[ "BatchTransform-Calibration" := S ]}
    = inr S.
Proof.
  intros S.
  destruct (registered_specifications_invariants (λ s, s))
    as (Hall & _ & _ & _ & Hreg).
  destruct (Hreg ∅ {[ "BatchTransform-Calibration" := S ]} registry_empty
              eq_refl) as [Hr Hg].
  split; [|exact Hg].
  by apply (Hall _ "BatchTransform-Calibration" S Hr).
Defined.

(** ** The pipeline DAG: [topological_order] *)

Lemma find_first {A} (f : A → bool) (l : list A) (x : A) :
  List.find f l = Some x →
  ∃ l1 l2, l = l1 ++ x :: l2 ∧ f x = true ∧ ∀ y, y ∈ l1 → f y = false.
Proof.
  induction l as [|a l IH]; [done|]. cbn [List.find].
  destruct (f a) eqn:Ha.
  - intros [= ->]. exists [], l. split_and!; [done..|].
    intros y Hy. by apply elem_of_nil in Hy.
  - intros (l1 & l2 & -> & Hx & Hl1)%IH. exists (a :: l1), l2.
    split_and!; [done..|]. intros y [->|Hy]%elem_of_cons; auto.
Qed.

Lemma find_None_all {A} (f : A → bool) (l : list A) :
  List.find f l = None → ∀ y, y ∈ l → f y = false.
Proof.
  intros H y Hy. apply list_elem_of_In in Hy. by apply (find_none f l).
Qed.

Lemma ready_true E R v :
  ready E R v = true ↔ ∀ p, (p, v) ∈ E → p ∉ R.
Proof.
  unfold ready. rewrite forallb_forall. split.
  - intros H p Hin Hp. apply list_elem_of_In, H in Hin.
    cbn [fst snd] in Hin.
    by rewrite !bool_decide_eq_true_2 in Hin.
  - intros H [p c] Hin%list_elem_of_In. cbn [fst snd].
    destruct (decide (c = v)) as [->|Hne].
    + rewrite (bool_decide_eq_false_2 (p ∈ R)) by by apply H.
      by rewrite andb_false_r.
    + by rewrite (bool_decide_eq_false_2 (c = v)).
Qed.

Lemma ready_false E R v :
  ready E R v = false → ∃ p, (p, v) ∈ E ∧ p ∈ R.
Proof.
  unfold ready. intros H.
  induction E as [|[p c] E IH]; [done|].
  cbn [forallb fst snd] in H. apply andb_false_iff in H as [H|H].
  - apply negb_false_iff, andb_true_iff in H as [H1 H2].
    apply bool_decide_eq_true in H1 as ->. apply bool_decide_eq_true in H2.
    exists p. split; [by left | done].
  - destruct (IH H) as (q & Hq & HqR). exists q. split; [by right | done].
Qed.

Lemma elem_of_without v x l : x ∈ without v l ↔ x ≠ v ∧ x ∈ l.
Proof. unfold without. by rewrite list_elem_of_filter. Qed.

Lemma without_app v l1 l2 : without v (l1 ++ l2) = without v l1 ++ without v l2.
Proof. apply filter_app. Qed.

Lemma without_cons_ne v x l : x ≠ v → without v (x :: l) = x :: without v l.
Proof. intros H. unfold without. by rewrite filter_cons_True. Qed.

Lemma without_cons_eq v l : without v (v :: l) = without v l.
Proof. unfold without. rewrite filter_cons_False; [done|]. by intros []. Qed.

Lemma without_not_elem v l : v ∉ l → without v l = l.
Proof.
  induction l as [|x l IH]; [done|]. intros Hv.
  apply not_elem_of_cons in Hv as [Hne Hv].
  rewrite without_cons_ne by done. by rewrite IH.
Qed.

Lemma NoDup_without v l : NoDup l → NoDup (without v l).
Proof. apply NoDup_filter. Qed.

Lemma length_without v l : v ∈ l → length (without v l) < length l.
Proof. intros H. apply (length_filter_lt _ _ v); [done|]. by intros []. Qed.

Lemma precedes_cons_here v l c : c ∈ l → precedes (v :: l) v c.
Proof.
  intros [j Hj]%list_elem_of_lookup. exists 0, (S j).
  split_and!; [done | done | lia].
Qed.

Lemma precedes_cons v l p c : precedes l p c → precedes (v :: l) p c.
Proof.
  intros (i & j & Hi & Hj & Hlt). exists (S i), (S j).
  split_and!; [done | done | lia].
Qed.

Lemma precedes_trans l u v w :
  NoDup l → precedes l u v → precedes l v w → precedes l u w.
Proof.
  intros Hnd (i & j & Hi & Hj & Hij) (j' & k & Hj' & Hk & Hjk).
  assert (j = j') as <- by by eapply NoDup_lookup.
  exists i, k. split_and!; [done | done | lia].
Qed.

Lemma precedes_irrefl l u : NoDup l → ¬ precedes l u u.
Proof.
  intros Hnd (i & j & Hi & Hj & Hij).
  assert (i = j) by by eapply NoDup_lookup. lia.
Qed.

(** What the loop returns is an order of the remaining nodes that respects
    the edges among them and breaks ties by their order in [R]. *)
Lemma topo_loop_inr fuel E R order :
  NoDup R →
  topo_loop fuel E R = inr order →
  order ≡ₚ R
  ∧ (∀ p c, (p, c) ∈ E → p ∈ R → c ∈ R → precedes order p c)
  ∧ insertion_order_ties R E order.
Proof.
  revert R order. induction fuel as [|fuel IH]; intros R order Hnd.
  { destruct R; [|done]. intros [= <-]. split_and!; [done| |].
    - intros p c _ Hp. by apply elem_of_nil in Hp.
    - intros emitted v later before u after H. by destruct emitted. }
  destruct R as [|r R'].
  { intros [= <-]. split_and!; [done| |].
    - intros p c _ Hp. by apply elem_of_nil in Hp.
    - intros emitted v later before u after H. by destruct emitted. }
  cbn [topo_loop]. set (R := r :: R') in *.
  destruct (List.find (ready E R) R) as [v|] eqn:Hfind; [|done].
  destruct (topo_loop fuel E (without v R)) as [err|order'] eqn:Hrec; [done|].
  intros [= <-].
  apply find_first in Hfind as (A & B & HR & Hready & HA).
  assert (v ∈ R) as Hv. { rewrite HR. apply elem_of_app. right. by left. }
  destruct (IH _ _ (NoDup_without v R Hnd) Hrec) as (Hperm & Hedges & Hties).
  assert (Hperm' : v :: order' ≡ₚ R).
  { apply NoDup_Permutation; [|done|].
    - apply NoDup_cons. split.
      + rewrite Hperm. rewrite elem_of_without. by intros [? _].
      + rewrite Hperm. by apply NoDup_without.
    - intros x. rewrite elem_of_cons, Hperm, elem_of_without.
      destruct (decide (x = v)) as [->|Hne]; [by split; auto|].
      split; [by intros [?|[_ ?]] | by auto]. }
  split_and!; [done| |].
  - intros p c Hin Hp Hc.
    destruct (decide (c = v)) as [->|Hcv].
    { rewrite ready_true in Hready. by destruct (Hready p Hin). }
    destruct (decide (p = v)) as [->|Hpv].
    { apply precedes_cons_here. rewrite Hperm. by apply elem_of_without. }
    apply precedes_cons, Hedges; [done|by apply elem_of_without..].
  - intros emitted x later before u after Hord Hins Hx Hu.
    destruct emitted as [|e emitted'].
    + (* the first node emitted: everything before it in [R] was not free *)
      cbn [app] in Hord. injection Hord as <- <-.
      assert (u ∈ A) as HuA.
      { rewrite HR in Hins, Hnd.
        apply list_elem_of_split in Hx as (a1 & a2 & ->).
        assert (Hboth : before ++ u :: a1 ++ v :: a2 = A ++ v :: B).
        { by rewrite <- Hins. }
        clear -Hboth Hnd.
        revert A Hboth Hnd. induction before as [|b before IHb]; intros A.
        - destruct A as [|a A]; cbn [app].
          + intros [= -> HB] Hnd. apply NoDup_cons in Hnd as [Hn _].
            destruct Hn. rewrite <- HB. apply elem_of_app. right. by left.
          + intros [= -> _] _. by left.
        - destruct A as [|a A]; cbn [app].
          + intros [= -> HB] Hnd. apply NoDup_cons in Hnd as [Hn _].
            destruct Hn. rewrite <- HB. apply elem_of_app. right. right.
            apply elem_of_app. right. by left.
          + intros [= -> HB] Hnd. right. apply (IHb A HB).
            by apply NoDup_cons in Hnd as [_ ?]. }
      destruct (ready_false _ _ _ (HA u HuA)) as (p & Hp & HpR).
      exists p. split_and!; [done | done | apply not_elem_of_nil].
    + cbn [app] in Hord. injection Hord as <- Hord.
      apply not_elem_of_cons in Hu as [Hue Hu].
      assert (x ≠ v) as Hxe.
      { intros ->.
        assert (v ∈ order') as Hin.
        { rewrite Hord. apply elem_of_app. right. by left. }
        rewrite Hperm, elem_of_without in Hin. by destruct Hin. }
      destruct (Hties emitted' x later (without v before) u (without v after))
        as (p & Hp & HpR & Hpe); [done| | |done|].
      * rewrite Hins, without_app, without_cons_ne by done. done.
      * by apply elem_of_without.
      * apply elem_of_without in HpR as [Hne HpR].
        exists p. split_and!; [done | done |].
        by apply not_elem_of_cons.
Qed.

Lemma path_trans E u v w : path E u v → path E v w → path E u w.
Proof.
  induction 1 as [u v H|u m v H _ IH]; intros Hw.
  - by eapply path_step.
  - eapply path_step; [done|]. by apply IH.
Qed.

(** In a finite set of nodes in which every node has a predecessor, some
    node precedes itself. *)
Lemma no_source_cycle (Rel : string → string → Prop) (n : nat) :
  (∀ x y z, Rel x y → Rel y z → Rel x z) →
  ∀ R : list string,
    (length R ≤ n)%nat → R ≠ [] →
    (∀ v, v ∈ R → ∃ p, p ∈ R ∧ Rel p v) →
    ∃ x, Rel x x.
Proof.
  intros Htrans. induction n as [|n IH]; intros R Hlen Hne Hpred.
  { destruct R; [done | cbn in Hlen; lia]. }
  destruct R as [|v0 R']; [done|].
  destruct (Hpred v0) as (q & Hq & Hqv); [by left|].
  destruct (decide (q = v0)) as [->|Hqne]; [by exists v0|].
  apply (IH (without v0 R')).
  - pose proof (length_filter (λ x, x ≠ v0) R') as Hle.
    unfold without. cbn [length] in Hlen. lia.
  - intros Hnil. assert (q ∈ without v0 R') as Hin.
    { apply elem_of_without. split; [done|].
      by apply elem_of_cons in Hq as [?|?]. }
    rewrite Hnil in Hin. by apply elem_of_nil in Hin.
  - intros u [Hu HuR]%elem_of_without.
    destruct (Hpred u) as (p & Hp & Hpu); [by right|].
    destruct (decide (p = v0)) as [->|Hpne].
    + exists q. split; [|by eapply Htrans].
      apply elem_of_without. split; [done|].
      by apply elem_of_cons in Hq as [?|?].
    + exists p. split; [|done].
      apply elem_of_without. split; [done|].
      by apply elem_of_cons in Hp as [?|?].
Qed.

(** Without a cycle the loop never gets stuck. *)
Lemma topo_loop_acyclic fuel E R :
  acyclic E → NoDup R → (length R ≤ fuel)%nat →
  ∃ order, topo_loop fuel E R = inr order.
Proof.
  intros Hac. revert R. induction fuel as [|fuel IH]; intros R Hnd Hlen.
  { destruct R; [by eexists | cbn in Hlen; lia]. }
  destruct R as [|r R']; [by eexists|].
  cbn [topo_loop]. set (R := r :: R') in *.
  destruct (List.find (ready E R) R) as [v|] eqn:Hfind.
  - apply find_first in Hfind as (A & B & HR & _ & _).
    assert (v ∈ R) as Hv. { rewrite HR. apply elem_of_app. right. by left. }
    destruct (IH (without v R)) as [order ->]; [by apply NoDup_without| |].
    + pose proof (length_without v R Hv). lia.
    + by eexists.
  - exfalso.
    destruct (no_source_cycle (path E) (length R) (path_trans E) R)
      as [x Hx]; [done | done | | by apply (Hac x)].
    intros v Hv. pose proof (find_None_all _ _ Hfind v Hv) as Hnr.
    apply ready_false in Hnr as (p & Hp & HpR).
    exists p. split; [done|]. by apply path_edge.
Qed.

Lemma topo_loop_error fuel E R err :
  topo_loop fuel E R = inl err → err = CycleDetected.
Proof.
  revert R. induction fuel as [|fuel IH]; intros R.
  { destruct R; [done|]. by intros [= <-]. }
  destruct R as [|r R']; [done|]. cbn [topo_loop].
  destruct (List.find _ _) as [v|]; [|by intros [= <-]].
  destruct (topo_loop fuel E _) as [err'|order] eqn:Hrec; [|done].
  intros [= <-]. by apply (IH _ Hrec).
Qed.

(** C4. For a DAG whose identifiers are distinct and whose edges join nodes:
    if it is acyclic, [topological_order] returns a permutation of all node
    identifiers in which the producer of every edge comes before its
    consumer, and in which ties among nodes with no remaining dependency are
    broken by insertion order (the result is a function of nodes and edges,
    so identical constructions give identical orders); if it is cyclic,
    [topological_order] fails with [GraphError], cycle detected. *)
Theorem topological_order_correct (g : PipelineDAG) :
  dag_wf g →
  (acyclic (edges g) →
   ∃ order,
     topological_order g = inr order
     ∧ order ≡ₚ nodes g
     ∧ (∀ producer consumer,
          (producer, consumer) ∈ edges g → precedes order producer consumer)
     ∧ insertion_order_ties (nodes g) (edges g) order)
  ∧ (cyclic (edges g) → topological_order g = inl CycleDetected).
Proof.
  intros [Hnd Hends]. unfold topological_order. split.
  - intros Hac.
    destruct (topo_loop_acyclic (length (nodes g)) (edges g) (nodes g))
      as [order Horder]; [done | done | done |].
    exists order. split; [done|].
    destruct (topo_loop_inr _ _ _ _ Hnd Horder) as (Hperm & Hedges & Hties).
    split_and!; [done | | done].
    intros p c Hin. destruct (Hends p c Hin). by apply Hedges.
  - intros [x Hx].
    destruct (topo_loop (length (nodes g)) (edges g) (nodes g))
      as [err|order] eqn:Horder.
    { by rewrite (topo_loop_error _ _ _ _ Horder). }
    exfalso.
    destruct (topo_loop_inr _ _ _ _ Hnd Horder) as (Hperm & Hedges & _).
    assert (NoDup order) as Hnd' by by rewrite Hperm.
    assert (Hpath : ∀ u v, path (edges g) u v → precedes order u v).
    { induction 1 as [u v H|u m v H _ IH].
      - destruct (Hends u v H). by apply Hedges.
      - destruct (Hends u m H). eapply precedes_trans; [done| |done].
        by apply Hedges. }
    by apply (precedes_irrefl order x Hnd'), Hpath.
Qed.

(** ** The pipeline DAG: [add_edge] *)

Lemma reaches_sound fuel E A u t : reaches fuel E A u t = true → path E u t.
Proof.
  revert A u. induction fuel as [|fuel IH]; intros A u; [done|].
  cbn [reaches]. intros ([p c] & Hin & H)%existsb_exists.
  apply list_elem_of_In in Hin. cbn [fst snd] in H.
  apply andb_true_iff in H as [Hp H]. apply bool_decide_eq_true in Hp as ->.
  apply orb_true_iff in H as [H|H].
  - apply bool_decide_eq_true in H as ->. by apply path_edge.
  - apply andb_true_iff in H as [_ H]. eapply path_step; [done|].
    by eapply IH.
Qed.

(** A path from [x] can be cut so that it does not go through [m] again,
    possibly starting at [m] instead. *)
Lemma path_through_cut E A x t m :
  path_through E A x t →
  path_through E (without m A) x t ∨ path_through E (without m A) m t.
Proof.
  induction 1 as [u v H|u k v H Hk _ [IH|IH]].
  - left. by apply through_edge.
  - destruct (decide (k = m)) as [->|Hne]; [by right|].
    left. eapply through_step; [done| |done]. by apply elem_of_without.
  - by right.
Qed.

Lemma reaches_complete fuel E A u t :
  path_through E A u t → (length A < fuel)%nat → reaches fuel E A u t = true.
Proof.
  revert A u. induction fuel as [|fuel IH]; intros A u Hpath Hlen; [lia|].
  cbn [reaches]. apply existsb_exists.
  destruct Hpath as [u v H|u m v H Hm Hpath].
  - exists (u, v). split; [by apply list_elem_of_In|]. cbn [fst snd].
    rewrite (bool_decide_eq_true_2 (u = u)) by done.
    by rewrite (bool_decide_eq_true_2 (v = v)).
  - exists (u, m). split; [by apply list_elem_of_In|]. cbn [fst snd].
    rewrite (bool_decide_eq_true_2 (u = u)) by done.
    rewrite (bool_decide_eq_true_2 (m ∈ A)) by done.
    rewrite IH; [by rewrite orb_true_r| |].
    + by destruct (path_through_cut E A m v m Hpath).
    + pose proof (length_without m A Hm). lia.
Qed.

Lemma path_path_through E A u t :
  (∀ x y, (x, y) ∈ E → x ∈ A ∧ y ∈ A) →
  path E u t → path_through E A u t.
Proof.
  intros Hends. induction 1 as [u v H|u m v H _ IH].
  - by apply through_edge.
  - eapply through_step; [done| |done]. by destruct (Hends u m H).
Qed.

(** The check of [add_edge] decides whether the producer can be reached from
    the consumer. *)
Lemma reaches_path g u t :
  dag_wf g →
  reaches (S (length (nodes g))) (edges g) (nodes g) u t = true
  ↔ path (edges g) u t.
Proof.
  intros [_ Hends]. split; [apply reaches_sound|].
  intros Hpath. apply reaches_complete; [|lia].
  by apply path_path_through.
Qed.

Lemma path_mono E E' u v :
  (∀ e, e ∈ E → e ∈ E') → path E u v → path E' u v.
Proof.
  intros Hsub. induction 1 as [u v H|u m v H _ IH].
  - apply path_edge. by apply Hsub.
  - eapply path_step; [by apply Hsub | done].
Qed.

(** A path in the graph with the edge [p → c] added either is a path of the
    graph, or runs to [p], takes the new edge and goes on from [c]; unless
    [p] can already be reached from [c]. *)
Lemma path_new_edge E p c a b :
  path (E ++ [(p, c)]) a b →
  (p = c ∨ path E c p)
  ∨ path E a b
  ∨ ((a = p ∨ path E a p) ∧ (c = b ∨ path E c b)).
Proof.
  assert (Hsplit : ∀ x y, (x, y) ∈ E ++ [(p, c)] →
            (x, y) ∈ E ∨ (x = p ∧ y = c)).
  { intros x y [?|[= -> ->]%list_elem_of_singleton]%elem_of_app; auto. }
  induction 1 as [u v H|u m v H _ IH].
  - destruct (Hsplit _ _ H) as [?|[-> ->]].
    + right. left. by apply path_edge.
    + right. right. auto.
  - destruct IH as [?|[Hmv|[Hmp Hcv]]]; [by left|..];
      destruct (Hsplit _ _ H) as [HE|[-> ->]].
    + right. left. by eapply path_step.
    + right. right. auto.
    + right. right. split; [|done]. right.
      destruct Hmp as [->|?]; [by apply path_edge | by eapply path_step].
    + left. destruct Hmp as [->|?]; auto.
Qed.

Lemma new_edge_cycle E p c :
  acyclic E →
  (p = c ∨ path E c p) ↔ cyclic (E ++ [(p, c)]).
Proof.
  intros Hac. split.
  - assert (Hnew : (p, c) ∈ E ++ [(p, c)]).
    { apply elem_of_app. right. by left. }
    intros [->|Hpath].
    + exists c. by apply path_edge.
    + exists c. eapply path_trans; [|by apply path_edge].
      eapply path_mono; [|done]. intros e He. apply elem_of_app. by left.
  - intros [x Hx]. apply path_new_edge in Hx as [?|[Hx|[Hxp Hcx]]]; [done|..].
    + by destruct (Hac x).
    + destruct Hxp as [->|Hxp], Hcx as [->|Hcx]; auto.
      right. by eapply path_trans.
Qed.

Lemma dag_wf_empty : dag_wf empty_dag.
Proof.
  split; [apply NoDup_nil_2|]. intros u v H. by apply elem_of_nil in H.
Qed.

Lemma dag_wf_add_node id spec_ref g : dag_wf g → dag_wf (add_node id spec_ref g).
Proof.
  intros [Hnd Hends]. split; cbn [add_node nodes edges].
  - case_decide as Hin; [done|]. apply NoDup_app.
    split_and!; [done| |apply NoDup_singleton].
    intros x Hx ->%list_elem_of_singleton. done.
  - intros u v [Hu Hv]%Hends.
    case_decide; [done|]. split; apply elem_of_app; by left.
Qed.

Lemma add_edge_run p c g :
  add_edge p c g =
  if decide (p ∉ nodes g) then (Some (UnknownNode p), g)
  else if decide (c ∉ nodes g) then (Some (UnknownNode c), g)
  else if bool_decide (p = c)
          || reaches (S (length (nodes g))) (edges g) (nodes g) c p
       then (Some CycleDetected, g)
       else (None, {| nodes := nodes g; node_spec := node_spec g;
                      edges := edges g ++ [(p, c)] |}).
Proof. reflexivity. Qed.

Lemma dag_wf_add_edge p c g : dag_wf g → dag_wf (add_edge p c g).2.
Proof.
  intros Hwf. rewrite add_edge_run.
  destruct (decide (p ∉ nodes g)) as [Hp|Hp]; [done|].
  destruct (decide (c ∉ nodes g)) as [Hc|Hc]; [done|].
  destruct (bool_decide (p = c) || _); [done|].
  destruct Hwf as [Hnd Hends]. split; [done|]. cbn [snd nodes edges].
  intros u v [Hin|[= -> ->]%list_elem_of_singleton]%elem_of_app.
  - by apply Hends.
  - split; by apply dec_stable.
Qed.

Lemma acyclic_add_edge p c g :
  dag_wf g → acyclic (edges g) → acyclic (edges (add_edge p c g).2).
Proof.
  intros Hwf Hac. rewrite add_edge_run.
  destruct (decide (p ∉ nodes g)) as [Hp|Hp]; [done|].
  destruct (decide (c ∉ nodes g)) as [Hc|Hc]; [done|].
  destruct (bool_decide (p = c)
            || reaches (S (length (nodes g))) (edges g) (nodes g) c p)
    eqn:Hcheck; [done|].
  cbn [snd edges]. intros x Hx.
  apply orb_false_iff in Hcheck as [H1%bool_decide_eq_false H2].
  assert (cyclic (edges g ++ [(p, c)])) as Hcyc by by exists x.
  apply new_edge_cycle in Hcyc as [?|Hpath]; [done| |done].
  apply (reaches_path g c p Hwf) in Hpath. congruence.
Qed.

Lemma acyclic_nil : acyclic [].
Proof.
  intros v Hv. destruct Hv as [u v H|u m v H _]; by apply elem_of_nil in H.
Qed.

Lemma scenario_dag_wf : dag_wf scenario_dag.
Proof.
  unfold scenario_dag. cbn zeta.
  repeat first [ apply dag_wf_add_edge | apply dag_wf_add_node ].
  apply dag_wf_empty.
Qed.

Lemma scenario_dag_acyclic : acyclic (edges scenario_dag).
Proof.
  unfold scenario_dag. cbn zeta.
  apply acyclic_add_edge;
    [repeat first [ apply dag_wf_add_edge | apply dag_wf_add_node ];
     apply dag_wf_empty|].
  apply acyclic_add_edge;
    [repeat first [ apply dag_wf_add_edge | apply dag_wf_add_node ];
     apply dag_wf_empty|].
  apply acyclic_nil.
Qed.

(** C6. On a DAG whose identifiers are distinct and whose edges join nodes,
    [add_edge] fails exactly when an endpoint is unknown or the edge would
    close a cycle (the producer is the consumer or is reachable from it; on
    an acyclic DAG that is: the graph with the edge has a cycle).  The
    failure is a [GraphError] and leaves the DAG exactly as it was.  A call
    that succeeds adds the edge and keeps the DAG well formed and acyclic.
    Adding [C → A] to [A → B → C] fails with cycle detected and leaves the
    DAG unchanged. *)
Theorem add_edge_fails_unchanged (p c : string) (g : PipelineDAG) :
  dag_wf g →
  let r := add_edge p c g in
  (is_Some r.1 ↔ p ∉ nodes g ∨ c ∉ nodes g ∨ p = c ∨ path (edges g) c p)
  ∧ (acyclic (edges g) →
     (p = c ∨ path (edges g) c p) ↔ cyclic (edges g ++ [(p, c)]))
  ∧ (is_Some r.1 → r.2 = g)
  ∧ (r.1 = None →
     nodes r.2 = nodes g
     ∧ edges r.2 = edges g ++ [(p, c)]
     ∧ dag_wf r.2
     ∧ (acyclic (edges g) → acyclic (edges r.2)))
  ∧ add_edge "C" "A" scenario_dag = (Some CycleDetected, scenario_dag).
Proof.
  intros Hwf r. subst r. rewrite add_edge_run.
  pose proof (reaches_path g c p Hwf) as Hreach.
  split_and!.
  - destruct (decide (p ∉ nodes g)) as [Hp|Hp]; [by split; eauto|].
    destruct (decide (c ∉ nodes g)) as [Hc|Hc]; [by split; eauto|].
    destruct (bool_decide (p = c)
              || reaches (S (length (nodes g))) (edges g) (nodes g) c p)
      eqn:Hcheck; cbn [fst].
    + split; [intros _ | by eauto]. right. right.
      apply orb_true_iff in Hcheck as [H%bool_decide_eq_true|H%Hreach]; auto.
    + apply orb_false_iff in Hcheck as [H1%bool_decide_eq_false H2].
      split; [by intros [? ?]|].
      intros [?|[?|[?|Hpath%Hreach]]]; [done..|congruence].
  - apply new_edge_cycle.
  - destruct (decide (p ∉ nodes g)); [done|].
    destruct (decide (c ∉ nodes g)); [done|].
    destruct (bool_decide (p = c) || _); [done|]. by intros [? ?].
  - destruct (decide (p ∉ nodes g)) as [Hp|Hp]; [done|].
    destruct (decide (c ∉ nodes g)) as [Hc|Hc]; [done|].
    destruct (bool_decide (p = c)
              || reaches (S (length (nodes g))) (edges g) (nodes g) c p)
      eqn:Hcheck; [done|].
    intros _. cbn [snd nodes edges]. split_and!; [done | done | |].
    + destruct Hwf as [Hnd Hends]. split; [done|]. cbn [nodes edges].
      intros u v [Hin|[= -> ->]%list_elem_of_singleton]%elem_of_app.
      * by apply Hends.
      * split; by apply dec_stable.
    + intros Hac x Hx.
      apply orb_false_iff in Hcheck as [H1%bool_decide_eq_false H2].
      assert (cyclic (edges g ++ [(p, c)])) as Hcyc by by exists x.
      apply new_edge_cycle in Hcyc as [?|Hpath%Hreach]; [done|congruence|done].
  - vm_compute. reflexivity.
Qed.

Lemma topological_order_correct_witness :
  ∃ order,
    topological_order scenario_dag = inr order
    ∧ order ≡ₚ nodes scenario_dag
    ∧ (∀ producer consumer,
         (producer, consumer) ∈ edges scenario_dag →
         precedes order producer consumer)
    ∧ insertion_order_ties (nodes scenario_dag) (edges scenario_dag) order.
Proof.
  destruct (topological_order_correct scenario_dag scenario_dag_wf) as [H _].
  exact (H scenario_dag_acyclic).
Defined.

Lemma add_edge_fails_unchanged_witness :
  (add_edge "C" "A" scenario_dag).2 = scenario_dag
  ∧ (add_edge "A" "D" scenario_dag).2 = scenario_dag
  ∧ edges (add_edge "A" "C" scenario_dag).2
    = edges scenario_dag ++ [("A", "C")].
Proof.
  destruct (add_edge_fails_unchanged "C" "A" scenario_dag scenario_dag_wf)
    as (_ & _ & H1 & _).
  destruct (add_edge_fails_unchanged "A" "D" scenario_dag scenario_dag_wf)
    as (_ & _ & H2 & _).
  destruct (add_edge_fails_unchanged "A" "C" scenario_dag scenario_dag_wf)
    as (_ & _ & _ & H3 & _).
  split_and!.
  - apply H1. vm_compute. by eexists.
  - apply H2. vm_compute. by eexists.
  - apply H3. vm_compute. reflexivity.
Defined.

(** Insertion order decides among free nodes: with [C] inserted first and
    the single edge [A → B], the order is [C], [A], [B]. *)
Example topological_order_ties :
  topological_order
    (add_edge "A" "B"
       (add_node "B" "StepB" (add_node "A" "StepA"
          (add_node "C" "StepC" empty_dag)))).2
  = inr ["C"; "A"; "B"].
Proof. vm_compute. reflexivity. Qed.

(** ** The dependency resolver *)

Section resolver_facts.

Variable weights : Weights.

Lemma at_least_as_good_preferred dep a b :
  at_least_as_good weights dep a b = true ↔ preferred weights dep a b.
Proof.
  unfold at_least_as_good, preferred.
  destruct (Qcompare_spec (score weights dep a) (score weights dep b))
    as [Hs|Hs|Hs].
  - destruct (Nat.compare_spec (cand_rank a) (cand_rank b)) as [Hr|Hr|Hr].
    + split.
      * intros H. right. split; [by symmetry|]. right. split; [done|].
        unfold String.le. by rewrite H.
      * intros [H|[_ [H|[_ H]]]]; [lra | lia |].
        unfold String.le in H. by apply Is_true_true.
    + split; [intros _; right; split; [by symmetry | by left] | done].
    + split; [done|]. intros [H|[_ [H|[H _]]]]; [lra | lia | lia].
  - split; [done|]. intros [H|[H _]]; lra.
  - split; [by left | done].
Qed.

Lemma preferred_total dep a b :
  preferred weights dep a b ∨ preferred weights dep b a.
Proof.
  unfold preferred.
  destruct (Qcompare_spec (score weights dep a) (score weights dep b))
    as [Hs|Hs|Hs]; [|by right; left | by left; left].
  destruct (Nat.compare_spec (cand_rank a) (cand_rank b)) as [Hr|Hr|Hr].
  - destruct (total String.le (out_logical_name (cand_output a))
                (out_logical_name (cand_output b))).
    + left. right. split; [by symmetry|]. by right.
    + right. right. split; [done|]. by right.
  - left. right. split; [by symmetry | by left].
  - right. right. split; [done | by left].
Qed.

Lemma preferred_trans dep a b c :
  preferred weights dep a b → preferred weights dep b c →
  preferred weights dep a c.
Proof.
  unfold preferred.
  intros [H1|[E1 H1]] [H2|[E2 H2]]; [left; lra | left; lra | left; lra |].
  right. split; [lra|].
  destruct H1 as [H1|[R1 L1]], H2 as [H2|[R2 L2]];
    [left; lia | left; lia | left; lia |].
  right. split; [congruence|]. by etrans.
Qed.

Lemma preferred_antisym dep a b :
  preferred weights dep a b → preferred weights dep b a →
  cand_rank a = cand_rank b
  ∧ out_logical_name (cand_output a) = out_logical_name (cand_output b).
Proof.
  unfold preferred.
  intros [H1|[E1 H1]] [H2|[E2 H2]]; [lra | lra | lra |].
  destruct H1 as [H1|[R1 L1]], H2 as [H2|[R2 L2]]; [lia | lia | lia |].
  split; [done|]. by apply (anti_symm String.le).
Qed.

(** The fold keeps a candidate that is preferred to all it has seen. *)
Lemma select_best_from dep cands b :
  let step := λ (best : option Candidate) c,
    match best with
    | None => Some c
    | Some b => if at_least_as_good weights dep b c then Some b else Some c
    end in
  ∃ m, foldl step (Some b) cands = Some m
       ∧ (m = b ∨ m ∈ cands)
       ∧ preferred weights dep m b
       ∧ ∀ c, c ∈ cands → preferred weights dep m c.
Proof.
  intros step. revert b. induction cands as [|c cands IH]; intros b.
  { exists b. split_and!; [done | by left | | ].
    - destruct (preferred_total dep b b); done.
    - intros c Hc. by apply elem_of_nil in Hc. }
  cbn [foldl]. unfold step at 2.
  destruct (at_least_as_good weights dep b c) eqn:Hbc.
  - apply at_least_as_good_preferred in Hbc.
    destruct (IH b) as (m & Hm & Hin & Hmb & Hall).
    exists m. split_and!; [done | | done |].
    + destruct Hin; [by left | right; by right].
    + intros c' [->|Hc']%elem_of_cons; [|by apply Hall].
      by eapply preferred_trans.
  - assert (preferred weights dep c b) as Hcb.
    { destruct (preferred_total dep b c) as [H|H]; [|done].
      apply at_least_as_good_preferred in H. congruence. }
    destruct (IH c) as (m & Hm & Hin & Hmc & Hall).
    exists m. split_and!; [done | | |].
    + right. destruct Hin as [->|?]; [by left | by right].
    + by eapply preferred_trans.
    + intros c' [->|Hc']%elem_of_cons; [done | by apply Hall].
Qed.

Lemma select_best_Some dep cands m :
  select_best weights dep cands = Some m →
  m ∈ cands ∧ ∀ c, c ∈ cands → preferred weights dep m c.
Proof.
  unfold select_best. destruct cands as [|b cands]; [done|].
  cbn [foldl]. destruct (select_best_from dep cands b) as (m' & Hm & Hin & Hb & Hall).
  cbn zeta in Hm. rewrite Hm. intros [= <-]. split.
  - destruct Hin as [->|?]; [by left | by right].
  - intros c [->|Hc]%elem_of_cons; [done | by apply Hall].
Qed.

(** The rank of a candidate is the place of its producer in the order. *)
Lemma candidates_rank g specs order consumer c :
  c ∈ candidates g specs order consumer →
  order !! cand_rank c = Some (cand_producer c).
Proof.
  unfold candidates. intros Hc%list_elem_of_In.
  apply in_flat_map in Hc as ([rank producer] & Hrp & Hc).
  apply list_elem_of_In, elem_of_lookup_imap in Hrp as (i & p & [= -> ->] & Hi).
  destruct (reaches _ _ _ _ _); [|done].
  destruct (specs !! p) as [sp|]; [|done].
  apply in_map_iff in Hc as (o & <- & _). done.
Qed.

Lemma resolve_among_Some dep cands chosen :
  resolve_among weights dep cands = Some chosen →
  wins weights dep cands chosen.
Proof.
  unfold resolve_among.
  destruct (select_best _ _ _) as [best|] eqn:Hbest; [|done].
  destruct (Qle_bool _ _) eqn:Hfloor; [|done]. intros [= <-].
  apply select_best_Some in Hbest as [Hin Hall].
  apply Qle_bool_iff in Hfloor. done.
Qed.

Lemma resolve_dependency_Some g specs order consumer dep chosen :
  resolve_dependency weights g specs order consumer dep = Some chosen →
  chosen ∈ candidates g specs order consumer
  ∧ (confidence_floor weights <= score weights dep chosen)%Q
  ∧ ∀ c, c ∈ candidates g specs order consumer →
         preferred weights dep chosen c.
Proof. apply resolve_among_Some. Qed.

Lemma preferred_score dep a b :
  preferred weights dep a b → (score weights dep b <= score weights dep a)%Q.
Proof. unfold preferred. intros [H|[H _]]; lra. Qed.

Lemma select_best_nonempty dep c cands :
  ∃ m, select_best weights dep (c :: cands) = Some m.
Proof.
  unfold select_best. cbn [foldl].
  destruct (select_best_from dep cands c) as (m & Hm & _). by exists m.
Qed.

Lemma select_best_None dep cands :
  select_best weights dep cands = None → cands = [].
Proof.
  destruct cands as [|c cands]; [done|].
  destruct (select_best_nonempty dep c cands) as [m ->]. done.
Qed.

(** Two candidates that are each preferred to the other are bound alike. *)
Lemma preferred_binding dep (order : list string)
    (cands : list Candidate) a b :
  (∀ c, c ∈ cands → order !! cand_rank c = Some (cand_producer c)) →
  a ∈ cands → b ∈ cands →
  preferred weights dep a b → preferred weights dep b a →
  binding a = binding b ∧ (score weights dep a == score weights dep b)%Q.
Proof.
  intros Hrank Ha Hb Hab Hba.
  destruct (preferred_antisym dep a b Hab Hba) as [Hr Hn].
  pose proof (preferred_score dep a b Hab).
  pose proof (preferred_score dep b a Hba).
  split; [|lra]. unfold binding. rewrite Hn. f_equal.
  pose proof (Hrank a Ha) as H1. pose proof (Hrank b Hb) as H2.
  rewrite Hr in H1. congruence.
Qed.

(** A candidate that wins is the one resolved, up to what is bound. *)
Lemma wins_resolve dep (order : list string) (cands : list Candidate)
    chosen :
  (∀ c, c ∈ cands → order !! cand_rank c = Some (cand_producer c)) →
  wins weights dep cands chosen →
  ∃ best, resolve_among weights dep cands = Some best
          ∧ binding best = binding chosen.
Proof.
  intros Hrank (Hin & Hfloor & Hall).
  destruct cands as [|c0 cands0]; [by apply elem_of_nil in Hin|].
  destruct (select_best_nonempty dep c0 cands0) as [best Hbest].
  pose proof (select_best_Some dep _ _ Hbest) as [Hbin Hball].
  destruct (preferred_binding dep order _ best chosen Hrank Hbin Hin
              (Hball _ Hin) (Hall _ Hbin)) as [Hb Hs].
  exists best. split; [|done]. unfold resolve_among. rewrite Hbest.
  assert (Qle_bool (confidence_floor weights) (score weights dep best) = true)
    as ->; [|done].
  apply Qle_bool_iff. lra.
Qed.

Lemma resolve_among_None dep cands :
  resolve_among weights dep cands = None →
  ∀ c, c ∈ cands → (score weights dep c < confidence_floor weights)%Q.
Proof.
  unfold resolve_among.
  destruct (select_best _ _ _) as [best|] eqn:Hbest.
  - destruct (Qle_bool _ _) eqn:Hf; [done|]. intros _ c Hc.
    apply select_best_Some in Hbest as [_ Hall].
    pose proof (preferred_score dep best c (Hall c Hc)).
    assert (¬ (confidence_floor weights <= score weights dep best)%Q).
    { rewrite <- Qle_bool_iff. congruence. }
    lra.
  - intros _ c Hc. apply select_best_None in Hbest as ->.
    by apply elem_of_nil in Hc.
Qed.

Lemma wins_perm dep (cands cands' : list Candidate) chosen :
  cands' ≡ₚ cands → wins weights dep cands chosen →
  wins weights dep cands' chosen.
Proof.
  intros Hperm (Hin & Hfloor & Hall). split_and!; [|done|].
  - by rewrite Hperm.
  - intros c Hc. apply Hall. by rewrite <- Hperm.
Qed.

Lemma resolve_among_perm dep (order : list string)
    (cands cands' : list Candidate) :
  (∀ c, c ∈ cands → order !! cand_rank c = Some (cand_producer c)) →
  cands' ≡ₚ cands →
  binding <$> resolve_among weights dep cands'
  = binding <$> resolve_among weights dep cands.
Proof.
  intros Hrank Hperm.
  assert (Hrank' : ∀ c, c ∈ cands' →
                        order !! cand_rank c = Some (cand_producer c)).
  { intros c Hc. apply Hrank. by rewrite <- Hperm. }
  destruct (resolve_among weights dep cands) as [best|] eqn:Hres.
  - apply resolve_among_Some in Hres.
    apply (wins_perm dep cands cands') in Hres; [|done].
    destruct (wins_resolve dep order cands' best Hrank' Hres)
      as (best' & -> & Hb).
    cbn [fmap option_fmap option_map]. by rewrite Hb.
  - destruct (resolve_among weights dep cands') as [best'|] eqn:Hres';
      [|done].
    apply resolve_among_Some in Hres'.
    apply (wins_perm dep cands' cands) in Hres'; [|done].
    destruct (wins_resolve dep order cands best' Hrank Hres')
      as (best & Hbest & _).
    congruence.
Qed.

Lemma justified_empty g specs order : justified weights g specs order ∅.
Proof. intros consumer dname producer oname. by rewrite lookup_empty. Qed.

Lemma justified_resolve_one g specs order consumer sp acc dep :
  specs !! consumer = Some sp →
  dep ∈ od_values (spec_dependencies sp) →
  justified weights g specs order acc.1 →
  justified weights g specs order
    (resolve_one weights g specs order consumer acc dep).1.
Proof.
  intros Hsp Hdep Hj. unfold resolve_one.
  destruct (resolve_dependency weights g specs order consumer dep)
    as [best|] eqn:Hres.
  2:{ by destruct (required dep). }
  apply resolve_dependency_Some in Hres as (Hin & Hfloor & Hall).
  cbn [fst]. intros consumer' dname producer oname.
  destruct (decide ((consumer, dep_logical_name dep) = (consumer', dname)))
    as [[= <- <-]|Hne].
  - rewrite lookup_insert_eq. unfold binding. intros [= <- <-].
    exists sp, dep, best. split_and!; try done.
    + by apply (candidates_rank g specs order consumer).
    + intros c Hc Hcall.
      by apply (preferred_antisym dep); [apply Hcall | apply Hall].
  - rewrite lookup_insert_ne by done. apply Hj.
Qed.

Lemma justified_resolve_step g specs order acc consumer :
  justified weights g specs order acc.1 →
  justified weights g specs order
    (resolve_step weights g specs order acc consumer).1.
Proof.
  unfold resolve_step. destruct (specs !! consumer) as [sp|] eqn:Hsp; [|done].
  assert (Hdeps : ∀ dep, dep ∈ od_values (spec_dependencies sp) →
                         dep ∈ od_values (spec_dependencies sp)) by done.
  revert Hdeps. generalize (od_values (spec_dependencies sp)) at 1 3.
  intros deps. revert acc. induction deps as [|dep deps IH]; intros acc Hdeps Hj.
  { done. }
  cbn [foldl]. apply IH; [intros d Hd; apply Hdeps; by right|].
  apply (justified_resolve_one g specs order consumer sp); [done | | done].
  apply Hdeps. by left.
Qed.

Lemma justified_foldl g specs order steps acc :
  justified weights g specs order acc.1 →
  justified weights g specs order
    (foldl (resolve_step weights g specs order) acc steps).1.
Proof.
  revert acc. induction steps as [|s steps IH]; intros acc Hj; [done|].
  cbn [foldl]. apply IH. by apply justified_resolve_step.
Qed.

(** *** What the folds leave alone, and what they add *)

Lemma resolve_one_other g specs order consumer acc dep key :
  key ≠ (consumer, dep_logical_name dep) →
  (resolve_one weights g specs order consumer acc dep).1 !! key
  = acc.1 !! key.
Proof.
  intros Hne. unfold resolve_one.
  destruct (resolve_dependency _ _ _ _ _ _) as [best|].
  - cbn [fst]. by rewrite lookup_insert_ne.
  - by destruct (required dep).
Qed.

Lemma resolve_one_unresolved g specs order consumer acc dep :
  ∃ l, (resolve_one weights g specs order consumer acc dep).2 = acc.2 ++ l.
Proof.
  unfold resolve_one. destruct (resolve_dependency _ _ _ _ _ _) as [best|].
  - exists []. by rewrite app_nil_r.
  - destruct (required dep); [by eexists|]. exists []. by rewrite app_nil_r.
Qed.

Lemma foldl_resolve_one_other g specs order consumer deps acc key :
  (∀ d, d ∈ deps → key ≠ (consumer, dep_logical_name d)) →
  (foldl (resolve_one weights g specs order consumer) acc deps).1 !! key
  = acc.1 !! key.
Proof.
  revert acc. induction deps as [|d deps IH]; intros acc H; [done|].
  cbn [foldl]. rewrite IH by (intros d' Hd'; apply H; by right).
  apply resolve_one_other, H. by left.
Qed.

Lemma foldl_resolve_one_unresolved g specs order consumer deps acc :
  ∃ l, (foldl (resolve_one weights g specs order consumer) acc deps).2
       = acc.2 ++ l.
Proof.
  revert acc. induction deps as [|d deps IH]; intros acc.
  { exists []. by rewrite app_nil_r. }
  cbn [foldl].
  destruct (IH (resolve_one weights g specs order consumer acc d)) as [l ->].
  destruct (resolve_one_unresolved g specs order consumer acc d) as [l' ->].
  exists (l' ++ l). by rewrite (assoc_L (++)).
Qed.

Lemma foldl_resolve_one_key g specs order consumer deps acc dep :
  NoDup (map dep_logical_name deps) →
  dep ∈ deps →
  settled weights g specs order consumer dep acc
    (foldl (resolve_one weights g specs order consumer) acc deps).
Proof.
  revert acc. induction deps as [|d deps IH]; intros acc Hnd Hin.
  { by apply elem_of_nil in Hin. }
  cbn [map] in Hnd. apply NoDup_cons in Hnd as [Hd Hnd]. cbn [foldl].
  apply elem_of_cons in Hin as [->|Hdeps].
  2:{ specialize (IH (resolve_one weights g specs order consumer acc d)
                    Hnd Hdeps).
      unfold settled in *.
      destruct (resolve_dependency weights g specs order consumer dep);
        [done|].
      destruct IH as [-> Hreq]. split; [|done].
      apply resolve_one_other. intros [= Hname]. apply Hd.
      rewrite <- Hname. by apply (list_elem_of_fmap_2 dep_logical_name). }
  - assert (Hkey : ∀ d', d' ∈ deps →
              (consumer, dep_logical_name d)
              ≠ (consumer, dep_logical_name d')).
    { intros d' Hd' [= Hname]. apply Hd. rewrite Hname.
      by apply (list_elem_of_fmap_2 dep_logical_name). }
    unfold settled.
    rewrite (foldl_resolve_one_other g specs order consumer deps _ _ Hkey).
    destruct (foldl_resolve_one_unresolved g specs order consumer deps
                (resolve_one weights g specs order consumer acc d))
      as [l Hl].
    rewrite Hl. unfold resolve_one.
    destruct (resolve_dependency weights g specs order consumer d)
      as [best|].
    + cbn [fst]. by rewrite lookup_insert_eq.
    + destruct (required d); [|done]. split; [done|]. intros _. cbn [snd].
      rewrite <- (assoc_L (++)). intros H%app_eq_nil. by destruct H.
Qed.

Lemma resolve_step_other g specs order acc consumer key :
  key.1 ≠ consumer →
  (resolve_step weights g specs order acc consumer).1 !! key = acc.1 !! key.
Proof.
  intros Hne. unfold resolve_step. destruct (specs !! consumer); [|done].
  apply foldl_resolve_one_other. intros d _ ->. by apply Hne.
Qed.

Lemma resolve_step_unresolved g specs order acc consumer :
  ∃ l, (resolve_step weights g specs order acc consumer).2 = acc.2 ++ l.
Proof.
  unfold resolve_step. destruct (specs !! consumer).
  - apply foldl_resolve_one_unresolved.
  - exists []. by rewrite app_nil_r.
Qed.

Lemma foldl_resolve_step_other g specs order steps acc key :
  key.1 ∉ steps →
  (foldl (resolve_step weights g specs order) acc steps).1 !! key
  = acc.1 !! key.
Proof.
  revert acc. induction steps as [|s steps IH]; intros acc H; [done|].
  apply not_elem_of_cons in H as [Hs H]. cbn [foldl].
  rewrite IH by done. by apply resolve_step_other.
Qed.

Lemma foldl_resolve_step_unresolved g specs order steps acc :
  ∃ l, (foldl (resolve_step weights g specs order) acc steps).2 = acc.2 ++ l.
Proof.
  revert acc. induction steps as [|s steps IH]; intros acc.
  { exists []. by rewrite app_nil_r. }
  cbn [foldl].
  destruct (IH (resolve_step weights g specs order acc s)) as [l ->].
  destruct (resolve_step_unresolved g specs order acc s) as [l' ->].
  exists (l' ++ l). by rewrite (assoc_L (++)).
Qed.

Lemma foldl_resolve_step_key g specs order steps acc consumer sp dep :
  NoDup steps →
  consumer ∈ steps →
  specs !! consumer = Some sp →
  NoDup (map dep_logical_name (od_values (spec_dependencies sp))) →
  dep ∈ od_values (spec_dependencies sp) →
  settled weights g specs order consumer dep acc
    (foldl (resolve_step weights g specs order) acc steps).
Proof.
  intros Hnd Hin Hsp Hnames Hdep.
  apply list_elem_of_split in Hin as (l1 & l2 & ->).
  apply NoDup_app in Hnd as (_ & Hl1 & Hnd).
  apply NoDup_cons in Hnd as [Hl2 _].
  rewrite foldl_app. cbn [foldl].
  set (acc1 := foldl (resolve_step weights g specs order) acc l1).
  set (acc2 := resolve_step weights g specs order acc1 consumer).
  assert (H1 : acc1.1 !! (consumer, dep_logical_name dep)
               = acc.1 !! (consumer, dep_logical_name dep)).
  { apply foldl_resolve_step_other. cbn [fst]. intros H.
    by apply (Hl1 consumer H), list_elem_of_here. }
  assert (H2 : settled weights g specs order consumer dep acc1 acc2).
  { subst acc2. unfold resolve_step. rewrite Hsp.
    by apply foldl_resolve_one_key. }
  assert (H3 : (foldl (resolve_step weights g specs order) acc2 l2).1
               !! (consumer, dep_logical_name dep)
               = acc2.1 !! (consumer, dep_logical_name dep)).
  { by apply foldl_resolve_step_other. }
  destruct (foldl_resolve_step_unresolved g specs order l2 acc2) as [l Hl].
  unfold settled in *. rewrite H3, Hl.
  destruct (resolve_dependency weights g specs order consumer dep);
    [done|].
  destruct H2 as [-> Hreq]. split; [done|].
  intros Hr H%app_eq_nil. by destruct H as [H%(Hreq Hr) _].
Qed.

Lemma node_specifications_lookup g reg ids specs :
  node_specifications g reg ids = inr specs →
  (∀ id, id ∈ ids → is_Some (specs !! id))
  ∧ (∀ id sp, specs !! id = Some sp → ∃ st, reg !! st = Some sp).
Proof.
  revert specs. induction ids as [|id0 ids IH]; intros specs.
  { intros [= <-]. split.
    - intros id Hid. by apply elem_of_nil in Hid.
    - intros id sp. by rewrite lookup_empty. }
  cbn [node_specifications]. unfold get.
  destruct (reg !! default "" (node_spec g !! id0)) as [sp0|] eqn:Hreg;
    [|done].
  destruct (node_specifications g reg ids) as [e|specs'] eqn:Hrest; [done|].
  intros [= <-]. destruct (IH specs' eq_refl) as [IH1 IH2]. split.
  - intros id [->|Hid]%elem_of_cons.
    + rewrite lookup_insert_eq. by eexists.
    + destruct (decide (id0 = id)) as [->|Hne].
      * rewrite lookup_insert_eq. by eexists.
      * rewrite lookup_insert_ne by done. by apply IH1.
  - intros id sp. destruct (decide (id0 = id)) as [->|Hne].
    + rewrite lookup_insert_eq. intros [= <-]. by eexists.
    + rewrite lookup_insert_ne by done. apply IH2.
Qed.

End resolver_facts.

Lemma two_producers_wf : dag_wf ResolverFixtures.two_producers.
Proof.
  unfold ResolverFixtures.two_producers. cbn zeta.
  repeat first [ apply dag_wf_add_edge | apply dag_wf_add_node
               | apply dag_wf_empty ].
Qed.

Lemma registry_insert reg st st' nt deps outs :
  registry reg → reg !! st = None →
  registry (<[ st := StepSpecification_init st' nt deps outs ]> reg).
Proof.
  intros Hreg Hst. eapply registry_register; [exact Hreg|].
  unfold register. by rewrite Hst.
Qed.

Lemma fixtures_registry : registry ResolverFixtures.registry.
Proof.
  unfold ResolverFixtures.registry, list_to_map. cbn [foldr fst snd].
  repeat (apply registry_insert; [|vm_compute; reflexivity]).
  apply registry_empty.
Qed.

(** C5. Two runs of [resolve] on the same DAG and registry give the same
    binding plan, [resolve] being a function; what makes the plan
    independent of chance is proved here.  Let the DAG and the registry
    satisfy the invariants of the data model and let [resolve] return a
    plan.  Then, with the topological order of the nodes and the
    specification of each:
    - every entry of the plan binds the dependency to a candidate that no
      other candidate beats: any other candidate has a lower score, or the
      same score and a producer later in topological order, or the same
      score and producer and an output logical name that is not smaller in
      lexicographic order; the producer and the output name chosen are the
      only ones with that property;
    - nothing is left out: for every dependency of every node, a candidate
      that reaches the confidence floor and that no other candidate beats is
      the one bound, and a dependency that is not bound is optional and has
      no candidate at the confidence floor;
    - what is bound does not depend on the order in which the candidates are
      met. *)
Theorem resolve_deterministic
    (weights : Weights) (g : PipelineDAG)
    (reg : gmap string StepSpecification)
    (plan : gmap (string * string) (string * string)) :
  dag_wf g →
  registry reg →
  resolve weights g reg = inr plan →
  ∃ order specs,
    topological_order g = inr order
    ∧ order ≡ₚ nodes g
    ∧ node_specifications g reg (nodes g) = inr specs
    ∧ (∀ id, id ∈ nodes g → is_Some (specs !! id))
    ∧ justified weights g specs order plan
    ∧ complete weights g specs order plan
    ∧ order_independent weights g specs order.
Proof.
  intros [Hnodes Hedges] Hreg. unfold resolve.
  destruct (topological_order g) as [e|order] eqn:Horder; [done|].
  destruct (node_specifications g reg (nodes g)) as [e|specs] eqn:Hspecs;
    [done|].
  pose proof (justified_foldl weights g specs order order (∅, [])
                (justified_empty weights g specs order)) as Hj.
  destruct (topo_loop_inr _ _ _ _ Hnodes Horder) as (Hperm & _).
  destruct (node_specifications_lookup g reg _ _ Hspecs) as [Hsome Hfrom].
  pose proof (foldl_resolve_step_key weights g specs order order (∅, []))
    as Hkey.
  destruct (foldl _ _ _) as [plan' unresolved].
  destruct unresolved; [|done]. intros [= <-].
  exists order, specs. split_and!; try done.
  - intros consumer sp dep Hin Hsp Hdep.
    destruct (Hfrom consumer sp Hsp) as [st Hst].
    destruct (registry_distinct reg st sp Hreg Hst) as [Hdistinct _].
    assert (Hset := Hkey consumer sp dep).
    unfold settled in Hset. cbn [fst snd] in Hset.
    specialize (Hset ltac:(by rewrite Hperm) ltac:(by rewrite Hperm) Hsp
                  Hdistinct Hdep).
    split.
    + intros chosen Hwins.
      destruct (wins_resolve weights dep order _ chosen
                  (candidates_rank g specs order consumer) Hwins)
        as (best & Hbest & Hb).
      unfold resolve_dependency in Hset. rewrite Hbest in Hset.
      by rewrite Hset, Hb.
    + intros Hnone.
      destruct (resolve_dependency weights g specs order consumer dep)
        as [best|] eqn:Hres; [congruence|].
      destruct Hset as [_ Hreq]. split.
      * destruct (required dep); [by destruct (Hreq eq_refl) | done].
      * by apply resolve_among_None.
  - intros consumer dep cands' Hcands.
    apply (resolve_among_perm weights dep order); [|done].
    apply candidates_rank.
Qed.

Lemma resolve_deterministic_witness :
  ∃ order specs,
    topological_order ResolverFixtures.two_producers = inr order
    ∧ order ≡ₚ nodes ResolverFixtures.two_producers
    ∧ node_specifications ResolverFixtures.two_producers
        ResolverFixtures.registry (nodes ResolverFixtures.two_producers)
      = inr specs
    ∧ (∀ id, id ∈ nodes ResolverFixtures.two_producers →
             is_Some (specs !! id))
    ∧ justified ResolverFixtures.weights ResolverFixtures.two_producers
        specs order {[ ("B", "training_data") := ("A2", "data") ]}
    ∧ complete ResolverFixtures.weights ResolverFixtures.two_producers
        specs order {[ ("B", "training_data") := ("A2", "data") ]}
    ∧ order_independent ResolverFixtures.weights
        ResolverFixtures.two_producers specs order.
Proof.
  apply (resolve_deterministic ResolverFixtures.weights
           ResolverFixtures.two_producers ResolverFixtures.registry).
  - apply two_producers_wf.
  - apply fixtures_registry.
  - vm_compute. reflexivity.
Defined.

(** At equal score the producer that is earlier in topological order wins,
    and for one producer the output whose logical name is smaller. *)
Example resolve_ties :
  resolve ResolverFixtures.weights ResolverFixtures.two_producers
    ResolverFixtures.registry
  = inr {[ ("B", "training_data") := ("A2", "data") ]}
  ∧ resolve ResolverFixtures.weights ResolverFixtures.two_outputs
      ResolverFixtures.registry
    = inr {[ ("B", "training_data") := ("A", "data_a") ]}.
Proof. split; vm_compute; reflexivity. Qed.

(** * Further properties of the builder *)

(** ** [validate_configuration]: which attribute is reported *)

Lemma attr_given_iff (c : Config) (attr : string) :
  attr_given c attr ↔ attr_missing c attr = false.
Proof.
  unfold attr_given. split.
  - intros (v & Hv & H1 & H2). apply not_true_iff_false.
    intros [H|[H|H]]%attr_missing_iff; congruence.
  - intros H. destruct (attrs c !! attr) as [v|] eqn:E.
    + exists v. split; [done|].
      split; intros ->; apply not_true_iff_false in H; apply H;
        apply attr_missing_iff; auto.
    + apply not_true_iff_false in H. destruct H. apply attr_missing_iff. auto.
Qed.

Lemma find_first_Some {A} (f : A → bool) (pre post : list A) (x : A) :
  (∀ y, y ∈ pre → f y = false) → f x = true →
  List.find f (pre ++ x :: post) = Some x.
Proof.
  intros Hpre Hx. induction pre as [|a pre IH]; cbn [app List.find].
  - by rewrite Hx.
  - rewrite (Hpre a) by by left. apply IH. intros y Hy. apply Hpre. by right.
Qed.

Lemma find_all_false {A} (f : A → bool) (l : list A) :
  (∀ y, y ∈ l → f y = false) → List.find f l = None.
Proof.
  intros H. induction l as [|a l IH]; [done|]. cbn [List.find].
  rewrite (H a) by by left. apply IH. intros y Hy. apply H. by right.
Qed.

(** X1. [validate_configuration] reports the first attribute of its list
    that is missing, [None] or empty, and stops there with one log record
    written; when all seven are given it returns with three records written.
    Neither run touches the builder. *)
Theorem validate_configuration_first_missing (w : World) :
  let c := config (w_self w) in
  let started := add_log w (INFO, "Validating PyTorchTrainingConfig...") in
  (∀ pre attr post,
     [ "training_instance_type"; "training_instance_count";
       "training_volume_size"; "training_entry_point"; "source_dir";
       "framework_version"; "py_version" ] = pre ++ attr :: post →
     (∀ a, a ∈ pre → attr_given c a) →
     ¬ attr_given c attr →
     validate_configuration w
     = (Raise (ValueError
          ("PyTorchTrainingConfig missing required attribute: " +:+ attr)),
        started))
  ∧ ((∀ a, a ∈ [ "training_instance_type"; "training_instance_count";
                 "training_volume_size"; "training_entry_point";
                 "source_dir"; "framework_version"; "py_version" ] →
           attr_given c a) →
     validate_configuration w
     = (Return (),
        add_log
          (add_log started
             (INFO, "Configuration validation relies on step specifications"))
          (INFO, "PyTorchTrainingConfig validation succeeded."))).
Proof.
  intros c started.
  assert (Hrun : validate_configuration w
    = match List.find (attr_missing c) required_attrs with
      | Some attr => (Raise (missing_attr_error attr), started)
      | None =>
          (Return (),
           add_log
             (add_log started
                (INFO,
                 "Configuration validation relies on step specifications"))
             (INFO, "PyTorchTrainingConfig validation succeeded."))
      end).
  { unfold validate_configuration.
    rewrite bind_run. cbn [log_info log]. rewrite bind_run, validate_loop_run.
    cbn [w_self]. fold c. by destruct (List.find _ _). }
  rewrite Hrun. split.
  - intros pre attr post Hlist Hpre Hattr.
    change required_attrs with
      [ "training_instance_type"; "training_instance_count";
        "training_volume_size"; "training_entry_point"; "source_dir";
        "framework_version"; "py_version" ].
    rewrite Hlist, (find_first_Some _ pre post attr); [done| |].
    + intros a Ha. by apply attr_given_iff, Hpre.
    + apply not_false_iff_true. intros H. by apply Hattr, attr_given_iff.
  - intros Hall. rewrite find_all_false; [done|].
    intros a Ha. by apply attr_given_iff, Hall.
Qed.

Lemma validate_configuration_first_missing_witness :
  let w := {| w_self :=
                {| config :=
                     {| attrs :=
                          {[ "training_instance_type" := PStr "ml.g5.xlarge";
                             "training_instance_count" := PInt 1;
                             "training_volume_size" := PStr "" ]};
                        hyperparameters := None;
                        env := None |};
                   spec := None; contract := None;
                   role := PNone; session := PNone |};
              w_log := [] |} in
  (validate_configuration w).1
  = Raise (ValueError
       "PyTorchTrainingConfig missing required attribute: training_volume_size")
  ∧ (validate_configuration StepFixtures.w).1 = Return ().
Proof.
  intros w. split.
  - destruct (validate_configuration_first_missing w) as [H _].
    rewrite (H [ "training_instance_type"; "training_instance_count" ]
               "training_volume_size"
               [ "training_entry_point"; "source_dir"; "framework_version";
                 "py_version" ]); [done | done | |].
    + intros a [->|[->|H']%elem_of_cons]%elem_of_cons.
      * exists (PStr "ml.g5.xlarge"). by split_and!.
      * exists (PInt 1). by split_and!.
      * by apply elem_of_nil in H'.
    + intros (v & Hv & _ & Hne). vm_compute in Hv. by simplify_eq.
  - destruct (validate_configuration_first_missing StepFixtures.w) as [_ H].
    rewrite H; [done|].
    intros a Ha. apply attr_given_iff.
    repeat (apply elem_of_cons in Ha as [->|Ha]; [by vm_compute|]).
    by apply elem_of_nil in Ha.
Defined.

(** ** [_get_inputs]: when it returns, what it raises, what it ignores *)

Lemma loop_state_input_path inputs ti mi n :
  loop_state inputs ti mi → n ∈ mi → n = "input_path".
Proof.
  intros [[_ ->]|(v & _ & _ & ->)] Hn; [set_solver|].
  by apply elem_of_singleton in Hn.
Qed.

Lemma loop_returns_iff ct inputs deps ti mi w :
  loop_state inputs ti mi →
  ("input_path" ∈ mi → is_Some (expected_input_paths ct !! "input_path")) →
  (∃ r, (_get_inputs_loop ct inputs deps ti mi w).1 = Return r)
  ↔ Forall (λ kd, passes ct inputs kd.2) deps.
Proof.
  revert ti mi w. induction deps as [|[k d] rest IH]; intros ti mi w Hst Hpath.
  { split; [by intros _ | intros _; by eexists]. }
  rewrite loop_cons, Forall_cons. cbn zeta. cbn [snd]. unfold passes at 1.
  destruct (decide (dep_logical_name d ∈ mi)) as [Hmi|Hmi].
  { rewrite (IH _ _ _ Hst Hpath).
    pose proof (loop_state_input_path _ _ _ _ Hst Hmi) as Hn.
    pose proof (loop_state_matched _ _ _ _ Hst Hmi) as [v Hv].
    split; [|by intros [_ ?]]. intros Hrest. split; [|done]. split.
    - intros Habs. congruence.
    - intros _. rewrite Hn in *. by apply Hpath. }
  destruct (inputs !! dep_logical_name d) as [v|] eqn:Hv.
  2:{ destruct (required d) eqn:Hreq.
      - split; [by intros [? ?]|]. intros [[H _] _].
        specialize (H eq_refl). congruence.
      - rewrite (IH _ _ _ Hst Hpath). split; [|by intros [_ ?]].
        intros Hrest. split; [|done]. split; [done | by intros [? ?]]. }
  destruct (expected_input_paths ct !! dep_logical_name d) as [cp|] eqn:Hcp.
  2:{ split; [by intros [? ?]|]. intros [[_ H] _].
      destruct H as [? ?]; [by eexists | done]. }
  assert (Hd : (Some v = None → required d = false)
               ∧ (is_Some (Some v) → is_Some (Some cp))).
  { split; [done | by eexists]. }
  destruct (decide (dep_logical_name d = "input_path")) as [Hn|Hn].
  - rewrite IH.
    + split; [by intros ? | by intros [_ ?]].
    + rewrite Hn in Hv. rewrite Hn. by apply loop_state_update.
    + intros _. rewrite <- Hn, Hcp. by eexists.
  - rewrite (IH _ _ _ Hst Hpath). split; [by intros ? | by intros [_ ?]].
Qed.

Lemma _get_inputs_returns (inputs : gmap string pyval) (w : World)
    (sp : StepSpecification) (ct : ScriptContract) :
  spec (w_self w) = Some sp →
  contract (w_self w) = Some ct →
  (∀ k d, (k, d) ∈ spec_dependencies sp →
     (inputs !! dep_logical_name d = None → required d = false)
     ∧ (is_Some (inputs !! dep_logical_name d) →
        is_Some (expected_input_paths ct !! dep_logical_name d))) →
  ∃ r, (_get_inputs inputs w).1 = Return r.
Proof.
  intros Hsp Hct H. rewrite _get_inputs_run, Hsp, Hct.
  rewrite loop_returns_iff; [|apply loop_state_init|set_solver].
  rewrite Forall_forall. intros [k d] Hin. by apply (H k d).
Qed.

(** X2. [_get_inputs] returns normally exactly when the builder has a
    specification and a contract and every dependency of the specification
    is either optional and absent from the mapping, or present in it with a
    container path in the contract. *)
Theorem _get_inputs_returns_iff (inputs : gmap string pyval) (w : World) :
  (∃ r, (_get_inputs inputs w).1 = Return r)
  ↔ ∃ sp ct,
      spec (w_self w) = Some sp
      ∧ contract (w_self w) = Some ct
      ∧ ∀ k d, (k, d) ∈ spec_dependencies sp →
          (inputs !! dep_logical_name d = None → required d = false)
          ∧ (is_Some (inputs !! dep_logical_name d) →
             is_Some (expected_input_paths ct !! dep_logical_name d)).
Proof.
  rewrite _get_inputs_run.
  destruct (spec (w_self w)) as [sp|].
  2:{ split; [by intros [? ?] | by intros (? & ? & ? & _)]. }
  destruct (contract (w_self w)) as [ct|].
  2:{ split; [by intros [? ?] | by intros (? & ? & _ & ? & _)]. }
  rewrite loop_returns_iff; [|apply loop_state_init|set_solver].
  rewrite Forall_forall. split.
  - intros H. exists sp, ct. split_and!; [done..|].
    intros k d Hin. by apply (H (k, d)).
  - intros (sp' & ct' & [= <-] & [= <-] & H) [k d] Hin. by apply (H k d).
Qed.

(** X3. [_get_inputs] raises nothing but [ValueError] (in particular the
    subscript [inputs[logical_name]] never fails), and whether it returns or
    raises, the builder is left as it was. *)
Theorem _get_inputs_raises_only_ValueError
    (inputs : gmap string pyval) (w : World) :
  (∀ e, (_get_inputs inputs w).1 = Raise e → ∃ msg, e = ValueError msg)
  ∧ w_self (_get_inputs inputs w).2 = w_self w.
Proof.
  split.
  - rewrite _get_inputs_run.
    destruct (spec (w_self w)) as [sp|]; [|intros e [= <-]; by eexists].
    destruct (contract (w_self w)) as [ct|]; [|intros e [= <-]; by eexists].
    intros e. apply loop_raises_ValueError.
  - by destruct (self_only_get_inputs inputs w) as [H _].
Qed.

Lemma _get_inputs_raises_only_ValueError_witness :
  ∃ msg,
    ValueError "Required input 'input_path' not provided" = ValueError msg.
Proof.
  destruct (_get_inputs_raises_only_ValueError ∅ StepFixtures.w) as [H _].
  apply H. vm_compute. reflexivity.
Defined.

(** X4. What is filed under names other than [input_path] has no influence
    on the channels returned: two mappings that agree on [input_path] and on
    which both calls return give the same dictionary. *)
Theorem _get_inputs_depends_on_input_path
    (inputs1 inputs2 : gmap string pyval) (w : World)
    (r1 r2 : gmap string TrainingInput) :
  inputs1 !! "input_path" = inputs2 !! "input_path" →
  (_get_inputs inputs1 w).1 = Return r1 →
  (_get_inputs inputs2 w).1 = Return r2 →
  r1 = r2.
Proof.
  intros Hip. rewrite !_get_inputs_run.
  destruct (spec (w_self w)) as [sp|]; [|done].
  destruct (contract (w_self w)) as [ct|]; [|done].
  intros H1 H2.
  destruct (loop_returns _ _ _ _ _ _ _ (loop_state_init inputs1) H1)
    as [_ Hr1].
  destruct (loop_returns _ _ _ _ _ _ _ (loop_state_init inputs2) H2)
    as [_ Hr2].
  destruct (Hr1 eq_refl) as [[-> Hno1]|(v1 & Hv1 & -> & Hhas1)],
           (Hr2 eq_refl) as [[-> Hno2]|(v2 & Hv2 & -> & Hhas2)].
  - done.
  - destruct Hno1. split; [done|]. rewrite Hip. by eexists.
  - destruct Hno2. split; [done|]. rewrite <- Hip. by eexists.
  - congruence.
Qed.

Lemma _get_inputs_depends_on_input_path_witness :
  let r : gmap string TrainingInput :=
    {[ "data" := {| s3_data := PStr "s3://bucket/data" |} ]} in
  r = r.
Proof.
  intros r.
  apply (_get_inputs_depends_on_input_path
           {[ "input_path" := PStr "s3://bucket/data" ]}
           {[ "input_path" := PStr "s3://bucket/data";
              "validation" := PStr "s3://bucket/val" ]}
           StepFixtures.w r r); vm_compute; reflexivity.
Defined.

(** ** [_get_outputs]: names that are not outputs, and errors *)

Lemma first_provided_ext outputs outputs' names :
  (∀ n, n ∈ names → outputs !! n = outputs' !! n) →
  first_provided outputs names = first_provided outputs' names.
Proof.
  induction names as [|n names IH]; intros H; [done|].
  cbn [first_provided]. rewrite <- (H n) by by left.
  destruct (outputs !! n); [done|]. apply IH. intros m Hm. apply H. by right.
Qed.

(** X5. Destinations filed under names that are not output logical names of
    the specification are ignored: two mappings that agree on those names
    give the same run of [_get_outputs] (result and log). *)
Theorem _get_outputs_ignores_other_names
    (base : Collaborators) (outputs outputs' : gmap string pyval)
    (w : World) :
  (∀ sp n, spec (w_self w) = Some sp →
           n ∈ output_logical_names sp →
           outputs !! n = outputs' !! n) →
  _get_outputs base outputs w = _get_outputs base outputs' w.
Proof.
  intros Hagree. unfold _get_outputs. rewrite !bind_run. cbn [get_self].
  destruct (spec (w_self w)) as [sp|]; [|done].
  destruct (contract (w_self w)) as [ct|]; [|done].
  fold (output_logical_names sp).
  by rewrite (first_provided_ext outputs outputs' (output_logical_names sp))
    by (intros n Hn; by apply (Hagree sp)).
Qed.

Lemma _get_outputs_ignores_other_names_witness :
  _get_outputs Fixtures.failing_base
    {[ "model_output" := PStr "s3://bucket/out";
       "evaluation" := PStr "s3://bucket/eval" ]} StepFixtures.w
  = _get_outputs Fixtures.failing_base
      {[ "model_output" := PStr "s3://bucket/out" ]} StepFixtures.w.
Proof.
  apply _get_outputs_ignores_other_names.
  intros sp n [= <-] Hn.
  apply list_elem_of_singleton in Hn as ->. reflexivity.
Defined.



(** ** [_get_environment_variables] and [_create_estimator] *)

Lemma _get_environment_variables_run base w :
  _get_environment_variables base w
  = match super_get_environment_variables base (w_self w) with
    | Raise e => (Raise e, w)
    | Return inherited =>
        match env (config (w_self w)) with
        | Some (EnvDict e) =>
            (Return (e ∪ inherited),
             add_log w
               (INFO, pct "Training environment variables: %s"
                        [str_dict base (e ∪ inherited)]))
        | Some (EnvNotIterable t) =>
            (Raise (TypeError ("'" +:+ t +:+ "' object is not iterable")), w)
        | Some (EnvRejected e) => (Raise e, w)
        | None =>
            (Return inherited,
             add_log w
               (INFO, pct "Training environment variables: %s"
                        [str_dict base inherited]))
        end
    end.
Proof.
  unfold _get_environment_variables.
  rewrite bind_run. cbn [get_self]. rewrite bind_run. unfold lift.
  destruct (super_get_environment_variables base (w_self w))
    as [e|inherited]; [done|].
  rewrite bind_run.
  destruct (env (config (w_self w))) as [[e|t|e]|]; [|done|done|].
  all: cbn [mret M_ret ret]; rewrite bind_run; by cbn [log_info log].
Qed.

(** X7. [_get_environment_variables] starts from the inherited variables
    and fails when the inherited method fails, with its exception.  With a
    dictionary as [config.env], a variable set there overrides the inherited
    one of the same name, every other inherited variable is kept and nothing
    else is there; without [config.env] the inherited variables are
    returned.  A [config.env] that cannot be iterated over makes
    [dict.update] raise [TypeError], and any other value that [dict.update]
    rejects makes it fail with that exception.  One log record is written
    when it returns, none when it raises. *)
Theorem _get_environment_variables_overrides
    (base : Collaborators) (w : World) :
  let run := _get_environment_variables base w in
  let record env_vars :=
    (INFO, pct "Training environment variables: %s"
             [str_dict base env_vars]) in
  match super_get_environment_variables base (w_self w) with
  | Raise e => run = (Raise e, w)
  | Return inherited =>
      match env (config (w_self w)) with
      | Some (EnvDict e) =>
          ∃ env_vars,
            run = (Return env_vars, add_log w (record env_vars))
            ∧ ∀ k, env_vars !! k
                   = match e !! k with
                     | Some v => Some v
                     | None => inherited !! k
                     end
      | Some (EnvNotIterable t) =>
          run
          = (Raise (TypeError ("'" +:+ t +:+ "' object is not iterable")), w)
      | Some (EnvRejected e) => run = (Raise e, w)
      | None => run = (Return inherited, add_log w (record inherited))
      end
  end.
Proof.
  intros run record. subst run record.
  rewrite _get_environment_variables_run.
  destruct (super_get_environment_variables base (w_self w))
    as [e|inherited]; [done|].
  destruct (env (config (w_self w))) as [[e|t|e]|]; [|done..].
  eexists. split; [done|].
  intros k. rewrite lookup_union. by destruct (e !! k), (inherited !! k).
Qed.

Lemma getattr_run name w :
  getattr name w
  = match attrs (config (w_self w)) !! name with
    | Some v => (Return v, w)
    | None =>
        (Raise (AttributeError
           ("'PyTorchTrainingConfig' object has no attribute '"
            +:+ name +:+ "'")), w)
    end.
Proof.
  unfold getattr. rewrite bind_run. cbn [get_self].
  by destruct (attrs (config (w_self w)) !! name).
Qed.

(** The result of [_create_estimator], stage by stage. *)
Lemma _create_estimator_result base w :
  let result := (_create_estimator base w).1 in
  let stages (hp : gmap string pyval) :=
    match expected_estimator base (w_self w) hp ∅ with
    | None => ∃ msg, result = Raise (AttributeError msg)
    | Some _ =>
        match (_get_environment_variables base w).1 with
        | Raise e => result = Raise e
        | Return environment =>
            ∃ est,
              expected_estimator base (w_self w) hp environment = Some est
              ∧ result = match PyTorch_init base est with
                         | Some e => Raise e
                         | None => Return est
                         end
        end
    end in
  match hyperparameters (config (w_self w)) with
  | Some (HyperToDict (Raise e)) => result = Raise e
  | Some (HyperToDict (Return d)) => stages (d ∪ ∅)
  | Some (HyperVars d) =>
      stages (filter (λ kv, String.prefix "_" kv.1 = false) d ∪ ∅)
  | Some HyperNoDict =>
      result = Raise (TypeError "vars() argument must have __dict__ attribute")
  | None => stages ∅
  end.
Proof.
  intros result stages. subst result stages.
  unfold _create_estimator. rewrite bind_run. cbn [get_self].
  rewrite bind_run.
  destruct (hyperparameters (config (w_self w))) as [[[e|d]|d|]|];
    [| | |done|]; try rewrite bind_run; unfold lift; [done|..].
  all: cbn [mret M_ret ret]; unfold expected_estimator; cbn zeta.
  all: repeat (rewrite bind_run, getattr_run;
               match goal with
               | |- context [attrs ?c !! ?n] =>
                   destruct (attrs c !! n);
                   cbn [mbind option_bind]; [|by eexists]
               end).
  all: rewrite bind_run.
  all: destruct (_get_environment_variables base w) as [[e|environment] w'];
    cbn [fst]; [done|].
  all: eexists; split; [done|].
  all: unfold construct.
  all: match goal with
       | |- context [PyTorch_init ?b ?x] => by destruct (PyTorch_init b x)
       end.
Qed.

(** What a returned estimator is made of. *)
Lemma _create_estimator_returns base w est :
  (_create_estimator base w).1 = Return est →
  ∃ hp environment,
    expected_estimator base (w_self w) hp environment = Some est
    ∧ (_get_environment_variables base w).1 = Return environment
    ∧ PyTorch_init base est = None
    ∧ match hyperparameters (config (w_self w)) with
      | Some (HyperToDict r) => ∃ d, r = Return d ∧ hp = d ∪ ∅
      | Some (HyperVars d) =>
          hp = filter (λ kv, String.prefix "_" kv.1 = false) d ∪ ∅
      | Some HyperNoDict => False
      | None => hp = ∅
      end.
Proof.
  intros Hest. pose proof (_create_estimator_result base w) as Hres.
  cbn zeta in Hres. rewrite Hest in Hres.
  destruct (hyperparameters (config (w_self w))) as [[[e|d]|d|]|];
    [done| | |done|].
  all: match type of Hres with
       | match expected_estimator _ _ ?hp _ with _ => _ end =>
           destruct (expected_estimator base (w_self w) hp ∅);
           [|by destruct Hres]; exists hp
       end.
  all: destruct (_get_environment_variables base w).1 as [e|environment];
    [done|]; exists environment.
  all: destruct Hres as (est' & Hexp & Hres).
  all: destruct (PyTorch_init base est') eqn:Hinit; [done|].
  all: injection Hres as ->; split_and!; try done.
  by exists d.
Qed.

Lemma prefix_underscore k : String.prefix "_" k = true ↔ private_name k.
Proof.
  unfold private_name. destruct k as [|c k].
  - split; [done | by intros [? ?]].
  - rewrite String.prefix_correct. cbn [String.length String.substring].
    assert (String.substring 0 0 k = "") as -> by by destruct k.
    split; [intros [= ->]; by eexists | by intros [? [= -> _]]].
Qed.

(** X8. The hyperparameters of the estimator: what [to_dict()] gives when
    the hyperparameters object has that method; otherwise its instance
    attributes except those whose name starts with an underscore; nothing
    when the configuration has no hyperparameters.  No estimator is returned
    when [to_dict()] raises, nor for a hyperparameters object that has
    neither [to_dict] nor [__dict__]. *)
Theorem _create_estimator_hyperparameters
    (base : Collaborators) (w : World) (est : PyTorch) :
  (_create_estimator base w).1 = Return est →
  match hyperparameters (config (w_self w)) with
  | Some (HyperToDict r) => r = Return (est_hyperparameters est)
  | Some (HyperVars d) =>
      ∀ k v, est_hyperparameters est !! k = Some v
             ↔ d !! k = Some v ∧ ¬ private_name k
  | Some HyperNoDict => False
  | None => est_hyperparameters est = ∅
  end.
Proof.
  intros Hest.
  apply _create_estimator_returns in Hest
    as (hp & environment & Hexp & _ & _ & Hhp).
  unfold expected_estimator in Hexp. cbn zeta in Hexp.
  repeat match type of Hexp with
         | (?o ≫= _) = Some _ =>
             destruct o; cbn [mbind option_bind] in Hexp; [|done]
         end.
  injection Hexp as <-. cbn [est_hyperparameters].
  destruct (hyperparameters (config (w_self w))) as [[r|d|]|];
    try done; [destruct Hhp as (d & -> & ->)|subst hp].
  - by rewrite (right_id_L ∅ (∪)).
  - intros k v. rewrite (right_id_L ∅ (∪)), map_lookup_filter_Some.
    cbn [fst]. rewrite <- prefix_underscore.
    by rewrite not_true_iff_false.
Qed.

Lemma _create_estimator_hyperparameters_witness :
  (est_hyperparameters HyperFixtures.estimator !! "lr" = Some (PStr "0.001")
   ↔ HyperFixtures.attributes !! "lr" = Some (PStr "0.001")
     ∧ ¬ private_name "lr")
  ∧ (est_hyperparameters HyperFixtures.estimator !! "_secret"
     = Some (PStr "token")
     ↔ HyperFixtures.attributes !! "_secret" = Some (PStr "token")
       ∧ ¬ private_name "_secret").
Proof.
  split.
  - exact (_create_estimator_hyperparameters Fixtures.failing_base
             HyperFixtures.w HyperFixtures.estimator
             ltac:(vm_compute; reflexivity) "lr" (PStr "0.001")).
  - exact (_create_estimator_hyperparameters Fixtures.failing_base
             HyperFixtures.w HyperFixtures.estimator
             ltac:(vm_compute; reflexivity) "_secret" (PStr "token")).
Defined.

(** X9. An estimator that is returned has its settings from the
    configuration and the builder: entry point, source directory, framework
    and Python version, instance type and count and volume size are the
    configuration attributes of those names, role and session are the
    builder's, and the environment is that of
    [_get_environment_variables]. *)
Theorem _create_estimator_fields
    (base : Collaborators) (w : World) (est : PyTorch) :
  (_create_estimator base w).1 = Return est →
  let a := attrs (config (w_self w)) in
  a !! "training_entry_point" = Some (entry_point est)
  ∧ a !! "source_dir" = Some (est_source_dir est)
  ∧ a !! "framework_version" = Some (est_framework_version est)
  ∧ a !! "py_version" = Some (est_py_version est)
  ∧ a !! "training_instance_type" = Some (instance_type est)
  ∧ a !! "training_instance_count" = Some (instance_count est)
  ∧ a !! "training_volume_size" = Some (volume_size est)
  ∧ est_role est = role (w_self w)
  ∧ sagemaker_session est = session (w_self w)
  ∧ base_job_name est = _generate_job_name base (w_self w)
  ∧ (_get_environment_variables base w).1 = Return (environment est)
  ∧ PyTorch_init base est = None.
Proof.
  intros Hest a.
  apply _create_estimator_returns in Hest
    as (hp & environment' & Hexp & Henv & Hinit & _).
  unfold expected_estimator in Hexp. cbn zeta in Hexp. fold a in Hexp.
  repeat match type of Hexp with
         | (?o ≫= _) = Some _ =>
             destruct o; cbn [mbind option_bind] in Hexp; [|done]
         end.
  injection Hexp as <-. by split_and!.
Qed.

Lemma _create_estimator_fields_witness :
  attrs Fixtures.training_config !! "training_entry_point"
  = Some (PStr "train.py").
Proof.
  destruct (_create_estimator_fields Fixtures.failing_base StepFixtures.w
              StepFixtures.estimator) as (H & _).
  - vm_compute. reflexivity.
  - exact H.
Defined.

(** X10. After a configuration has passed [validate_configuration],
    [_create_estimator] finds every configuration attribute it reads.  It
    then fails in these ways only: [to_dict()] raises; [vars] raises
    [TypeError] on a hyperparameters object that has neither [to_dict] nor
    [__dict__]; [_get_environment_variables] fails; or the SDK constructor
    refuses the estimator. *)
Theorem _create_estimator_after_validation
    (base : Collaborators) (w : World) :
  (validate_configuration w).1 = Return () →
  let result := (_create_estimator base w).1 in
  match hyperparameters (config (w_self w)) with
  | Some (HyperToDict (Raise e)) => result = Raise e
  | Some HyperNoDict =>
      result = Raise (TypeError "vars() argument must have __dict__ attribute")
  | _ =>
      match (_get_environment_variables base w).1 with
      | Raise e => result = Raise e
      | Return environment =>
          ∃ hp est,
            expected_estimator base (w_self w) hp environment = Some est
            ∧ result = match PyTorch_init base est with
                       | Some e => Raise e
                       | None => Return est
                       end
      end
  end.
Proof.
  intros Hval result. subst result.
  assert (Hfind : List.find (attr_missing (config (w_self w))) required_attrs
                  = None).
  { revert Hval. unfold validate_configuration.
    rewrite bind_run. cbn [log_info log]. rewrite bind_run, validate_loop_run.
    cbn [w_self]. by destruct (List.find _ _). }
  assert (Hattr : ∀ n, n ∈ required_attrs →
                       is_Some (attrs (config (w_self w)) !! n)).
  { intros n Hn. apply list_elem_of_In in Hn.
    pose proof (find_none _ _ Hfind n Hn) as Hm. unfold attr_missing in Hm.
    destruct (attrs (config (w_self w)) !! n); [by eexists | done]. }
  assert (Hexp : ∀ hp, is_Some (expected_estimator base (w_self w) hp ∅)).
  { intros hp. unfold expected_estimator. cbn zeta.
    repeat match goal with
           | |- is_Some (attrs _ !! ?n ≫= _) =>
               let H := fresh in
               destruct (Hattr n) as [? H];
               [ unfold required_attrs;
                 repeat first [ apply list_elem_of_here
                              | apply list_elem_of_further ]
               | rewrite H; cbn [mbind option_bind] ]
           end.
    by eexists. }
  pose proof (_create_estimator_result base w) as Hres. cbn zeta in Hres.
  destruct (hyperparameters (config (w_self w))) as [[[e|d]|d|]|];
    [done| | |done|].
  all: match type of Hres with
       | match expected_estimator _ _ ?hp _ with _ => _ end =>
           destruct (Hexp hp) as [? Hsome]; rewrite Hsome in Hres
       end.
  all: destruct (_get_environment_variables base w).1 as [e|environment];
    [done|].
  all: destruct Hres as (est & ? & ?); by eexists _, est.
Qed.

Lemma _create_estimator_after_validation_witness :
  (∃ hp est,
     expected_estimator Fixtures.failing_base (w_self HyperFixtures.w) hp
       {[ "MODE" := "train" ]} = Some est
     ∧ (_create_estimator Fixtures.failing_base HyperFixtures.w).1
       = Return est)
  ∧ (_create_estimator Fixtures.failing_base HyperFixtures.plain_dict).1
    = Raise (TypeError "vars() argument must have __dict__ attribute").
Proof.
  split.
  - exact (_create_estimator_after_validation Fixtures.failing_base
             HyperFixtures.w ltac:(vm_compute; reflexivity)).
  - exact (_create_estimator_after_validation Fixtures.failing_base
             HyperFixtures.plain_dict ltac:(vm_compute; reflexivity)).
Defined.

(** ** [create_step] *)

Lemma create_step_returns base kwargs w ts :
  (create_step base kwargs w).1 = Return ts →
  ∃ ti est,
    (_get_inputs
       (step_inputs kwargs (extracted_or_nothing base (w_self w) kwargs))
       w).1 = Return ti
    ∧ size ti ≠ 0
    ∧ (_create_estimator base w).1 = Return est
    ∧ TrainingStep_init base
        (step_arguments base (w_self w) kwargs est ti) = None
    ∧ ts = setattr_spec (step_arguments base (w_self w) kwargs est ti)
             (spec (w_self w)).
Proof.
  rewrite create_step_result. unfold create_step_outcome. cbn zeta.
  destruct (_get_inputs _ w).1 as [e|ti]; [done|].
  destruct (decide (size ti = 0)); [done|].
  destruct (_get_outputs base ∅ w).1 as [e|p]; [done|].
  destruct (_create_estimator base w).1 as [e|est]; [done|].
  destruct (TrainingStep_init base _) as [e|] eqn:Hinit; [done|].
  intros [= <-]. by exists ti, est.
Qed.

(** X11. Where the training data of a step comes from.  A step that is
    returned has the single channel [data], and its source is, in this order
    of precedence: the [input_path] keyword argument when it is not [None];
    else the entry [input_path] of the [inputs] argument; else the entry
    [input_path] of what was extracted from the dependencies. *)
Theorem create_step_input_precedence
    (base : Collaborators) (kwargs : Kwargs) (w : World) (ts : TrainingStep) :
  (create_step base kwargs w).1 = Return ts →
  ∃ v,
    ts_inputs ts = {[ "data" := {| s3_data := v |} ]}
    ∧ (∀ direct,
         kw_input_path kwargs = Some direct → direct ≠ PNone → v = direct)
    ∧ ((kw_input_path kwargs = None ∨ kw_input_path kwargs = Some PNone) →
       match default ∅ (kw_inputs kwargs) !! "input_path" with
       | Some given => v = given
       | None =>
           ∃ d ds extracted,
             kw_dependencies kwargs = Some (d :: ds)
             ∧ extract_inputs_from_dependencies base (w_self w) (d :: ds)
               = Return extracted
             ∧ extracted !! "input_path" = Some v
       end).
Proof.
  intros (ti & est & Hti & Hsize & _ & _ & ->)%create_step_returns.
  cbn [setattr_spec step_arguments ts_inputs].
  rewrite _get_inputs_run in Hti.
  destruct (spec (w_self w)) as [sp|]; [|done].
  destruct (contract (w_self w)) as [ct|]; [|done].
  destruct (loop_returns _ _ _ _ _ _ _ (loop_state_init _) Hti) as [_ H].
  destruct (H eq_refl) as [[-> _]|(v & Hv & -> & _)].
  { by rewrite map_size_empty in Hsize. }
  exists v. split; [done|]. clear H Hti Hsize.
  unfold step_inputs in Hv. cbn zeta in Hv. split.
  - intros direct Hdirect Hd. rewrite Hdirect in Hv.
    destruct direct; try done; cbn [default from_option id] in Hv;
      rewrite lookup_insert_eq in Hv; congruence.
  - intros Hdirect.
    assert (default PNone (kw_input_path kwargs) = PNone) as Hnone.
    { by destruct Hdirect as [-> | ->]. }
    rewrite Hnone in Hv. rewrite lookup_union in Hv.
    destruct (default ∅ (kw_inputs kwargs) !! "input_path") as [given|].
    { destruct (extracted_or_nothing _ _ _ !! _);
        cbn [union option_union union_with option_union_with] in Hv;
        congruence. }
    destruct (extracted_or_nothing base (w_self w) kwargs !! "input_path")
      as [x|] eqn:Hx;
      cbn [union option_union union_with option_union_with] in Hv; [|done].
    injection Hv as ->. unfold extracted_or_nothing in Hx.
    destruct (kw_dependencies kwargs) as [[|d ds]|];
      cbn [default from_option id] in Hx.
    + by rewrite lookup_empty in Hx.
    + destruct (extract_inputs_from_dependencies base (w_self w) (d :: ds))
        as [e|extracted] eqn:Hex; [by rewrite lookup_empty in Hx|].
      by exists d, ds, extracted.
    + by rewrite lookup_empty in Hx.
Qed.

Lemma create_step_input_precedence_witness :
  ∃ v,
    ts_inputs StepFixtures.step = {[ "data" := {| s3_data := v |} ]}
    ∧ v = PStr "s3://bucket/data".
Proof.
  destruct (create_step_input_precedence Fixtures.failing_base
              StepFixtures.kwargs StepFixtures.w StepFixtures.step)
    as (v & Hin & Hdirect & _).
  - vm_compute. reflexivity.
  - exists v. split; [exact Hin|].
    apply (Hdirect (PStr "s3://bucket/data")); [reflexivity | discriminate].
Defined.

(** X12. A step that is returned has the name given by the builder, depends
    on exactly the dependencies passed in, caches unless [enable_caching]
    says otherwise, and carries the builder's specification, which is there.
    The SDK has accepted both the estimator and the step. *)
Theorem create_step_returned_step
    (base : Collaborators) (kwargs : Kwargs) (w : World) (ts : TrainingStep) :
  (create_step base kwargs w).1 = Return ts →
  ts_name ts = _get_step_name base (w_self w)
  ∧ ts_depends_on ts = default [] (kw_dependencies kwargs)
  ∧ ts_cache_config ts
    = _get_cache_config base (w_self w)
        (default true (kw_enable_caching kwargs))
  ∧ _spec ts = spec (w_self w)
  ∧ is_Some (_spec ts)
  ∧ is_Some (contract (w_self w))
  ∧ PyTorch_init base (ts_estimator ts) = None
  ∧ (∃ args, TrainingStep_init base args = None
             ∧ ts = setattr_spec args (spec (w_self w))).
Proof.
  intros (ti & est & Hti & _ & Hest & Hinit & ->)%create_step_returns.
  cbn [setattr_spec step_arguments ts_name ts_depends_on ts_cache_config
       _spec ts_estimator].
  rewrite _get_inputs_run in Hti.
  destruct (spec (w_self w)) as [sp|] eqn:Hsp; [|done].
  destruct (contract (w_self w)) as [ct|] eqn:Hct; [|done].
  split_and!; [done | done | done | done | by eexists | by eexists | |].
  - by destruct (_create_estimator_returns base w est Hest)
      as (? & ? & _ & _ & ? & _).
  - eexists. split; [exact Hinit | done].
Qed.

Lemma create_step_returned_step_witness :
  ts_depends_on StepFixtures.step = ["preprocess"]
  ∧ ts_cache_config StepFixtures.step = PBool true.
Proof.
  destruct (create_step_returned_step Fixtures.failing_base
              StepFixtures.kwargs StepFixtures.w StepFixtures.step)
    as (_ & H1 & H2 & _).
  - vm_compute. reflexivity.
  - split; [exact H1 | exact H2].
Defined.

(** X14. The extraction of inputs is consulted only when there are
    dependencies: without any, [create_step] runs the same whatever
    [extract_inputs_from_dependencies] would do. *)
Theorem create_step_without_dependencies
    (base : Collaborators) (kwargs : Kwargs) (w : World)
    (f : Builder → list string → result (gmap string pyval)) :
  default [] (kw_dependencies kwargs) = [] →
  create_step (with_extraction f base) kwargs w = create_step base kwargs w.
Proof.
  intros Hdeps. unfold create_step. cbn zeta. rewrite Hdeps. reflexivity.
Qed.

Lemma create_step_without_dependencies_witness :
  let kwargs :=
    {| kw_inputs := Some {[ "input_path" := PStr "s3://bucket/data" ]};
       kw_input_path := None; kw_output_path := None;
       kw_dependencies := None; kw_enable_caching := Some false |} in
  create_step
    (with_extraction (λ _ _, Return ∅) Fixtures.failing_base) kwargs
    StepFixtures.w
  = create_step Fixtures.failing_base kwargs StepFixtures.w.
Proof.
  intros kwargs.
  apply (create_step_without_dependencies Fixtures.failing_base kwargs
           StepFixtures.w (λ _ _, Return ∅)).
  reflexivity.
Defined.

(** X15. When every dependency is satisfied but none of them brings a value
    for [input_path] (the specification has no dependency of that name, or
    the mapping has no such entry), [create_step] raises [ValueError]:
    no training inputs available. *)
Theorem create_step_no_training_inputs
    (base : Collaborators) (kwargs : Kwargs) (w : World)
    (sp : StepSpecification) (ct : ScriptContract) :
  let inputs :=
    step_inputs kwargs (extracted_or_nothing base (w_self w) kwargs) in
  spec (w_self w) = Some sp →
  contract (w_self w) = Some ct →
  (∀ k d, (k, d) ∈ spec_dependencies sp →
     (inputs !! dep_logical_name d = None → required d = false)
     ∧ (is_Some (inputs !! dep_logical_name d) →
        is_Some (expected_input_paths ct !! dep_logical_name d))) →
  (¬ has_input_path (spec_dependencies sp) ∨ inputs !! "input_path" = None) →
  (create_step base kwargs w).1
  = Raise (ValueError "No training inputs available. Provide input_path or ensure dependencies supply necessary outputs.").
Proof.
  intros inputs Hsp Hct Hpass Hno.
  rewrite create_step_result. unfold create_step_outcome. cbn zeta.
  fold inputs.
  destruct (_get_inputs_returns inputs w sp ct Hsp Hct Hpass) as [r Hr].
  rewrite Hr.
  assert (r = ∅) as ->; [|by rewrite decide_True by apply map_size_empty].
  rewrite _get_inputs_run, Hsp, Hct in Hr.
  destruct (loop_returns _ _ _ _ _ _ _ (loop_state_init _) Hr) as [_ H].
  destruct (H eq_refl) as [[-> _]|(v & Hv & _ & Hhas)]; [done|].
  destruct Hno as [Hno|Hno]; [done | congruence].
Qed.

Lemma create_step_no_training_inputs_witness :
  (create_step Fixtures.failing_base StepFixtures.bare_kwargs
     (Fixtures.world [Fixtures.checkpoint_dep] Fixtures.training_contract)).1
  = Raise (ValueError "No training inputs available. Provide input_path or ensure dependencies supply necessary outputs.").
Proof.
  apply (create_step_no_training_inputs Fixtures.failing_base
           StepFixtures.bare_kwargs
           (Fixtures.world [Fixtures.checkpoint_dep]
              Fixtures.training_contract)
           (Fixtures.training_spec [Fixtures.checkpoint_dep])
           Fixtures.training_contract eq_refl eq_refl).
  - intros k d Hin. apply list_elem_of_singleton in Hin.
    injection Hin as -> ->.
    split; [done|]. intros [v Hv]. vm_compute in Hv. discriminate.
  - right. reflexivity.
Defined.

(** ** The S3 helpers *)

(** X16. [_validate_s3_uri] never raises and never changes the builder.  It
    accepts a pipeline variable and a dictionary with the key [Get] without
    consulting [S3PathHandler]; on a string its answer is that of
    [S3PathHandler.is_valid]; anything else it rejects.  It logs a warning
    exactly when it rejects. *)
Theorem _validate_s3_uri_answer
    (handler : S3PathHandler) (uri : uri_arg) (description : string)
    (w : World) :
  ∃ answer l,
    _validate_s3_uri handler uri description w
    = (Return answer, {| w_self := w_self w; w_log := w_log w ++ l |})
    ∧ answer
      = match uri with
        | UriPipelineVariable _ => true
        | UriDict d => bool_decide (is_Some (d !! "Get"))
        | UriStr s => S3_is_valid handler s
        | UriOther _ => false
        end
    ∧ (answer = false ↔ ∃ msg, l = [(WARNING, msg)])
    ∧ (answer = true → ∀ r, r ∈ l → r.1 = INFO).
Proof.
  unfold _validate_s3_uri.
  destruct uri as [expr|d|s|t]; cbn [has_expr is_get_reference].
  - exists true, []. rewrite app_nil_r. destruct w.
    split_and!; [done | done | | by intros _ r Hr%elem_of_nil].
    split; [done | by intros [? ?]].
  - destruct (bool_decide (is_Some (d !! "Get"))).
    + eexists true, [_]. rewrite bind_run. cbn [log_info log].
      split_and!; [done | done | |].
      * split; [done | by intros [? ?]].
      * by intros _ r ->%list_elem_of_singleton.
    + eexists false, [_]. rewrite bind_run. cbn [log_warning log].
      split_and!; [done | done | | done].
      split; [intros _; by eexists | done].
  - rewrite bind_run. destruct (S3_is_valid handler s) eqn:Hvalid;
      cbn [negb].
    + exists true, []. rewrite app_nil_r. destruct w.
      split_and!; [done | done | | by intros _ r Hr%elem_of_nil].
      split; [done | by intros [? ?]].
    + eexists false, [_]. cbn [log_warning log].
      split_and!; [done | done | | done].
      split; [intros _; by eexists | done].
  - eexists false, [_]. rewrite bind_run. cbn [log_warning log].
    split_and!; [done | done | | done].
    split; [intros _; by eexists | done].
Qed.

(** X17. [_normalize_s3_uri] returns a dictionary with the key [Get] as it
    is, without calling [S3PathHandler], and what it returns then passes
    [_validate_s3_uri].  A pipeline variable is replaced by the text of its
    expression before it is normalised, so the result is a plain string:
    unlike the pipeline variable itself, which [_validate_s3_uri] always
    accepts, the result is accepted only if [S3PathHandler.is_valid] accepts
    it. *)
Theorem _normalize_s3_uri_references
    (handler : S3PathHandler) (description : string) (w : World) :
  (∀ d,
     is_Some (d !! "Get") →
     ∃ w',
       _normalize_s3_uri handler (UriDict d) description w
       = (Return (UriDict d), w')
       ∧ w_self w' = w_self w
       ∧ (_validate_s3_uri handler (UriDict d) description w').1
         = Return true)
  ∧ (∀ expr,
       (_validate_s3_uri handler (UriPipelineVariable expr) description w).1
       = Return true
       ∧ match S3_normalize handler (UriStr expr) description with
         | Raise e =>
             _normalize_s3_uri handler (UriPipelineVariable expr)
               description w = (Raise e, w)
         | Return normalized =>
             _normalize_s3_uri handler (UriPipelineVariable expr)
               description w = (Return (UriStr normalized), w)
             ∧ (_validate_s3_uri handler (UriStr normalized) description
                  w).1
               = Return (S3_is_valid handler normalized)
         end).
Proof.
  split.
  - intros d Hget. unfold _normalize_s3_uri. cbn zeta.
    cbn [is_get_reference]. rewrite bool_decide_eq_true_2 by done.
    rewrite bind_run. cbn [log_info log]. eexists. split_and!; [done | done |].
    unfold _validate_s3_uri. cbn [has_expr is_get_reference].
    rewrite bool_decide_eq_true_2 by done. by rewrite bind_run.
  - intros expr. split; [done|].
    unfold _normalize_s3_uri. cbn zeta. cbn [is_get_reference].
    rewrite bind_run. unfold lift.
    destruct (S3_normalize handler (UriStr expr) description) as [e|n];
      [done|].
    split; [done|]. unfold _validate_s3_uri. cbn [has_expr is_get_reference].
    rewrite bind_run.
    by destruct (S3_is_valid handler n).
Qed.

Lemma _normalize_s3_uri_references_witness :
  let handler :=
    {| S3_normalize := λ _ _, Return "s3://bucket/a";
       S3_is_valid := λ s, String.prefix "s3://" s |} in
  ∃ w',
    _normalize_s3_uri handler
      (UriDict {[ "Get" := PStr "Steps.A.Properties.Out" ]}) "S3 URI"
      StepFixtures.w
    = (Return (UriDict {[ "Get" := PStr "Steps.A.Properties.Out" ]}), w')
    ∧ w_self w' = w_self StepFixtures.w
    ∧ (_validate_s3_uri handler
         (UriDict {[ "Get" := PStr "Steps.A.Properties.Out" ]}) "S3 URI"
         w').1
      = Return true.
Proof.
  intros handler.
  destruct (_normalize_s3_uri_references handler "S3 URI" StepFixtures.w)
    as [H _].
  apply H. by eexists.
Defined.

(** ** The package module *)

Lemma exports_all_Forall exports missing names :
  Package.exports_all (Package.Available exports missing) names
  ↔ Forall (λ n, n ∈ exports) names.
Proof. cbn [Package.exports_all]. by rewrite Forall_forall. Qed.

Lemma raises_other_exports m names :
  Package.raises_other m → ¬ Package.exports_all m names.
Proof. by intros (t & msg & ->) []. Qed.

(** The core imports, by cases. *)
Lemma core_imports (core : Package.module_state) (ns : gmap string Package.binding) :
  let r := Package.import_all core ".core.compiler"
             [ [ Package.same "compile_dag_to_pipeline";
                 Package.same "PipelineDAGCompiler" ];
               [ ("compile_dag_to_pipeline", "compile_dag") ];
               [ Package.same "DynamicPipelineTemplate" ] ] ns in
  (Package.exports_all core
     [ "compile_dag_to_pipeline"; "PipelineDAGCompiler";
       "DynamicPipelineTemplate" ] ∧
   r = (None,
        <[ "DynamicPipelineTemplate" :=
             Package.Imported ".core.compiler" "DynamicPipelineTemplate" ]>
          (<[ "compile_dag" :=
                Package.Imported ".core.compiler" "compile_dag_to_pipeline" ]>
             (<[ "PipelineDAGCompiler" :=
                   Package.Imported ".core.compiler" "PipelineDAGCompiler" ]>
                (<[ "compile_dag_to_pipeline" :=
                      Package.Imported ".core.compiler"
                        "compile_dag_to_pipeline" ]> ns)))))
  ∨ (¬ Package.exports_all core
         [ "compile_dag_to_pipeline"; "PipelineDAGCompiler";
           "DynamicPipelineTemplate" ] ∧
     ¬ Package.raises_other core ∧
     ∃ e ns', r = (Some (Package.ImportError e), ns')
              ∧ ns' !! "DynamicPipelineTemplate"
                = ns !! "DynamicPipelineTemplate"
              ∧ ∀ k, k ≠ "compile_dag_to_pipeline" →
                     k ≠ "PipelineDAGCompiler" → k ≠ "compile_dag" →
                     ns' !! k = ns !! k)
  ∨ (Package.raises_other core ∧
     ∃ t m, r = (Some (Package.OtherError t m), ns)).
Proof.
  intros r. subst r. destruct core as [[msg|t m]|exports missing].
  { right. left. split_and!; [by intros [] | by intros (? & ? & [=]) |].
    by eexists _, _. }
  { right. right. split; [by eexists _, _ | by eexists _, _]. }
  assert (Hno : ¬ Package.raises_other (Package.Available exports missing))
    by (by intros (? & ? & [=])).
  rewrite exports_all_Forall, !Forall_cons, Forall_nil.
  cbn [Package.import_all Package.import_from Package.bind_names
       Package.same].
  destruct (decide ("compile_dag_to_pipeline" ∈ exports)) as [H1|H1].
  2:{ right. left. split_and!; [tauto | done |]. by eexists _, _. }
  destruct (decide ("PipelineDAGCompiler" ∈ exports)) as [H2|H2].
  2:{ right. left. split_and!; [tauto | done |].
      eexists _, _. split_and!; [done | |].
      - by rewrite lookup_insert_ne.
      - intros k ? ? ?. by rewrite lookup_insert_ne. }
  destruct (decide ("DynamicPipelineTemplate" ∈ exports)) as [H3|H3].
  - left. by split.
  - right. left. split_and!; [tauto | done |].
    eexists _, _. split_and!; [done | |].
    + by rewrite !lookup_insert_ne.
    + intros k ? ? ?. by rewrite !lookup_insert_ne.
Qed.

Lemma dag_imports (dag : Package.module_state) (ns : gmap string Package.binding) :
  let r := Package.import_all dag ".api.dag"
             [ [ Package.same "PipelineDAG";
                 Package.same "EnhancedPipelineDAG" ] ] ns in
  (Package.exports_all dag [ "PipelineDAG"; "EnhancedPipelineDAG" ] ∧
   r = (None,
        <[ "EnhancedPipelineDAG" :=
             Package.Imported ".api.dag" "EnhancedPipelineDAG" ]>
          (<[ "PipelineDAG" := Package.Imported ".api.dag" "PipelineDAG" ]>
             ns)))
  ∨ (¬ Package.exports_all dag [ "PipelineDAG"; "EnhancedPipelineDAG" ] ∧
     ¬ Package.raises_other dag ∧
     ∃ e ns', r = (Some (Package.ImportError e), ns')
              ∧ ∀ k, k ≠ "PipelineDAG" → ns' !! k = ns !! k)
  ∨ (Package.raises_other dag ∧
     ∃ t m, r = (Some (Package.OtherError t m), ns)).
Proof.
  intros r. subst r. destruct dag as [[msg|t m]|exports missing].
  { right. left. split_and!; [by intros [] | by intros (? & ? & [=]) |].
    by eexists _, _. }
  { right. right. split; [by eexists _, _ | by eexists _, _]. }
  assert (Hno : ¬ Package.raises_other (Package.Available exports missing))
    by (by intros (? & ? & [=])).
  rewrite exports_all_Forall, !Forall_cons, Forall_nil.
  cbn [Package.import_all Package.import_from Package.bind_names
       Package.same].
  destruct (decide ("PipelineDAG" ∈ exports)) as [H1|H1].
  2:{ right. left. split_and!; [tauto | done |]. by eexists _, _. }
  destruct (decide ("EnhancedPipelineDAG" ∈ exports)) as [H2|H2].
  - left. by split.
  - right. left. split_and!; [tauto | done |].
    eexists _, _. split; [done|].
    intros k ?. by rewrite lookup_insert_ne.
Qed.

Lemma bind_names_other exports missing origin names ns k :
  k ∉ names.*2 →
  (Package.bind_names exports missing origin names ns).2 !! k = ns !! k.
Proof.
  revert ns. induction names as [|[n a] names IH]; intros ns Hk; [done|].
  cbn [Package.bind_names]. cbn [fmap list_fmap snd] in Hk.
  apply not_elem_of_cons in Hk as [Hka Hk].
  destruct (decide (n ∈ exports)); [|done].
  rewrite IH by done. by rewrite lookup_insert_ne.
Qed.

Lemma version_import version ns0 k :
  Package.import_from version ".__version__"
    [ Package.same "__version__"; Package.same "__title__";
      Package.same "__description__"; Package.same "__author__" ] ∅
  = (None, ns0) →
  k ∉ [ "__version__"; "__title__"; "__description__"; "__author__" ] →
  ns0 !! k = None.
Proof.
  intros Himp Hk. destruct version as [msg|exports missing]; [done|].
  cbn [Package.import_from] in Himp.
  pose proof (bind_names_other exports missing ".__version__"
    [ Package.same "__version__"; Package.same "__title__";
      Package.same "__description__"; Package.same "__author__" ] ∅ k Hk)
    as H.
  rewrite Himp in H. cbn [snd] in H. by rewrite H, lookup_empty.
Qed.

Ltac other_name :=
  repeat (apply not_elem_of_cons; split; [discriminate|]);
  apply not_elem_of_nil.

Lemma bind_names_bound exports missing origin names ns ns' :
  Package.bind_names exports missing origin names ns = (None, ns') →
  (∀ n a, (n, a) ∈ names → is_Some (ns' !! a))
  ∧ (∀ k, is_Some (ns !! k) → is_Some (ns' !! k)).
Proof.
  revert ns. induction names as [|[n a] names IH]; intros ns.
  { intros [= <-]. split; [|done]. intros n a Hin. by apply elem_of_nil in Hin. }
  cbn [Package.bind_names]. destruct (decide (n ∈ exports)); [|done].
  intros [Hb Hk]%IH. split.
  - intros n' a' [[= -> ->]|Hin]%elem_of_cons; [|by apply (Hb n' a')].
    apply Hk. rewrite lookup_insert_eq. by eexists.
  - intros k Hsome. apply Hk. apply lookup_insert_is_Some.
    destruct (decide (a = k)); [by left | by right].
Qed.

(** The globals of the package after its body has run. *)
Lemma package_init_cases
    (warnings_as_errors : bool) (version core dag : Package.module_state)
    (ns : gmap string Package.binding) (warnings : list string) :
  Package.init warnings_as_errors version core dag = inr (ns, warnings) →
  (∀ k, k ∈ [ "__version__"; "__title__"; "__description__"; "__author__" ] →
        is_Some (ns !! k))
  ∧ ((Package.exports_all core core_api
      ∧ ns !! "compile_dag_to_pipeline"
        = Some (Package.Imported ".core.compiler" "compile_dag_to_pipeline")
      ∧ ns !! "compile_dag"
        = Some (Package.Imported ".core.compiler" "compile_dag_to_pipeline")
      ∧ ns !! "PipelineDAGCompiler"
        = Some (Package.Imported ".core.compiler" "PipelineDAGCompiler")
      ∧ ns !! "DynamicPipelineTemplate"
        = Some (Package.Imported ".core.compiler" "DynamicPipelineTemplate")
      ∧ warnings = [])
     ∨ (¬ Package.exports_all core core_api
        ∧ ns !! "compile_dag_to_pipeline"
          = Some (Package.ImportErrorStub Package.core_missing)
        ∧ ns !! "compile_dag"
          = Some (Package.ImportErrorStub Package.core_missing)
        ∧ ns !! "PipelineDAGCompiler"
          = Some (Package.ImportErrorStub Package.core_missing)
        ∧ ns !! "DynamicPipelineTemplate" = None
        ∧ ∃ e, warnings
               = [ "Some AutoPipe features may not be available: " +:+ e ]))
  ∧ ((Package.exports_all dag dag_api
      ∧ ns !! "PipelineDAG" = Some (Package.Imported ".api.dag" "PipelineDAG")
      ∧ ns !! "EnhancedPipelineDAG"
        = Some (Package.Imported ".api.dag" "EnhancedPipelineDAG"))
     ∨ (¬ Package.exports_all dag dag_api
        ∧ ns !! "PipelineDAG"
          = Some (Package.ImportErrorStub Package.dag_missing)
        ∧ ns !! "EnhancedPipelineDAG"
          = Some (Package.ImportErrorStub Package.enhanced_dag_missing)))
  ∧ ns !! "create_pipeline_from_dag"
    = Some (Package.Function "create_pipeline_from_dag").
Proof.
  unfold Package.init.
  destruct (Package.import_from version _ _ _) as [[e|] ns0] eqn:Hver;
    [done|].
  pose proof (λ k, version_import version ns0 k Hver) as Hns0.
  assert (Hversion : ∀ k,
            k ∈ [ "__version__"; "__title__"; "__description__";
                  "__author__" ] → is_Some (ns0 !! k)).
  { destruct version as [msg|exports missing]; [done|].
    cbn [Package.import_from] in Hver.
    apply bind_names_bound in Hver as [Hb _]. intros k Hk.
    apply (Hb k k). unfold Package.same.
    by apply (list_elem_of_fmap_2 (λ n, (n, n))) in Hk. }
  cbv zeta.
  destruct (core_imports core ns0)
    as [[Hcore Hc]|[(Hcore & _ & e & ns1 & Hc & Hd & Hk)|(_ & t & m & Hc)]];
    cbn zeta in Hc; rewrite Hc; clear Hc; cbv beta iota;
    [ | destruct warnings_as_errors; cbv beta iota; [done|] | done ].
  all: match goal with
       | |- context [Package.import_all ?d ".api.dag" _ ?n] =>
           destruct (dag_imports d n)
             as [[Hdag Hg]|[(Hdag & _ & e' & ns2 & Hg & Hk')
                           |(_ & t' & m' & Hg)]];
           cbn zeta in Hg; rewrite Hg; clear Hg; cbv beta iota; [ | | done]
       end.
  all: intros [= <- <-].
  all: split_and!.
  all: try (first [ left; split; [assumption|]
                  | right; split; [assumption|] ]; split_and!).
  all: try done.
  all: try by eexists.
  all: try (intros k Hin; specialize (Hversion k Hin);
            assert (k ∉ [ "compile_dag_to_pipeline"; "PipelineDAGCompiler";
                          "compile_dag"; "DynamicPipelineTemplate";
                          "PipelineDAG"; "EnhancedPipelineDAG";
                          "create_pipeline_from_dag"; "warnings";
                          "__all__"; "__package_info__" ]) as Hother
              by (repeat (apply elem_of_cons in Hin as [->|Hin];
                          [other_name|]); by apply elem_of_nil in Hin);
            repeat (apply not_elem_of_cons in Hother as [? Hother])).
  all: repeat first
         [ rewrite lookup_insert_eq
         | rewrite lookup_insert_ne by (discriminate || done)
         | rewrite Hk' by (discriminate || done)
         | rewrite Hk by (discriminate || done) ].
  all: try done.
  all: rewrite ?Hd; apply Hns0; other_name.
Qed.

Lemma version_imports (version : Package.module_state)
    (ns : gmap string Package.binding) :
  let r := Package.import_from version ".__version__"
             [ Package.same "__version__"; Package.same "__title__";
               Package.same "__description__"; Package.same "__author__" ]
             ns in
  (Package.exports_all version
     [ "__version__"; "__title__"; "__description__"; "__author__" ]
   ∧ ∃ ns', r = (None, ns'))
  ∨ (¬ Package.exports_all version
         [ "__version__"; "__title__"; "__description__"; "__author__" ]
     ∧ ∃ e ns', r = (Some e, ns')).
Proof.
  intros r. subst r. destruct version as [msg|exports missing].
  { right. split; [by intros []|]. by eexists _, _. }
  rewrite exports_all_Forall, !Forall_cons, Forall_nil.
  cbn [Package.import_from Package.bind_names Package.same].
  repeat (match goal with
          | |- context [decide (?n ∈ exports)] =>
              destruct (decide (n ∈ exports));
              [|right; split; [tauto | by eexists _, _]]
          end).
  left. split; [tauto | by eexists].
Qed.

(** Whether the import of the package fails. *)
Lemma package_init_outcome
    (warnings_as_errors : bool) (version core dag : Package.module_state) :
  let fails :=
    ¬ Package.exports_all version
        [ "__version__"; "__title__"; "__description__"; "__author__" ]
    ∨ Package.raises_other core
    ∨ (warnings_as_errors = true ∧ ¬ Package.exports_all core core_api)
    ∨ Package.raises_other dag in
  (fails ∧ ∃ e, Package.init warnings_as_errors version core dag = inl e)
  ∨ (¬ fails
     ∧ ∃ ns warnings,
         Package.init warnings_as_errors version core dag
         = inr (ns, warnings)).
Proof.
  intros fails. subst fails. unfold Package.init.
  destruct (version_imports version ∅)
    as [(Hv & ns & Himp)|(Hv & e & ns & Himp)];
    cbn zeta in Himp; rewrite Himp; cbv beta iota zeta.
  2:{ left. split; [by left | by eexists]. }
  destruct (core_imports core ns)
    as [[Hcore Hc]|[(Hcore & Hnc & e & ns1 & Hc & _)|(Hoc & t & m & Hc)]];
    cbn zeta in Hc; rewrite Hc; clear Hc; cbv beta iota.
  3:{ left. split; [right; by left | by eexists]. }
  2:{ destruct warnings_as_errors; cbv beta iota.
      { left. split; [right; right; by left | by eexists]. }
      match goal with
      | |- context [Package.import_all dag ".api.dag" _ ?n] =>
          destruct (dag_imports dag n)
            as [[Hdag Hg]|[(Hdag & Hnd & e' & ns2 & Hg & _)
                          |(Hod & t' & m' & Hg)]];
          cbn zeta in Hg; rewrite Hg; clear Hg; cbv beta iota
      end.
      3:{ left. split; [by do 3 right | by eexists]. }
      all: right; split; [|by eexists _, _].
      all: intros [?|[?|[[? ?]|Hod]]]; try done.
      by apply (raises_other_exports dag dag_api) in Hod. }
  match goal with
  | |- context [Package.import_all dag ".api.dag" _ ?n] =>
      destruct (dag_imports dag n)
        as [[Hdag Hg]|[(Hdag & Hnd & e' & ns2 & Hg & _)
                      |(Hod & t' & m' & Hg)]];
      cbn zeta in Hg; rewrite Hg; clear Hg; cbv beta iota
  end.
  3:{ left. split; [by do 3 right | by eexists]. }
  all: right; split; [|by eexists _, _].
  all: intros [?|[Hoc|[[? ?]|Hod]]]; try done.
  all: try by apply (raises_other_exports core core_api) in Hoc.
  by apply (raises_other_exports dag dag_api) in Hod.
Qed.

(** X21. Importing the package fails in these cases only: [.__version__]
    cannot give its four names; importing [.core.compiler] or [.api.dag]
    raises an exception that is not an [ImportError]; or the core imports
    fail while warnings are turned into errors.  An [ImportError] from
    [.core.compiler] or [.api.dag] alone never makes the import of the
    package fail. *)
Theorem package_import_fails_iff
    (warnings_as_errors : bool) (version core dag : Package.module_state) :
  (∃ e, Package.init warnings_as_errors version core dag = inl e)
  ↔ ¬ Package.exports_all version
        [ "__version__"; "__title__"; "__description__"; "__author__" ]
    ∨ Package.raises_other core
    ∨ (warnings_as_errors = true ∧ ¬ Package.exports_all core core_api)
    ∨ Package.raises_other dag.
Proof.
  destruct (package_init_outcome warnings_as_errors version core dag)
    as [[Hfails He]|[Hfails (ns & warnings & Hinit)]].
  - done.
  - rewrite Hinit. split; [by intros [e [=]] | done].
Qed.

Lemma fixtures_init :
  ∃ ns warnings,
    Package.init false PackageFixtures.version PackageFixtures.core
      PackageFixtures.dag = inr (ns, warnings).
Proof.
  destruct (package_init_outcome false PackageFixtures.version
              PackageFixtures.core PackageFixtures.dag)
    as [[Hfails _]|[_ H]]; [exfalso|done].
  destruct Hfails as [H|[(? & ? & [=])|[[[=] _]|(? & ? & [=])]]].
  apply H. intros n Hn. exact Hn.
Qed.

(** X18. The imports of the package are all or nothing.  When
    [.core.compiler] gives all of [compile_dag_to_pipeline],
    [PipelineDAGCompiler] and [DynamicPipelineTemplate], these three and the
    alias [compile_dag] are the imported ones and no warning is issued.
    Otherwise, even if a single name is missing, [compile_dag],
    [compile_dag_to_pipeline] and [PipelineDAGCompiler] are all stand-ins
    that raise [ImportError] with the installation hint,
    [DynamicPipelineTemplate] is not defined at all, and one warning is
    issued.  Likewise [PipelineDAG] and [EnhancedPipelineDAG] are both
    imported or both stand-ins. *)
Theorem package_imports_all_or_nothing
    (warnings_as_errors : bool) (version core dag : Package.module_state)
    (ns : gmap string Package.binding) (warnings : list string) :
  Package.init warnings_as_errors version core dag = inr (ns, warnings) →
  (Package.exports_all core core_api →
   ns !! "compile_dag_to_pipeline"
   = Some (Package.Imported ".core.compiler" "compile_dag_to_pipeline")
   ∧ ns !! "compile_dag"
     = Some (Package.Imported ".core.compiler" "compile_dag_to_pipeline")
   ∧ ns !! "PipelineDAGCompiler"
     = Some (Package.Imported ".core.compiler" "PipelineDAGCompiler")
   ∧ ns !! "DynamicPipelineTemplate"
     = Some (Package.Imported ".core.compiler" "DynamicPipelineTemplate")
   ∧ warnings = [])
  ∧ (¬ Package.exports_all core core_api →
     ns !! "compile_dag_to_pipeline"
     = Some (Package.ImportErrorStub Package.core_missing)
     ∧ ns !! "compile_dag"
       = Some (Package.ImportErrorStub Package.core_missing)
     ∧ ns !! "PipelineDAGCompiler"
       = Some (Package.ImportErrorStub Package.core_missing)
     ∧ ns !! "DynamicPipelineTemplate" = None
     ∧ ∃ e, warnings
            = [ "Some AutoPipe features may not be available: " +:+ e ])
  ∧ (Package.exports_all dag dag_api →
     ns !! "PipelineDAG" = Some (Package.Imported ".api.dag" "PipelineDAG")
     ∧ ns !! "EnhancedPipelineDAG"
       = Some (Package.Imported ".api.dag" "EnhancedPipelineDAG"))
  ∧ (¬ Package.exports_all dag dag_api →
     ns !! "PipelineDAG" = Some (Package.ImportErrorStub Package.dag_missing)
     ∧ ns !! "EnhancedPipelineDAG"
       = Some (Package.ImportErrorStub Package.enhanced_dag_missing)).
Proof.
  intros (_ & Hcore & Hdag & _)%package_init_cases. split_and!.
  - intros H. by destruct Hcore as [(_ & ?)|(? & _)].
  - intros H. by destruct Hcore as [(? & _)|(_ & ?)].
  - intros H. by destruct Hdag as [(_ & ?)|(? & _)].
  - intros H. by destruct Hdag as [(? & _)|(_ & ?)].
Qed.

Lemma package_imports_all_or_nothing_witness :
  match Package.init false PackageFixtures.version PackageFixtures.core
          PackageFixtures.dag with
  | inr (ns, warnings) =>
      ns !! "compile_dag_to_pipeline"
      = Some (Package.ImportErrorStub Package.core_missing)
      ∧ ns !! "DynamicPipelineTemplate" = None
      ∧ ns !! "PipelineDAG"
        = Some (Package.Imported ".api.dag" "PipelineDAG")
  | inl _ => False
  end.
Proof.
  destruct fixtures_init as (ns & warnings & Hinit). rewrite Hinit.
  destruct (package_imports_all_or_nothing _ _ _ _ _ _ Hinit)
    as (_ & Hcore & Hdag & _).
  destruct Hcore as (H1 & _ & _ & H2 & _).
  { intros H. specialize (H "DynamicPipelineTemplate").
    assert ("DynamicPipelineTemplate" ∈ core_api) as Hin
      by (unfold core_api; do 2 right; left).
    apply H in Hin. vm_compute in Hin.
    repeat (apply elem_of_cons in Hin as [Hin|Hin]; [discriminate|]).
    by apply elem_of_nil in Hin. }
  destruct Hdag as [H3 _].
  { intros n Hn. exact Hn. }
  by split_and!.
Defined.

(** X19. Every name of [__all__] is defined after the package has been
    imported exactly when the core imports all succeeded: when they did not,
    [DynamicPipelineTemplate] is listed but has no stand-in. *)
Theorem package_all_defined
    (warnings_as_errors : bool) (version core dag : Package.module_state)
    (ns : gmap string Package.binding) (warnings : list string) :
  Package.init warnings_as_errors version core dag = inr (ns, warnings) →
  ((∀ n, n ∈ Package.all → is_Some (ns !! n))
   ↔ Package.exports_all core core_api)
  ∧ (∀ n, n ∈ Package.all → n ≠ "DynamicPipelineTemplate" →
          is_Some (ns !! n)).
Proof.
  intros (Hversion & Hcore & Hdag & Hfun)%package_init_cases.
  assert (Hrest : ∀ n, n ∈ Package.all → n ≠ "DynamicPipelineTemplate" →
                       is_Some (ns !! n)).
  { assert (Hc : is_Some (ns !! "compile_dag")
                 ∧ is_Some (ns !! "compile_dag_to_pipeline")
                 ∧ is_Some (ns !! "PipelineDAGCompiler")).
    { destruct Hcore as [(_ & -> & -> & -> & _)|(_ & -> & -> & -> & _)];
        split_and!; by eexists. }
    assert (Hd : is_Some (ns !! "PipelineDAG")
                 ∧ is_Some (ns !! "EnhancedPipelineDAG")).
    { destruct Hdag as [(_ & -> & ->)|(_ & -> & ->)]; split; by eexists. }
    destruct Hc as (Hc1 & Hc2 & Hc3), Hd as [Hd1 Hd2].
    assert (Hf : is_Some (ns !! "create_pipeline_from_dag"))
      by (rewrite Hfun; by eexists).
    intros n Hn Hne. unfold Package.all in Hn.
    repeat (apply elem_of_cons in Hn as [->|Hn];
            [ solve [ assumption
                    | done
                    | apply Hversion;
                      repeat first [ apply list_elem_of_here
                                   | apply list_elem_of_further ] ] |]).
    by apply elem_of_nil in Hn. }
  split; [|done]. split.
  - intros Hall. destruct Hcore as [(? & _)|(_ & _ & _ & _ & Hnone & _)];
      [done|].
    destruct (Hall "DynamicPipelineTemplate") as [? ?]; [|congruence].
    unfold Package.all.
    repeat first [ apply list_elem_of_here | apply list_elem_of_further ].
  - intros Hexp n Hn.
    destruct (decide (n = "DynamicPipelineTemplate")) as [->|Hne];
      [|by apply Hrest].
    destruct Hcore as [(_ & _ & _ & _ & ? & _)|(? & _)]; [by eexists | done].
Qed.

Lemma package_all_defined_witness :
  match Package.init false PackageFixtures.version PackageFixtures.core
          PackageFixtures.dag with
  | inr (ns, warnings) => is_Some (ns !! "compile_dag")
  | inl _ => False
  end.
Proof.
  destruct fixtures_init as (ns & warnings & Hinit). rewrite Hinit.
  destruct (package_all_defined _ _ _ _ _ _ Hinit) as [_ H].
  apply H; [|discriminate]. unfold Package.all.
  repeat first [ apply list_elem_of_here | apply list_elem_of_further ].
Defined.

(** X20. What calling the functions of the package does.  [compile_dag] is
    [compile_dag_to_pipeline] under another name: the same call gives the
    same outcome.  [create_pipeline_from_dag(dag, name, **kwargs)] calls
    [compile_dag_to_pipeline] with [dag] as its only positional argument
    and with [pipeline_name] always passed by keyword ([None] when it was
    not given), next to the other keyword arguments; called without [dag]
    it raises [TypeError], whether the core imports succeeded or not.  When
    the core imports failed, [compile_dag], [compile_dag_to_pipeline] and
    [PipelineDAGCompiler] raise [ImportError] with the installation hint
    whatever their arguments, and so does [create_pipeline_from_dag] when it
    is given a [dag]; when the DAG import failed, [PipelineDAG] and
    [EnhancedPipelineDAG] raise [ImportError], each with its own text. *)
Theorem package_calls
    (warnings_as_errors : bool) (version core dag : Package.module_state)
    (ns : gmap string Package.binding) (warnings : list string) :
  Package.init warnings_as_errors version core dag = inr (ns, warnings) →
  (∀ args kwargs,
     Package.call ns "compile_dag" args kwargs
     = Package.call ns "compile_dag_to_pipeline" args kwargs)
  ∧ (∀ d name kwargs,
       kwargs !! "dag" = None → kwargs !! "pipeline_name" = None →
       Package.call ns "create_pipeline_from_dag" [d; name] kwargs
       = Package.call ns "compile_dag_to_pipeline" [d]
           (<[ "pipeline_name" := name ]> kwargs)
       ∧ Package.call ns "create_pipeline_from_dag" [d]
           (<[ "pipeline_name" := name ]> kwargs)
         = Package.call ns "compile_dag_to_pipeline" [d]
             (<[ "pipeline_name" := name ]> kwargs)
       ∧ Package.call ns "create_pipeline_from_dag" [d] kwargs
         = Package.call ns "compile_dag_to_pipeline" [d]
             (<[ "pipeline_name" := PNone ]> kwargs))
  ∧ (∀ kwargs,
       kwargs !! "dag" = None →
       Package.call ns "create_pipeline_from_dag" [] kwargs
       = Package.RaisesTypeError)
  ∧ (Package.exports_all core core_api →
     ∀ args kwargs,
       Package.call ns "compile_dag_to_pipeline" args kwargs
       = Package.Calls ".core.compiler" "compile_dag_to_pipeline" args
           kwargs)
  ∧ (¬ Package.exports_all core core_api →
     ∀ args kwargs,
       Package.call ns "compile_dag_to_pipeline" args kwargs
       = Package.RaisesImportError Package.core_missing
       ∧ Package.call ns "PipelineDAGCompiler" args kwargs
         = Package.RaisesImportError Package.core_missing)
  ∧ (¬ Package.exports_all dag dag_api →
     ∀ args kwargs,
       Package.call ns "PipelineDAG" args kwargs
       = Package.RaisesImportError Package.dag_missing
       ∧ Package.call ns "EnhancedPipelineDAG" args kwargs
         = Package.RaisesImportError Package.enhanced_dag_missing).
Proof.
  intros (_ & Hcore & Hdag & Hfun)%package_init_cases.
  assert (Hdel : ∀ (name : pyval) (kwargs : gmap string pyval),
            kwargs !! "pipeline_name" = None →
            delete "pipeline_name" (<[ "pipeline_name" := name ]> kwargs)
            = kwargs).
  { intros name kwargs H. by rewrite delete_insert_eq, delete_id. }
  unfold Package.call, Package.create_pipeline_from_dag,
    Package.bind_arguments, Package.call_global. rewrite Hfun.
  destruct Hcore as [(Hc & -> & -> & -> & _)|(Hc & -> & -> & -> & _)];
    destruct Hdag as [(Hd & -> & ->)|(Hd & -> & ->)].
  all: split_and!; try done.
  all: try (intros d name kwargs Hdag' Hname;
            rewrite lookup_insert_ne by done;
            rewrite lookup_insert_eq, Hdag', Hname;
            cbn [default from_option id];
            rewrite Hdel by done; rewrite delete_id by done; done).
  all: intros kwargs ->; done.
Qed.

Lemma package_calls_witness :
  match Package.init false PackageFixtures.version PackageFixtures.core
          PackageFixtures.dag with
  | inr (ns, warnings) =>
      Package.call ns "create_pipeline_from_dag" [PStr "dag"] ∅
      = Package.RaisesImportError Package.core_missing
      ∧ Package.call ns "create_pipeline_from_dag" [] ∅
        = Package.RaisesTypeError
  | inl _ => False
  end.
Proof.
  destruct fixtures_init as (ns & warnings & Hinit). rewrite Hinit.
  destruct (package_calls _ _ _ _ _ _ Hinit) as (_ & Hcreate & Hno & _ & H & _).
  split; [|by apply Hno].
  destruct (Hcreate (PStr "dag") PNone ∅) as (_ & _ & ->); [done..|].
  apply H. intros Hexp. specialize (Hexp "DynamicPipelineTemplate").
  assert ("DynamicPipelineTemplate" ∈ core_api) as Hin
    by (unfold core_api; do 2 right; left).
  apply Hexp in Hin.
  repeat (apply elem_of_cons in Hin as [Hin|Hin]; [discriminate|]).
  by apply elem_of_nil in Hin.
Defined.
